(** * AVLTree and HashMap (avltree.hpp, hash_map.hpp, exceptions.hpp)

    A shallow embedding of the balanced tree and of the chained map that
    uses it for its buckets, together with the properties of both.

    Representation.  The tree owns its nodes through the [_left] and
    [_right] links, so a [Node*] is an inductive tree and [NULL] is its
    empty constructor.  Every node carries the two cached heights of the
    source, which are data of their own here: they are written only where
    the source writes them ([setLeft], [setRight], [updateLeftHeight],
    [updateRightHeight]).  The non-owning [_parent] link of a node is the
    enclosing node of the inductive tree; a function that rewires the link
    of the parent (or the [root] field) to a new subtree root returns that
    subtree.  A pointer to a node held from outside (iterator, [minimal])
    is the path from the root to that node.  [int] is [Z]: the counters
    count live heap nodes and never come near the 32-bit range. *)

From stdpp Require Import gmap list sorting.
Open Scope Z_scope.

(** ** exceptions.hpp *)

Inductive exn : Type :=
| AVLTreeKeyNotFoundException
| AVLTreeKeyAlreadyExistsException
| AVLTreeInvalidArgException
| AVLTreeNullArgException
| AVLTreeIteratorReachedEnd
| AVLTreeIteratorReachedRoot
| HashMapKeyNotFoundException
| HashMapKeyAlreadyExistsException.

(** Outcome of a call: a normal return, a thrown exception, undefined
    behaviour of the C++ program (a NULL or dangling pointer is
    dereferenced, an array is read out of bounds), or the recursion
    budget of a fuelled definition is used up. *)
Inductive res (A : Type) : Type :=
| Ret (a : A)
| Throw (e : exn)
| Fault
| OutOfFuel.
Arguments Ret {A} a.
Arguments Throw {A} e.
Arguments Fault {A}.
Arguments OutOfFuel {A}.

#[global] Instance res_bind : MBind res := λ A B f m,
  match m with
  | Ret a => f a
  | Throw e => Throw e
  | Fault => Fault
  | OutOfFuel => OutOfFuel
  end.
#[global] Instance res_ret : MRet res := @Ret.
#[global] Instance res_fmap : FMap res := λ A B f m,
  match m with
  | Ret a => Ret (f a)
  | Throw e => Throw e
  | Fault => Fault
  | OutOfFuel => OutOfFuel
  end.

(** ** class Node *)

Inductive Node (T : Type) : Type :=
| NULL
| Nd (_left : Node T) (_key : Z) (_data : T) (_right : Node T)
     (_left_height _right_height : Z).
Arguments NULL {T}.
Arguments Nd {T} _left _key _data _right _left_height _right_height.

Definition HEIGHT_ZERO : Z := 0.
Definition UNBALANCED_FACTOR_SON_ZERO : Z := 0.
Definition UNBALANCED_FACTOR_SON : Z := 1.
Definition UNBALANCED_FACTOR_SON_NEGATIVE : Z := -1.
Definition UNBALANCED_FACTOR : Z := 2.
Definition UNBALANCED_FACTOR_NEGATIVE : Z := -2.
Definition UNBALANCED_TREE : Z := 2.
Definition POWER_TWO : Z := 2.

(** [Node(key, data)]: a fresh node without children. *)
Definition newNode {T} (key : Z) (data : T) : Node T :=
  Nd NULL key data NULL HEIGHT_ZERO HEIGHT_ZERO.

Definition isLeaf {T} (n : Node T) : bool :=
  match n with
  | Nd NULL _ _ NULL _ _ => true
  | _ => false
  end.

Definition isFull {T} (n : Node T) : bool :=
  match n with
  | Nd (Nd _ _ _ _ _ _) _ _ (Nd _ _ _ _ _ _) _ _ => true
  | _ => false
  end.

(** [getBalance]: cached left height minus cached right height. *)
Definition getBalance {T} (n : Node T) : Z :=
  match n with
  | NULL => 0
  | Nd _ _ _ _ lh rh => lh - rh
  end.

(** The value that [updateLeftHeight] and [updateRightHeight] store for a
    child pointer: [0] for [NULL], else the child's [getHeight()], which
    is computed from the child's cached heights. *)
Definition getHeight {T} (son : Node T) : Z :=
  match son with
  | NULL => 0
  | Nd _ _ _ _ lh rh => Z.max lh rh + 1
  end.

(** ** Recomputed quantities (not stored by the source) *)

(** True height of a subtree. *)
Fixpoint height {T} (n : Node T) : Z :=
  match n with
  | NULL => 0
  | Nd l _ _ r _ _ => Z.max (height l) (height r) + 1
  end.

(** Depth as a natural number: the bound on the call depth of the
    recursive walks. *)
Fixpoint depth {T} (n : Node T) : nat :=
  match n with
  | NULL => O
  | Nd l _ _ r _ _ => S (Nat.max (depth l) (depth r))
  end.

Fixpoint nodes {T} (n : Node T) : Z :=
  match n with
  | NULL => 0
  | Nd l _ _ r _ _ => nodes l + 1 + nodes r
  end.

(** In-order traversal: the (key, data) pairs, left subtree first. *)
Fixpoint inorder {T} (n : Node T) : list (Z * T) :=
  match n with
  | NULL => []
  | Nd l k d r _ _ => inorder l ++ (k, d) :: inorder r
  end.

(** [inorderOutputAux]: the keys written to the stream, in order. *)
Fixpoint inorderOutputAux {T} (current : Node T) : list Z :=
  match current with
  | NULL => []
  | Nd l k _ r _ _ => inorderOutputAux l ++ k :: inorderOutputAux r
  end.

(** [extractTreeDataInOrderAux]: the data cells written to [out], in
    order ([out] and [index] are never NULL at the call sites). *)
Fixpoint extractTreeDataInOrderAux {T} (node : Node T) : list T :=
  match node with
  | NULL => []
  | Nd l _ d r _ _ =>
      extractTreeDataInOrderAux l ++ d :: extractTreeDataInOrderAux r
  end.

(** Every node is height-balanced with respect to the true heights. *)
Fixpoint balanced {T} (n : Node T) : bool :=
  match n with
  | NULL => true
  | Nd l _ _ r _ _ =>
      (Z.abs (height l - height r) <? 2) && balanced l && balanced r
  end.

(** Every cached height equals the true height of the subtree it caches. *)
Fixpoint heights_exact {T} (n : Node T) : bool :=
  match n with
  | NULL => true
  | Nd l _ _ r lh rh =>
      (lh =? height l) && (rh =? height r)
      && heights_exact l && heights_exact r
  end.

(** [getMaxBalanceFactorAux]: the largest cached balance factor. *)
Fixpoint getMaxBalanceFactorAux {T} (current : Node T) : Z :=
  match current with
  | NULL => 0
  | Nd l _ _ r _ _ =>
      Z.max (Z.abs (getBalance current))
            (Z.max (getMaxBalanceFactorAux r) (getMaxBalanceFactorAux l))
  end.

(** ** Pointers to nodes held from outside the tree *)

Inductive dir : Type := GoLeft | GoRight.

(** The node a path from [n] leads to ([NULL] when it leaves the tree). *)
Fixpoint node_at {T} (p : list dir) (n : Node T) : Node T :=
  match p, n with
  | [], _ => n
  | _ :: _, NULL => NULL
  | GoLeft :: p', Nd l _ _ _ _ _ => node_at p' l
  | GoRight :: p', Nd _ _ _ r _ _ => node_at p' r
  end.

(** ** Private methods of AVLTree *)

(** [recursiveFind]: the found node as a path from [current], [None]
    for the NULL result. *)
Fixpoint recursiveFind {T} (current : Node T) (key : Z) : option (list dir) :=
  match current with
  | NULL => None
  | Nd l k _ r _ _ =>
      if key <? k then (GoLeft ::.) <$> recursiveFind l key
      else if k <? key then (GoRight ::.) <$> recursiveFind r key
      else Some []
  end.

(** [rotateLL(B)]: [B->setLeft(A_right)] then [A->setRight(B)]; each
    setter refreshes the cached height of the side it sets.  The result
    is [A], which the caller links in place of [B]. *)
Definition rotateLL {T} (B : Node T) : res (Node T) :=
  match B with
  | Nd (Nd A_left ak ad A_right alh arh) bk bd B_right blh brh =>
      let B' := Nd A_right bk bd B_right (getHeight A_right) brh in
      Ret (Nd A_left ak ad B' alh (getHeight B'))
  | _ => Fault
  end.

(** [rotateRR(A)]: [A->setRight(B_left)] then [B->setLeft(A)]. *)
Definition rotateRR {T} (A : Node T) : res (Node T) :=
  match A with
  | Nd A_left ak ad (Nd B_left bk bd B_right blh brh) alh arh =>
      let A' := Nd A_left ak ad B_left alh (getHeight B_left) in
      Ret (Nd A' bk bd B_right (getHeight A') brh)
  | _ => Fault
  end.

(** [rotateLR(C)]: the inner [rotateRR] has [C] as the parent of the
    rotated subtree, so it ends with [C->setLeft(B)]. *)
Definition rotateLR {T} (C : Node T) : res (Node T) :=
  match C with
  | NULL => Fault
  | Nd l k d r lh rh =>
      B ← rotateRR l;
      rotateLL (Nd B k d r (getHeight B) rh)
  end.

Definition rotateRL {T} (C : Node T) : res (Node T) :=
  match C with
  | NULL => Fault
  | Nd l k d r lh rh =>
      B ← rotateLL r;
      rotateRR (Nd l k d B lh (getHeight B))
  end.

(** [rotate(node)].  The boolean tells whether a rotation ran: a rotation
    ends by setting the new subtree root into the parent of [node] with
    [setLeft] or [setRight], which refreshes the parent's cached height
    of that side (or by storing it in [root]). *)
Definition rotate {T} (node : Node T) : res (Node T * bool) :=
  match node with
  | NULL => Fault
  | Nd l _ _ r _ _ =>
      if getBalance node =? UNBALANCED_FACTOR then
        match l with
        | NULL => Fault
        | Nd _ _ _ _ _ _ =>
            if UNBALANCED_FACTOR_SON_ZERO <=? getBalance l then
              A ← rotateLL node; mret (A, true)
            else if getBalance l =? UNBALANCED_FACTOR_SON_NEGATIVE then
              A ← rotateLR node; mret (A, true)
            else mret (node, false)
        end
      else if getBalance node =? UNBALANCED_FACTOR_NEGATIVE then
        match r with
        | NULL => Fault
        | Nd _ _ _ _ _ _ =>
            if getBalance r =? UNBALANCED_FACTOR_SON then
              B ← rotateRL node; mret (B, true)
            else if getBalance r <=? UNBALANCED_FACTOR_SON_ZERO then
              B ← rotateRR node; mret (B, true)
            else mret (node, false)
        end
      else mret (node, false)
  end.

Arguments rotate : simpl never.

(** [recursiveInsert(current, to_insert)] with [to_insert] the fresh node
    [Node(key, data)].  Returns the subtree now linked where [current]
    was and whether the closing [rotate(current)] rotated.  In the branch
    of a full node the source refreshes the right cached height on both
    sides of the comparison; the left one changes only when the rotation
    below re-set the left link. *)
Fixpoint recursiveInsert {T} (current : Node T) (key : Z) (data : T)
  : res (Node T * bool) :=
  let to_insert := newNode key data in
  match current with
  | NULL => Fault
  | Nd l k d r lh rh =>
      match l, r with
      | NULL, NULL =>                                   (* isLeaf() *)
          if k <? key then rotate (Nd l k d to_insert lh (getHeight to_insert))
          else rotate (Nd to_insert k d r (getHeight to_insert) rh)
      | Nd _ _ _ _ _ _, Nd _ _ _ _ _ _ =>               (* isFull() *)
          if k <? key then
            '(r', _) ← recursiveInsert r key data;
            rotate (Nd l k d r' lh (getHeight r'))
          else
            '(l', relinked) ← recursiveInsert l key data;
            let lh' := if relinked : bool then getHeight l' else lh in
            rotate (Nd l' k d r lh' (getHeight r))
      | Nd _ _ _ _ _ _, NULL =>                         (* getLeft() != NULL *)
          if k <? key then rotate (Nd l k d to_insert lh (getHeight to_insert))
          else
            '(l', _) ← recursiveInsert l key data;
            rotate (Nd l' k d r (getHeight l') rh)
      | NULL, Nd _ _ _ _ _ _ =>                         (* only getRight() *)
          if key <? k then rotate (Nd to_insert k d r (getHeight to_insert) rh)
          else
            '(r', _) ← recursiveInsert r key data;
            rotate (Nd l k d r' lh (getHeight r'))
      end
  end.

(** Key and data of the leftmost node: the in-order successor that the
    [while] loop of [recursiveDelete] reaches in the right subtree. *)
Fixpoint leftmost {T} (n : Node T) (k : Z) (d : T) : Z * T :=
  match n with
  | NULL => (k, d)
  | Nd l k' d' _ _ _ => leftmost l k' d'
  end.

(** [swap] seen from the successor: its key and data become those of the
    node being deleted. *)
Fixpoint set_leftmost {T} (n : Node T) (key : Z) (data : T) : Node T :=
  match n with
  | NULL => NULL
  | Nd NULL _ _ r lh rh => Nd NULL key data r lh rh
  | Nd l k d r lh rh => Nd (set_leftmost l key data) k d r lh rh
  end.

(** [recursiveDelete(current, key)].  Returns the subtree now linked
    where [current] was.  After the recursive call the cached height of
    the side walked is that of the new child: the source refreshes it when
    the child is not NULL, and a child that became NULL was unlinked with
    [setLeft(NULL)] or [setRight(NULL)].  The call after [swap] is on the
    right subtree in which the successor now carries [key], so the
    recursion is not on a subterm: [fuel] bounds the call depth. *)
Fixpoint recursiveDelete {T} (fuel : nat) (current : Node T) (key : Z)
  : res (Node T) :=
  match fuel with
  | O => OutOfFuel
  | S fuel' =>
      match current with
      | NULL => Fault
      | Nd l k d r lh rh =>
          if k =? key then
            match l, r with
            | NULL, NULL => Ret NULL                    (* isLeaf() *)
            | Nd _ _ _ _ _ _, Nd rl rk rd _ _ _ =>      (* isFull() *)
                let '(sk, sd) := leftmost rl rk rd in
                r' ← recursiveDelete fuel' (set_leftmost r k d) key;
                fst <$> rotate (Nd l sk sd r' lh (getHeight r'))
            | Nd _ _ _ _ _ _, NULL => Ret l             (* attachParentAndSon *)
            | NULL, Nd _ _ _ _ _ _ => Ret r
            end
          else if k <? key then
            r' ← recursiveDelete fuel' r key;
            fst <$> rotate (Nd l k d r' lh (getHeight r'))
          else
            l' ← recursiveDelete fuel' l key;
            fst <$> rotate (Nd l' k d r (getHeight l') rh)
      end
  end.

(** [updateMinimal(current)]: the new value of [minimal]. *)
Fixpoint updateMinimal {T} (current : Node T) : option (list dir) :=
  match current with
  | NULL => None
  | Nd NULL _ _ _ _ _ => Some []
  | Nd l _ _ _ _ _ => (GoLeft ::.) <$> updateMinimal l
  end.

(** [recursiveDestruct(current)]: every node is deleted and [size] is
    decremented once per node; the result is the new [size]. *)
Fixpoint recursiveDestruct {T} (current : Node T) (size : Z) : Z :=
  match current with
  | NULL => size
  | Nd l _ _ r _ _ => recursiveDestruct r (recursiveDestruct l size) - 1
  end.

(** The [while] loop of [getTreeHeightByNodesCount]; [pow] is exact on
    these operands. *)
Fixpoint height_loop (fuel : nat) (count height : Z) : res Z :=
  match fuel with
  | O => OutOfFuel
  | S fuel' =>
      if POWER_TWO ^ height - 1 <? count
      then height_loop fuel' count (height + 1)
      else Ret height
  end.

Definition getTreeHeightByNodesCount (count : Z) : res Z :=
  if count <? 0 then Throw AVLTreeInvalidArgException
  else height_loop (S (Z.to_nat count)) count 0.

(** [createBlankTree(height)] for [height >= 0], threading [size].  The
    nodes come from [Node()], which leaves key and data default
    initialised: [blank_key] and [blank_data] stand for that content. *)
Fixpoint createBlankTree {T} (blank_key : Z) (blank_data : T)
    (height : nat) (size : Z) : Node T * Z :=
  match height with
  | O => (NULL, size)
  | S h =>
      let '(l, size1) := createBlankTree blank_key blank_data h size in
      let '(r, size2) := createBlankTree blank_key blank_data h size1 in
      (Nd l blank_key blank_data r (getHeight l) (getHeight r), size2 + 1)
  end.

(** [trimTreeInOrder(node, &current_size, requested_size)], threading
    [size] and [*current_size].  A node that is deleted is unlinked from
    its parent, so the subtree returned for it is [NULL]. *)
Fixpoint trimTreeInOrder {T} (node : Node T) (size current_size : Z)
    (requested_size : Z) : Node T * Z * Z :=
  if current_size =? requested_size then (node, size, current_size)
  else
    match node with
    | NULL => (node, size, current_size)
    | Nd l k d r lh rh =>
        let '(l', size1, cur1) :=
          trimTreeInOrder l size current_size requested_size in
        if isLeaf (Nd l' k d r lh rh) then (NULL, size1 - 1, cur1 - 1)
        else
          let '(r', size2, cur2) :=
            trimTreeInOrder r size1 cur1 requested_size in
          (Nd l' k d r' (getHeight l') (getHeight r'), size2, cur2)
    end.

(** [fillTreeInOrder(node, ordered_data, ordered_keys, &index)],
    threading [*index]; the buffers are not NULL at the call site.
    Reading either array past its end is a [Fault]. *)
Fixpoint fillTreeInOrder {T} (node : Node T) (ordered_data : list T)
    (ordered_keys : list Z) (index : nat) : res (Node T * nat) :=
  match node with
  | NULL => Ret (NULL, index)
  | Nd l _ _ r lh rh =>
      '(l', i1) ← fillTreeInOrder l ordered_data ordered_keys index;
      match ordered_data !! i1, ordered_keys !! i1 with
      | Some d, Some k =>
          '(r', i2) ← fillTreeInOrder r ordered_data ordered_keys (S i1);
          Ret (Nd l' k d r' lh rh, i2)
      | _, _ => Fault
      end
  end.

(** ** class AVLTree *)

Record AVLTree (T : Type) : Type := mkAVLTree {
  root : Node T;
  minimal : option (list dir);
  size : Z
}.
Arguments mkAVLTree {T} root minimal size.
Arguments root {T} _.
Arguments minimal {T} _.
Arguments size {T} _.

Definition INITIAL_SIZE : Z := 0.

(** [AVLTree()]. *)
Definition AVLTree_new {T} : AVLTree T := mkAVLTree NULL None INITIAL_SIZE.

Definition getSize {T} (t : AVLTree T) : Z := size t.

Definition Empty {T} (t : AVLTree T) : bool :=
  match root t with
  | NULL => true
  | Nd _ _ _ _ _ _ => getSize t =? 0
  end.

Definition isBalanced {T} (t : AVLTree T) : bool :=
  getMaxBalanceFactorAux (root t) <? UNBALANCED_TREE.

(** ** class AVLTree::iterator

    The [current] pointer of an iterator, as a path from the root of the
    tree it belongs to; [None] is the NULL pointer. *)
Record iterator : Type := mkIterator { current : option (list dir) }.

Definition MoveLeft {T} (t : AVLTree T) (it : iterator) : res iterator :=
  match current it with
  | None => Throw AVLTreeIteratorReachedEnd
  | Some p =>
      match node_at p (root t) with
      | NULL => Fault
      | Nd NULL _ _ _ _ _ => Ret (mkIterator None)
      | Nd (Nd _ _ _ _ _ _) _ _ _ _ _ => Ret (mkIterator (Some (p ++ [GoLeft])))
      end
  end.

Definition MoveRight {T} (t : AVLTree T) (it : iterator) : res iterator :=
  match current it with
  | None => Throw AVLTreeIteratorReachedEnd
  | Some p =>
      match node_at p (root t) with
      | NULL => Fault
      | Nd _ _ _ NULL _ _ => Ret (mkIterator None)
      | Nd _ _ _ (Nd _ _ _ _ _ _) _ _ => Ret (mkIterator (Some (p ++ [GoRight])))
      end
  end.

Definition moveToParent {T} (t : AVLTree T) (it : iterator) : res iterator :=
  match current it with
  | None => Throw AVLTreeIteratorReachedEnd
  | Some p =>
      match node_at p (root t) with
      | NULL => Fault
      | Nd _ _ _ _ _ _ =>
          match p with
          | [] => Throw AVLTreeIteratorReachedRoot
          | _ :: _ => Ret (mkIterator (Some (removelast p)))
          end
      end
  end.

(** [operator*]. *)
Definition deref {T} (t : AVLTree T) (it : iterator) : res T :=
  match current it with
  | None => Throw AVLTreeIteratorReachedEnd
  | Some p =>
      match node_at p (root t) with
      | NULL => Fault
      | Nd _ _ d _ _ _ => Ret d
      end
  end.

(** ** Public interface of AVLTree

    A mutating method returns the tree after the call and the outcome of
    the call. *)

Definition Find {T} (key : Z) (t : AVLTree T) : res iterator :=
  match recursiveFind (root t) key with
  | None => Throw AVLTreeKeyNotFoundException
  | Some p => Ret (mkIterator (Some p))
  end.

Definition Insert {T} (key : Z) (data : T) (t : AVLTree T)
  : AVLTree T * res () :=
  if Empty t then
    let r := newNode key data in
    (mkAVLTree r (updateMinimal r) (size t + 1), Ret ())
  else
    match Find key t with
    | Throw AVLTreeKeyNotFoundException =>
        match recursiveInsert (root t) key data with
        | Ret (r, _) => (mkAVLTree r (updateMinimal r) (size t + 1), Ret ())
        | Throw e => (t, Throw e)
        | Fault => (t, Fault)
        | OutOfFuel => (t, OutOfFuel)
        end
    | Ret _ => (t, Throw AVLTreeKeyAlreadyExistsException)
    | Throw e => (t, Throw e)
    | Fault => (t, Fault)
    | OutOfFuel => (t, OutOfFuel)
    end.

Definition Delete {T} (key : Z) (t : AVLTree T) : AVLTree T * res () :=
  match Find key t with
  | Ret _ =>
      match recursiveDelete (S (depth (root t))) (root t) key with
      | Ret r =>
          let size' := size t - 1 in
          let r' := if size' =? 0 then NULL else r in
          (mkAVLTree r' (updateMinimal r') size', Ret ())
      | Throw e => (t, Throw e)
      | Fault => (t, Fault)
      | OutOfFuel => (t, OutOfFuel)
      end
  | Throw e => (t, Throw e)
  | Fault => (t, Fault)
  | OutOfFuel => (t, OutOfFuel)
  end.

(** [inOrderExtract]: pointers to the data cells, in order. *)
Definition inOrderExtract {T} (t : AVLTree T) : list T :=
  extractTreeDataInOrderAux (root t).

(** [generateInOrder(arr_data, arr_keys, count)].  A buffer is [None]
    when the pointer is NULL; [arr_data] holds the objects its entries
    point to. *)
Definition generateInOrder {T} (blank_key : Z) (blank_data : T)
    (arr_data : option (list T)) (arr_keys : option (list Z)) (count : Z)
    (t : AVLTree T) : AVLTree T * res () :=
  if count <? 0 then (t, Throw AVLTreeInvalidArgException)
  else if count =? 0 then (t, Ret ())
  else
    match arr_data, arr_keys with
    | Some data, Some keys =>
        if negb (Z.to_nat count <=? length data)%nat then (t, Fault)
        else
          let copied_data := take (Z.to_nat count) data in
          let rebuilt :=
            if negb (size t =? count) then
              let size0 := recursiveDestruct (root t) (size t) in
              requested_height ← getTreeHeightByNodesCount count;
              let current_size := POWER_TWO ^ requested_height - 1 in
              let '(r, size1) :=
                createBlankTree blank_key blank_data
                  (Z.to_nat requested_height) size0 in
              let '(r', size2, _) :=
                trimTreeInOrder r size1 current_size count in
              Ret (r', size2)
            else Ret (root t, size t) in
          match rebuilt with
          | Ret (r, size') =>
              match fillTreeInOrder r copied_data keys 0 with
              | Ret (r', _) =>
                  (mkAVLTree r' (updateMinimal r') size', Ret ())
              | Throw e => (mkAVLTree r (minimal t) size', Throw e)
              | Fault => (mkAVLTree r (minimal t) size', Fault)
              | OutOfFuel => (mkAVLTree r (minimal t) size', OutOfFuel)
              end
          | Throw e => (t, Throw e)
          | Fault => (t, Fault)
          | OutOfFuel => (t, OutOfFuel)
          end
    | _, _ => (t, Throw AVLTreeNullArgException)
    end.

(** [getMinimal]: an iterator on the node [minimal] points to. *)
Definition getMinimal {T} (t : AVLTree T) : res iterator :=
  match minimal t with
  | None => Throw AVLTreeKeyNotFoundException
  | Some p => Ret (mkIterator (Some p))
  end.

(** ** Running a sequence of public mutations *)

Inductive op (T : Type) : Type :=
| OpInsert (key : Z) (data : T)
| OpDelete (key : Z).
Arguments OpInsert {T} key data.
Arguments OpDelete {T} key.

Definition step {T} (t : AVLTree T) (o : op T) : AVLTree T * res () :=
  match o with
  | OpInsert key data => Insert key data t
  | OpDelete key => Delete key t
  end.

(** The tree after the operations, exceptions being caught by the
    caller between two operations. *)
Definition run {T} (ops : list (op T)) (t : AVLTree T) : AVLTree T :=
  foldl (λ t o, (step t o).1) t ops.

Definition inserts (keys : list Z) : list (op ()) :=
  (λ k, OpInsert k ()) <$> keys.

(** ** class HashMap (hash_map.hpp)

    A bucket stores [V*] pointers: [loc] is the address of a payload
    object allocated with [new V], and [heap] holds the live payload
    objects.  [entries] is the bucket array. *)

Definition loc : Type := nat.

Record HashMap (V : Type) : Type := mkHashMap {
  entries : list (AVLTree loc);
  _size : Z;
  _count : Z;
  heap : gmap nat V
}.
Arguments mkHashMap {V} entries _size _count heap.
Arguments entries {V} _.
Arguments _size {V} _.
Arguments _count {V} _.
Arguments heap {V} _.

Definition EMPTY_TABLE : Z := 0.
Definition HASH_INITIAL_SIZE : Z := 10.
Definition INCREASE_FACTOR : Z := 2.
Definition DECREASE_FACTOR : Z := 2.

(** [HashMap()]. *)
Definition HashMap_new {V} : HashMap V :=
  mkHashMap (replicate (Z.to_nat HASH_INITIAL_SIZE) AVLTree_new)
            HASH_INITIAL_SIZE EMPTY_TABLE ∅.

Definition INT_MIN : Z := - 2 ^ 31.
Definition INT_MAX : Z := 2 ^ 31 - 1.

(** [(int) key] for an integral key type: a value in the range of [int]
    is kept, a wider one is reduced modulo [2^32] into that range. *)
Definition int_cast (key : Z) : Z := (key - INT_MIN) mod 2 ^ 32 + INT_MIN.

(** [hashFunction(key)] for an integral key: the key is cast to [int]
    and [%] truncates towards zero. *)
Definition hashFunction (key : Z) (_size : Z) : Z :=
  let res := Z.rem (int_cast key) _size in
  if 0 <=? res then res else res + _size.

(** [entries[i]]: reading outside the array is a [Fault]. *)
Definition bucket_at (es : list (AVLTree loc)) (i : Z) : res (AVLTree loc) :=
  if i <? 0 then Fault
  else match es !! Z.to_nat i with
       | Some t => Ret t
       | None => Fault
       end.

(** Modelled from the spec: [inOrderExtractData] is called by [Resize]
    but avltree.hpp as given has the extraction of the data cells under
    the name [inOrderExtract] only; a bucket is drained in sorted order,
    extracting its owned-value pointers, which is what [inOrderExtract]
    returns. *)
Definition inOrderExtractData (t : AVLTree loc) : list loc := inOrderExtract t.

(** Modelled from the spec: [inOrderExtractKeys] is called by [Resize]
    but is not part of avltree.hpp as given; a bucket is drained in
    sorted order, extracting its keys, so the keys come in order. *)
Definition inOrderExtractKeys (t : AVLTree loc) : list Z :=
  (inorder (root t)).*1.

(** The inner loop of [Resize] over [j], on the new bucket array and
    [_count]. *)
Fixpoint Resize_tree (js : list nat) (tree_keys : list Z)
    (tree_data : list loc) (new_size : Z) (es : list (AVLTree loc))
    (cnt : Z) : list (AVLTree loc) * Z * res () :=
  match js with
  | [] => (es, cnt, Ret ())
  | j :: js' =>
      match tree_keys !! j, tree_data !! j with
      | Some temp_key, Some temp_obj =>
          let entry_index := hashFunction temp_key new_size in
          match bucket_at es entry_index with
          | Ret t =>
              let '(t', r) := Insert temp_key temp_obj t in
              let es' := <[Z.to_nat entry_index := t']> es in
              match r with
              | Ret _ =>
                  Resize_tree js' tree_keys tree_data new_size es' (cnt + 1)
              | _ => (es', cnt, r)
              end
          | _ => (es, cnt, Fault)
          end
      | _, _ => (es, cnt, Fault)
      end
  end.

(** The outer loop of [Resize] over [i]. *)
Fixpoint Resize_entries (idxs : list nat) (old_entries : list (AVLTree loc))
    (new_size : Z) (es : list (AVLTree loc)) (cnt : Z)
  : list (AVLTree loc) * Z * res () :=
  match idxs with
  | [] => (es, cnt, Ret ())
  | i :: idxs' =>
      match old_entries !! i with
      | Some old =>
          let tree_size := getSize old in
          let tree_data := inOrderExtractData old in
          let tree_keys := inOrderExtractKeys old in
          let '(es', cnt', r) :=
            Resize_tree (seq 0 (Z.to_nat tree_size)) tree_keys tree_data
                        new_size es cnt in
          match r with
          | Ret _ => Resize_entries idxs' old_entries new_size es' cnt'
          | _ => (es', cnt', r)
          end
      | None => (es, cnt, Fault)
      end
  end.

(** [Resize(increase)].  The payload objects are not touched: only the
    pointers are inserted into the new bucket array. *)
Definition Resize {V} (increase : bool) (m : HashMap V) : HashMap V * res () :=
  if negb increase && (_size m =? HASH_INITIAL_SIZE) then (m, Ret ())
  else
    let old_size := _size m in
    let new_size :=
      if increase then _size m * INCREASE_FACTOR
      else Z.quot (_size m) DECREASE_FACTOR in
    let old_entries := entries m in
    let '(es, cnt, r) :=
      Resize_entries (seq 0 (Z.to_nat old_size)) old_entries new_size
                     (replicate (Z.to_nat new_size) AVLTree_new) 0 in
    (mkHashMap es new_size cnt (heap m), r).

(** [loadFactorCheckAndResize].  [_count / _size] is compared with 0.75
    and 0.25 in double precision; both constants are binary fractions
    and the quotient of two [int]s is rounded monotonically, so for a
    positive [_size] the comparisons are those of the exact fractions. *)
Definition loadFactorCheckAndResize {V} (m : HashMap V) : HashMap V * res () :=
  if 3 * _size m <=? 4 * _count m then Resize true m
  else if 4 * _count m <=? _size m then Resize false m
  else (m, Ret ()).

Definition HashMap_Contains {V} (key : Z) (m : HashMap V) : res bool :=
  t ← bucket_at (entries m) (hashFunction key (_size m));
  match Find key t with
  | Ret _ => Ret true
  | Throw AVLTreeKeyNotFoundException => Ret false
  | Throw e => Throw e
  | Fault => Fault
  | OutOfFuel => OutOfFuel
  end.

(** Propagation of an outcome that is not a normal return. *)
Definition abort {A B} (r : res A) : res B :=
  match r with
  | Ret _ => Fault
  | Throw e => Throw e
  | Fault => Fault
  | OutOfFuel => OutOfFuel
  end.

Definition HashMap_Insert {V} (key : Z) (obj : V) (m : HashMap V)
  : HashMap V * res loc :=
  match HashMap_Contains key m with
  | Ret true => (m, Throw HashMapKeyAlreadyExistsException)
  | Ret false =>
      let entry_index := hashFunction key (_size m) in
      let to_add := fresh (dom (heap m)) in
      let heap1 := <[to_add := obj]> (heap m) in
      match bucket_at (entries m) entry_index with
      | Ret t =>
          let '(t', r) := Insert key to_add t in
          let es := <[Z.to_nat entry_index := t']> (entries m) in
          match r with
          | Ret _ =>
              let '(m', r') :=
                loadFactorCheckAndResize
                  (mkHashMap es (_size m) (_count m + 1) heap1) in
              match r' with
              | Ret _ => (m', Ret to_add)
              | _ => (m', abort r')
              end
          | _ => (mkHashMap es (_size m) (_count m) heap1, abort r)
          end
      | r => (mkHashMap (entries m) (_size m) (_count m) heap1, abort r)
      end
  | r => (m, abort r)
  end.

Definition HashMap_Delete {V} (key : Z) (m : HashMap V) : HashMap V * res () :=
  match HashMap_Contains key m with
  | Ret false => (m, Throw HashMapKeyNotFoundException)
  | Ret true =>
      let entry_index := hashFunction key (_size m) in
      match bucket_at (entries m) entry_index with
      | Ret t =>
          match Find key t ≫= deref t with
          | Ret p =>
              match heap m !! p with
              | Some _ =>
                  let heap1 := delete p (heap m) in
                  let '(t', r) := Delete key t in
                  let es := <[Z.to_nat entry_index := t']> (entries m) in
                  match r with
                  | Ret _ =>
                      loadFactorCheckAndResize
                        (mkHashMap es (_size m) (_count m - 1) heap1)
                  | _ => (mkHashMap es (_size m) (_count m) heap1, r)
                  end
              | None => (m, Fault)
              end
          | r => (m, abort r)
          end
      | r => (m, abort r)
      end
  | r => (m, abort r)
  end.

Definition HashMap_Find {V} (key : Z) (m : HashMap V) : res V :=
  match HashMap_Contains key m with
  | Ret false => Throw HashMapKeyNotFoundException
  | Ret true =>
      t ← bucket_at (entries m) (hashFunction key (_size m));
      p ← Find key t ≫= deref t;
      match heap m !! p with
      | Some v => Ret v
      | None => Fault
      end
  | r => abort r
  end.

Definition HashMap_Empty {V} (m : HashMap V) : bool := EMPTY_TABLE =? _count m.

Definition HashMap_getSize {V} (m : HashMap V) : Z := _count m.

(** The (key, payload pointer) pairs of all buckets. *)
Definition pairs {V} (m : HashMap V) : list (Z * loc) :=
  concat ((λ t, inorder (root t)) <$> entries m).

Inductive mop (V : Type) : Type :=
| MapInsert (key : Z) (obj : V)
| MapDelete (key : Z).
Arguments MapInsert {V} key obj.
Arguments MapDelete {V} key.

Definition mstep {V} (m : HashMap V) (o : mop V) : HashMap V :=
  match o with
  | MapInsert key obj => (HashMap_Insert key obj m).1
  | MapDelete key => (HashMap_Delete key m).1
  end.

Definition mrun {V} (ops : list (mop V)) (m : HashMap V) : HashMap V :=
  foldl mstep m ops.

(** ** The destructor of HashMap *)

(** The inner loop of [~HashMap] over [j]: [delete *(tree_data[j])] on
    the payload heap.  Deleting a pointer that is not live is a
    [Fault]. *)
Fixpoint destroy_tree {V} (js : list nat) (tree_data : list loc)
    (h : gmap nat V) : gmap nat V * res () :=
  match js with
  | [] => (h, Ret ())
  | j :: js' =>
      match tree_data !! j with
      | Some p =>
          match h !! p with
          | Some _ => destroy_tree js' tree_data (delete p h)
          | None => (h, Fault)
          end
      | None => (h, Fault)
      end
  end.

(** The outer loop of [~HashMap] over [i]. *)
Fixpoint destroy_entries {V} (idxs : list nat) (es : list (AVLTree loc))
    (h : gmap nat V) : gmap nat V * res () :=
  match idxs with
  | [] => (h, Ret ())
  | i :: idxs' =>
      match es !! i with
      | Some t =>
          let tree_size := getSize t in
          let tree_data := inOrderExtractData t in
          let '(h', r) :=
            destroy_tree (seq 0 (Z.to_nat tree_size)) tree_data h in
          match r with
          | Ret _ => destroy_entries idxs' es h'
          | _ => (h', r)
          end
      | None => (h, Fault)
      end
  end.

(** [~HashMap()]: the payload heap after the destructor and its
    outcome. *)
Definition HashMap_destroy {V} (m : HashMap V) : gmap nat V * res () :=
  destroy_entries (seq 0 (Z.to_nat (_size m))) (entries m) (heap m).

(** * Invariants

    The predicates the proofs below maintain.  None of them is stored by
    the program. *)

(** In-order keys of a subtree. *)
Definition keys {T} (n : Node T) : list Z := (inorder n).*1.

(** A cached height is [0] for a NULL child and positive otherwise: the
    setters establish it and nothing else writes the fields. *)
Definition cached_ok {T} (son : Node T) (h : Z) : Prop :=
  match son with
  | NULL => h = 0
  | Nd _ _ _ _ _ _ => 1 ≤ h
  end.

Fixpoint hpos {T} (n : Node T) : Prop :=
  match n with
  | NULL => True
  | Nd l _ _ r lh rh => hpos l ∧ hpos r ∧ cached_ok l lh ∧ cached_ok r rh
  end.

(** Strictly ascending keys. *)
Definition ascending (l : list Z) : Prop := StronglySorted Z.lt l.

(** Removal of a key from an in-order list. *)
Definition del {T} (key : Z) (l : list (Z * T)) : list (Z * T) :=
  filter (λ p, p.1 ≠ key) l.

(** A tree whose keys ascend in order, whose cached heights tell NULL
    from non-NULL children, and whose [size] counts its nodes. *)
Definition tree_ok {T} (t : AVLTree T) : Prop :=
  ascending (keys (root t)) ∧ hpos (root t) ∧
  size t = Z.of_nat (length (inorder (root t))).

(** Shape of [createBlankTree(h)]: every level is complete. *)
Fixpoint perfect {T} (h : nat) (n : Node T) : Prop :=
  match h, n with
  | O, NULL => True
  | S h', Nd l _ _ r _ _ => perfect h' l ∧ perfect h' r
  | _, _ => False
  end.

(** The (key, pointer) pairs of a bucket array. *)
Definition all_pairs (es : list (AVLTree loc)) : list (Z * loc) :=
  concat ((λ t, inorder (root t)) <$> es).

(** Every bucket is a well-formed tree that holds only keys hashing to
    its index. *)
Definition buckets_ok (sz : Z) (es : list (AVLTree loc)) : Prop :=
  0 < sz ∧ length es = Z.to_nat sz ∧
  ∀ i t, es !! i = Some t →
    tree_ok t ∧
    Forall (λ kp, hashFunction kp.1 sz = Z.of_nat i) (inorder (root t)).

(** A map whose buckets are well formed, whose keys and payload pointers
    are pairwise distinct, whose [_count] counts its pairs and whose
    payload pointers are live. *)
Definition map_wf {V} (m : HashMap V) : Prop :=
  buckets_ok (_size m) (entries m) ∧
  NoDup (pairs m).*1 ∧
  _count m = Z.of_nat (length (pairs m)) ∧
  NoDup (pairs m).*2 ∧
  Forall (λ p, is_Some (heap m !! p)) (pairs m).*2.

(** The capacity is the initial one doubled some number of times; at a
    larger capacity the load factor is strictly between the thresholds,
    at the initial one it is below the upper threshold. *)
Definition load_ok {V} (m : HashMap V) : Prop :=
  (∃ n : nat, _size m = HASH_INITIAL_SIZE * 2 ^ Z.of_nat n) ∧
  (_size m = HASH_INITIAL_SIZE → 4 * _count m < 3 * _size m) ∧
  (_size m ≠ HASH_INITIAL_SIZE → _size m < 4 * _count m < 3 * _size m).

Definition map_ok {V} (m : HashMap V) : Prop := map_wf m ∧ load_ok m.

(** Cached heights exact and every node balanced, as one predicate. *)
Fixpoint avl {T} (n : Node T) : Prop :=
  match n with
  | NULL => True
  | Nd l _ _ r lh rh =>
      avl l ∧ avl r ∧ lh = height l ∧ rh = height r ∧ -1 ≤ lh - rh ≤ 1
  end.

(** The payload heap holds exactly the cells the buckets point to. *)
Definition heap_owned {V} (m : HashMap V) : Prop :=
  ∀ p, is_Some (heap m !! p) ↔ p ∈ (pairs m).*2.

(** The heap after the cells [ps] are released, in order. *)
Definition remove_all {V} (ps : list loc) (h : gmap nat V) : gmap nat V :=
  foldl (λ h p, delete p h) h ps.

(** * Properties *)

(** ** Scenarios

    The rotations on 10, 20, 30 (one RR rotation) and on 30, 10, 20 (one
    LR rotation) end in the same shape with all balance factors 0; a
    map of capacity 10 grows to 20 on its eighth insertion and answers
    for all eight keys; deleting down from there halves the capacity
    once and then stays at 10. *)

Example insert_10_20_30 :
  root (run (inserts [10; 20; 30]) AVLTree_new)
  = Nd (newNode 10 ()) 20 () (newNode 30 ()) 1 1.
Proof. reflexivity. Qed.

Example insert_30_10_20 :
  root (run (inserts [30; 10; 20]) AVLTree_new)
  = Nd (newNode 10 ()) 20 () (newNode 30 ()) 1 1.
Proof. reflexivity. Qed.

Example map_eight_inserts :
  let m := mrun ((λ k, MapInsert k (k * 100)) <$> [1; 2; 3; 4; 5; 6; 7; 8])
                HashMap_new in
  _size m = 20 ∧ _count m = 8 ∧
  (λ k, HashMap_Find k m) <$> [1; 2; 3; 4; 5; 6; 7; 8]
  = (λ k, Ret (k * 100)) <$> [1; 2; 3; 4; 5; 6; 7; 8].
Proof. by vm_compute. Qed.

Example map_delete_down :
  let m := mrun (((λ k, MapInsert k (k * 100)) <$> [1; 2; 3; 4; 5; 6; 7; 8])
                 ++ (MapDelete <$> [1; 2; 3; 4; 5; 6]))
                HashMap_new in
  _size m = 10 ∧ _count m = 2 ∧ (pairs m).*1 ≡ₚ [7; 8].
Proof. vm_compute. by split_and!. Qed.

(** ** Invariants of the nodes *)

Lemma cached_ok_nonneg {T} (son : Node T) h : cached_ok son h → 0 ≤ h.
Proof. destruct son; simpl; lia. Qed.

Lemma getHeight_cached_ok {T} (son : Node T) :
  hpos son → cached_ok son (getHeight son).
Proof.
  destruct son as [|l k d r lh rh]; simpl; [done|].
  intros (_ & _ & Hl%cached_ok_nonneg & Hr%cached_ok_nonneg). lia.
Qed.

Lemma keys_Nd {T} (l : Node T) k d r lh rh :
  keys (Nd l k d r lh rh) = keys l ++ k :: keys r.
Proof. unfold keys. simpl. by rewrite fmap_app. Qed.

Lemma inorderOutputAux_keys {T} (n : Node T) : inorderOutputAux n = keys n.
Proof.
  induction n as [|l IHl k d r IHr lh rh]; [done|].
  rewrite keys_Nd. simpl. by rewrite IHl, IHr.
Qed.

Lemma ascending_app_cons l1 k l2 :
  ascending (l1 ++ k :: l2) ↔
  ascending l1 ∧ ascending l2 ∧ Forall (λ x, x < k) l1 ∧ Forall (λ x, k < x) l2.
Proof.
  unfold ascending.
  rewrite StronglySorted_app, StronglySorted_cons, !Forall_forall.
  split.
  - intros (Hx & H1 & H2 & H3). repeat split; try done.
    intros x Hx1. apply (Hx x k); [done|]. by left.
  - intros (H1 & H2 & H3 & H4). repeat split; try done.
    intros x1 x2 Hx1 [->|Hx2]%elem_of_cons; [by apply H3|].
    specialize (H3 _ Hx1). specialize (H4 _ Hx2). lia.
Qed.

Lemma ascending_Nd {T} (l : Node T) k d r lh rh :
  ascending (keys (Nd l k d r lh rh)) ↔
  ascending (keys l) ∧ ascending (keys r) ∧
  Forall (λ x, x < k) (keys l) ∧ Forall (λ x, k < x) (keys r).
Proof. rewrite keys_Nd. apply ascending_app_cons. Qed.

(** ** Rotations *)

Lemma rotateLL_spec {T} (A_left : Node T) ak ad A_right alh arh bk bd B_right blh brh :
  let B := Nd (Nd A_left ak ad A_right alh arh) bk bd B_right blh brh in
  hpos B →
  ∃ A, rotateLL B = Ret A ∧ inorder A = inorder B ∧ hpos A ∧ A ≠ NULL.
Proof.
  intros B HB. eexists. split; [reflexivity|]. split; [|split; [|done]].
  - simpl. by rewrite <- app_assoc.
  - simpl in HB. destruct HB as ((? & ? & ? & ?) & ? & ? & ?).
    simpl. repeat split; auto using getHeight_cached_ok.
    apply cached_ok_nonneg in H5. 
    pose proof (getHeight_cached_ok A_right H0) as HH. apply cached_ok_nonneg in HH. lia.
Qed.

Lemma rotateRR_spec {T} (A_left : Node T) ak ad B_left bk bd B_right blh brh alh arh :
  let A := Nd A_left ak ad (Nd B_left bk bd B_right blh brh) alh arh in
  hpos A →
  ∃ B, rotateRR A = Ret B ∧ inorder B = inorder A ∧ hpos B ∧ B ≠ NULL.
Proof.
  intros A HA. eexists. split; [reflexivity|]. split; [|split; [|done]].
  - simpl. by rewrite <- app_assoc.
  - simpl in HA. destruct HA as (? & (? & ? & ? & ?) & ? & ?).
    simpl. repeat split; auto using getHeight_cached_ok.
    apply cached_ok_nonneg in H4. 
    pose proof (getHeight_cached_ok B_left H0) as HH. apply cached_ok_nonneg in HH. lia.
Qed.

Lemma rotate_spec {T} (n : Node T) :
  n ≠ NULL → hpos n →
  ∃ n' b, rotate n = Ret (n', b) ∧ inorder n' = inorder n ∧ hpos n' ∧ n' ≠ NULL.
Proof.
  destruct n as [|l k d r lh rh]; [done|]. intros _ Hn.
  unfold rotate. 
  destruct (getBalance _ =? UNBALANCED_FACTOR) eqn:E2.
  { apply Z.eqb_eq in E2. simpl in E2. unfold UNBALANCED_FACTOR in E2.
    destruct l as [|ll lk ld lr llh lrh].
    { simpl in Hn. destruct Hn as (_ & _ & -> & ?%cached_ok_nonneg). lia. }
    destruct (UNBALANCED_FACTOR_SON_ZERO <=? _) eqn:E3.
    { destruct (rotateLL_spec ll lk ld lr llh lrh k d r lh rh Hn) as (A & -> & ? & ? & ?).
      simpl. eauto 10. }
    destruct (getBalance _ =? UNBALANCED_FACTOR_SON_NEGATIVE) eqn:E4;
      [|simpl; eauto 10].
    apply Z.eqb_eq in E4. simpl in E4. unfold UNBALANCED_FACTOR_SON_NEGATIVE in E4.
    destruct lr as [|lrl lrk lrd lrr lrlh lrrh].
    { simpl in Hn. destruct Hn as ((_ & _ & ?%cached_ok_nonneg & ?) & _). lia. }
    unfold rotateLR.
    assert (Hl : hpos (Nd ll lk ld (Nd lrl lrk lrd lrr lrlh lrrh) llh lrh)) by (simpl in *; tauto).
    destruct (rotateRR_spec _ _ _ _ _ _ _ _ _ _ _ Hl) as (B & HB & HiB & HpB & HnB).
    rewrite HB. unfold mbind, res_bind. destruct B as [|bl bk' bd' br blh' brh']; [done|].
    edestruct (rotateLL_spec bl bk' bd' br blh' brh' k d r (getHeight (Nd bl bk' bd' br blh' brh')) rh) as (A & HA & HiA & HpA & HnA).
    { simpl. simpl in HpB, Hn. repeat split; try tauto.
      destruct HpB as (_ & _ & ?%cached_ok_nonneg & ?%cached_ok_nonneg). lia. }
    rewrite HA. eexists _, _. split; [done|].
    split; [|done]. rewrite HiA. simpl. simpl in HiB. by rewrite HiB. }
  destruct (getBalance _ =? UNBALANCED_FACTOR_NEGATIVE) eqn:E5; [|simpl; eauto 10].
  apply Z.eqb_eq in E5. simpl in E5. unfold UNBALANCED_FACTOR_NEGATIVE in E5.
  destruct r as [|rl rk rd rr rlh rrh].
  { simpl in Hn. destruct Hn as (_ & _ & ?%cached_ok_nonneg & ->). lia. }
  destruct (getBalance _ =? UNBALANCED_FACTOR_SON) eqn:E6.
  { apply Z.eqb_eq in E6. simpl in E6. unfold UNBALANCED_FACTOR_SON in E6.
    destruct rl as [|rll rlk rld rlr rllh rlrh].
    { simpl in Hn. destruct Hn as (_ & (_ & _ & ? & ?%cached_ok_nonneg) & _). simpl in *. lia. }
    unfold rotateRL.
    assert (Hr : hpos (Nd (Nd rll rlk rld rlr rllh rlrh) rk rd rr rlh rrh)) by (simpl in *; tauto).
    destruct (rotateLL_spec _ _ _ _ _ _ _ _ _ _ _ Hr) as (B & HB & HiB & HpB & HnB).
    rewrite HB. unfold mbind, res_bind. destruct B as [|bl bk' bd' br blh' brh']; [done|].
    edestruct (rotateRR_spec l k d bl bk' bd' br blh' brh' lh (getHeight (Nd bl bk' bd' br blh' brh'))) as (A & HA & HiA & HpA & HnA).
    { simpl. simpl in HpB, Hn. repeat split; try tauto.
      destruct HpB as (_ & _ & ?%cached_ok_nonneg & ?%cached_ok_nonneg). lia. }
    rewrite HA. eexists _, _. split; [done|].
    split; [|done]. rewrite HiA. simpl. simpl in HiB. by rewrite HiB. }
  destruct (getBalance _ <=? UNBALANCED_FACTOR_SON_ZERO) eqn:E7; [|simpl; eauto 10].
  destruct (rotateRR_spec l k d rl rk rd rr rlh rrh lh rh Hn) as (A & -> & ? & ? & ?).
  simpl. eauto 10.
Qed.

(** ** Find *)

Lemma ascending_NoDup l : ascending l → NoDup l.
Proof.
  induction 1 as [|x l Hl IH Hx]; constructor; [|done].
  intros Hin. rewrite Forall_forall in Hx. specialize (Hx _ Hin). lia.
Qed.

Lemma keys_unique_data {T} (l : list (Z * T)) k d1 d2 :
  NoDup l.*1 → (k, d1) ∈ l → (k, d2) ∈ l → d1 = d2.
Proof.
  induction l as [|[k' d'] l IH]; simpl; [by intros _ ?%elem_of_nil|].
  intros [Hk Hl]%NoDup_cons [E1|H1]%elem_of_cons [E2|H2]%elem_of_cons.
  - congruence.
  - inversion E1; subst. destruct Hk. apply list_elem_of_fmap. by exists (k', d2).
  - inversion E2; subst. destruct Hk. apply list_elem_of_fmap. by exists (k', d1).
  - by apply IH.
Qed.

Lemma elem_of_keys {T} (n : Node T) k :
  k ∈ keys n ↔ ∃ d, (k, d) ∈ inorder n.
Proof.
  unfold keys. rewrite list_elem_of_fmap. split.
  - intros ([k' d] & -> & H). by exists d.
  - intros (d & H). by exists (k, d).
Qed.

Lemma recursiveFind_None {T} (n : Node T) key :
  ascending (keys n) → recursiveFind n key = None ↔ key ∉ keys n.
Proof.
  induction n as [|l IHl k d r IHr lh rh]; simpl.
  { intros _. split; [intros _ H; by apply elem_of_nil in H|done]. }
  intros (Hl & Hr & Hlk & Hkr)%ascending_Nd.
  rewrite keys_Nd, elem_of_app, elem_of_cons.
  rewrite Forall_forall in Hlk, Hkr.
  destruct (key <? k) eqn:E1; [apply Z.ltb_lt in E1|apply Z.ltb_ge in E1].
  - rewrite fmap_None. destruct (IHl Hl) as [I1 I2]. split; [|intros; apply I2; tauto].
    intros Hn%I1 [H|[->|H]]; [done|lia|]. specialize (Hkr _ H). lia.
  - destruct (k <? key) eqn:E2; [apply Z.ltb_lt in E2|apply Z.ltb_ge in E2].
    + rewrite fmap_None. destruct (IHr Hr) as [I1 I2]. split; [|intros; apply I2; tauto].
      intros Hn%I1 [H|[->|H]]; [|lia|done]. specialize (Hlk _ H). lia.
    + split; [done|]. intros []. right; left. lia.
Qed.

Lemma recursiveFind_Some {T} (n : Node T) key p :
  recursiveFind n key = Some p →
  ∃ l d r lh rh, node_at p n = Nd l key d r lh rh ∧ (key, d) ∈ inorder n.
Proof.
  revert p. induction n as [|l IHl k d r IHr lh rh]; simpl; [done|]. intros p.
  destruct (key <? k) eqn:E1; [apply Z.ltb_lt in E1|apply Z.ltb_ge in E1].
  - intros (p' & Hp' & ->)%fmap_Some.
    destruct (IHl _ Hp') as (l' & d' & r' & lh' & rh' & Hn & Hin).
    simpl. exists l', d', r', lh', rh'. split; [done|]. apply elem_of_app. by left.
  - destruct (k <? key) eqn:E2; [apply Z.ltb_lt in E2|apply Z.ltb_ge in E2].
    + intros (p' & Hp' & ->)%fmap_Some.
      destruct (IHr _ Hp') as (l' & d' & r' & lh' & rh' & Hn & Hin).
      simpl. exists l', d', r', lh', rh'. split; [done|].
      apply elem_of_app. right. by right.
    + intros [= <-]. assert (k = key) as -> by lia. simpl.
      exists l, d, r, lh, rh. split; [done|]. apply elem_of_app. right. by left.
Qed.

(** ** Insertion below the root *)

Lemma Permutation_snoc_cons {A} (X : list A) a b : X ++ a :: [b] ≡ₚ b :: X ++ [a].
Proof.
  rewrite (Permutation_app_comm X), (Permutation_app_comm X [a]).
  apply Permutation_swap.
Qed.

Lemma not_elem_of_keys_Nd {T} (l : Node T) k d r lh rh key :
  (key ∉ keys (Nd l k d r lh rh)) ↔ (key ∉ keys l) ∧ key ≠ k ∧ (key ∉ keys r).
Proof. rewrite keys_Nd, elem_of_app, elem_of_cons. tauto. Qed.

Lemma rotate_finish {T} (N n : Node T) key data :
  hpos N → N ≠ NULL →
  inorder N ≡ₚ (key, data) :: inorder n →
  (ascending (keys n) → key ∉ keys n → ascending (keys N)) →
  ∃ n' b, rotate N = Ret (n', b) ∧ hpos n' ∧ n' ≠ NULL ∧
          inorder n' ≡ₚ (key, data) :: inorder n ∧
          (ascending (keys n) → key ∉ keys n → ascending (keys n')).
Proof.
  intros HN HNn HP HA.
  destruct (rotate_spec N HNn HN) as (n' & b & -> & Hi & Hp & Hn).
  exists n', b. unfold keys in *. rewrite Hi. done.
Qed.

Lemma keys_perm_Forall {T} (n n' : Node T) key data (P : Z → Prop) :
  inorder n' ≡ₚ (key, data) :: inorder n →
  P key → Forall P (keys n) → Forall P (keys n').
Proof.
  intros HP Hk Hn. unfold keys in *. rewrite HP. simpl. by constructor.
Qed.

Lemma recursiveInsert_spec {T} (n : Node T) key data :
  n ≠ NULL → hpos n →
  ∃ n' b, recursiveInsert n key data = Ret (n', b) ∧ hpos n' ∧ n' ≠ NULL ∧
          inorder n' ≡ₚ (key, data) :: inorder n ∧
          (ascending (keys n) → key ∉ keys n → ascending (keys n')).
Proof.
  induction n as [|l IHl k d r IHr lh rh]; [done|]. intros _ Hn.
  assert (Hnew : hpos (newNode key data)) by done.
  simpl in Hn. destruct Hn as (Hl & Hr & Hlh & Hrh).
  assert (Hside : ∀ x y : Z, (x <? y) = false → x ≠ y → y < x) by (intros; lia).
  simpl recursiveInsert.
  destruct l as [|ll lk ld lr llh lrh], r as [|rl rk rd rr rlh rrh].
  - (* leaf *)
    destruct (k <? key) eqn:E; apply rotate_finish; try done.
    + simpl. apply Permutation_swap.
    + apply Z.ltb_lt in E. intros _ _. apply (ascending_Nd NULL k d (newNode key data) lh 1).
      repeat split; repeat constructor; done.
    + intros _ (_ & Hk & _)%not_elem_of_keys_Nd.
      apply (ascending_Nd (newNode key data) k d NULL 1 rh).
      repeat split; repeat constructor. simpl. apply Hside; [done|lia].
  - (* only the right child *)
    destruct (key <? k) eqn:E.
    + apply rotate_finish; try done.
      intros Ha _. apply Z.ltb_lt in E. apply ascending_Nd in Ha as (_ & ? & _ & ?).
      apply (ascending_Nd (newNode key data) k d _ 1 rh).
      repeat split; repeat constructor; done.
    + destruct IHr as (r' & b & -> & Hpr & Hnr & HPr & Har); try done.
      unfold mbind, res_bind. apply rotate_finish.
      * simpl. auto using getHeight_cached_ok.
      * done.
      * simpl. simpl in HPr. rewrite HPr. apply Permutation_swap.
      * intros (_ & Har' & _ & Hkr)%ascending_Nd (_ & Hk & Hkr')%not_elem_of_keys_Nd.
        assert (k < key) by (apply Z.ltb_ge in E; lia).
        apply ascending_Nd. repeat split; [constructor| |constructor|].
        -- by apply Har.
        -- by apply (keys_perm_Forall _ _ _ _ _ HPr).
  - (* only the left child *)
    destruct (k <? key) eqn:E.
    + apply rotate_finish; try done.
      * simpl. apply Permutation_snoc_cons.
      * intros Ha _. apply Z.ltb_lt in E. apply ascending_Nd in Ha as (? & _ & ? & _).
        apply (ascending_Nd _ k d (newNode key data) lh 1).
        repeat split; repeat constructor; done.
    + destruct IHl as (l' & b & -> & Hpl & Hnl & HPl & Hal); try done.
      unfold mbind, res_bind. apply rotate_finish.
      * simpl. auto using getHeight_cached_ok.
      * done.
      * simpl. simpl in HPl. by rewrite HPl.
      * intros (Hal' & _ & Hlk & _)%ascending_Nd (Hkl' & Hk & _)%not_elem_of_keys_Nd.
        assert (key < k) by (apply Hside; [done|lia]).
        apply ascending_Nd. repeat split; [|constructor| |constructor].
        -- by apply Hal.
        -- by apply (keys_perm_Forall _ _ _ _ _ HPl).
  - (* full *)
    destruct (k <? key) eqn:E.
    + destruct IHr as (r' & b & -> & Hpr & Hnr & HPr & Har); try done.
      unfold mbind, res_bind. apply rotate_finish.
      * simpl. auto using getHeight_cached_ok.
      * done.
      * simpl. simpl in HPr. rewrite HPr.
        rewrite <- !Permutation_middle. apply Permutation_swap.
      * intros (Hal' & Har' & Hlk & Hkr)%ascending_Nd (_ & Hk & Hkr')%not_elem_of_keys_Nd.
        apply Z.ltb_lt in E.
        apply ascending_Nd. repeat split; try done.
        -- by apply Har.
        -- by apply (keys_perm_Forall _ _ _ _ _ HPr).
    + destruct IHl as (l' & b & -> & Hpl & Hnl & HPl & Hal); try done.
      unfold mbind, res_bind. apply rotate_finish.
      * simpl. split; [done|]. split; [done|].
        split; [|by apply (getHeight_cached_ok (Nd rl rk rd rr rlh rrh))].
        destruct b; [by apply getHeight_cached_ok|].
        destruct l'; [done|]. exact Hlh.
      * done.
      * simpl. simpl in HPl. by rewrite HPl.
      * intros (Hal' & Har' & Hlk & Hkr)%ascending_Nd (Hkl' & Hk & _)%not_elem_of_keys_Nd.
        assert (key < k) by (apply Hside; [done|lia]).
        apply ascending_Nd. repeat split; try done.
        -- by apply Hal.
        -- by apply (keys_perm_Forall _ _ _ _ _ HPl).
Qed.

(** ** Removal of a key from an in-order list *)

Lemma del_app {T} key (l1 l2 : list (Z * T)) :
  del key (l1 ++ l2) = del key l1 ++ del key l2.
Proof. apply filter_app. Qed.

Lemma del_cons_eq {T} key d (l : list (Z * T)) :
  del key ((key, d) :: l) = del key l.
Proof. unfold del. by rewrite filter_cons_False by (simpl; auto). Qed.

Lemma del_cons_ne {T} key k d (l : list (Z * T)) :
  k ≠ key → del key ((k, d) :: l) = (k, d) :: del key l.
Proof. intros. unfold del. by rewrite filter_cons_True. Qed.

Lemma del_id {T} key (l : list (Z * T)) :
  Forall (λ x, x ≠ key) l.*1 → del key l = l.
Proof.
  induction l as [|[k d] l IH]; [done|]. simpl.
  intros [Hk Hl]%Forall_cons. rewrite del_cons_ne by done. by rewrite IH.
Qed.

Lemma del_id_lt {T} key (l : list (Z * T)) k :
  Forall (λ x, x < k) l.*1 → k ≤ key → del key l = l.
Proof.
  intros H ?. apply del_id. eapply Forall_impl; [exact H|]. simpl. lia.
Qed.

Lemma del_id_gt {T} key (l : list (Z * T)) k :
  Forall (λ x, k < x) l.*1 → key ≤ k → del key l = l.
Proof.
  intros H ?. apply del_id. eapply Forall_impl; [exact H|]. simpl. lia.
Qed.

Lemma del_keys_sub {T} key (l : list (Z * T)) (P : Z → Prop) :
  Forall P l.*1 → Forall P (del key l).*1.
Proof.
  rewrite !Forall_fmap. intros H. unfold del.
  apply Forall_forall. intros x [_ Hx]%list_elem_of_filter.
  rewrite Forall_forall in H. by apply H.
Qed.

Lemma del_ascending {T} key (l : list (Z * T)) :
  ascending l.*1 → ascending (del key l).*1.
Proof.
  induction l as [|[k d] l IH]; [done|]. simpl.
  intros [Hk Hl]%StronglySorted_cons.
  destruct (decide (k = key)) as [->|Hne].
  - rewrite del_cons_eq. by apply IH.
  - rewrite del_cons_ne by done. simpl. apply StronglySorted_cons.
    split; [by apply del_keys_sub|by apply IH].
Qed.

Lemma del_length {T} key (l : list (Z * T)) :
  NoDup l.*1 → key ∈ l.*1 → length l = S (length (del key l)).
Proof.
  induction l as [|[k d] l IH]; simpl; [by intros _ ?%elem_of_nil|].
  intros [Hk Hl]%NoDup_cons Hin.
  destruct (decide (k = key)) as [->|Hne].
  - rewrite del_cons_eq, del_id; [done|].
    apply Forall_forall. intros x Hx ->. done.
  - rewrite del_cons_ne by done. simpl. f_equal. apply IH; [done|].
    apply elem_of_cons in Hin as [?|?]; [congruence|done].
Qed.

Lemma del_Permutation {T} key d (l : list (Z * T)) :
  NoDup l.*1 → (key, d) ∈ l → l ≡ₚ (key, d) :: del key l.
Proof.
  induction l as [|[k d'] l IH]; simpl; [by intros _ ?%elem_of_nil|].
  intros [Hk Hl]%NoDup_cons Hin.
  destruct (decide (k = key)) as [->|Hne].
  - rewrite del_cons_eq, del_id.
    + apply elem_of_cons in Hin as [[= ->]|Hin]; [done|].
      destruct Hk. apply list_elem_of_fmap. by exists (key, d).
    + apply Forall_forall. intros x Hx ->. done.
  - rewrite del_cons_ne by done.
    apply elem_of_cons in Hin as [?|?]; [congruence|].
    rewrite (IH Hl) at 1 by done. apply Permutation_swap.
Qed.

(** ** Deletion below the root *)

Lemma leftmost_spec {T} (rl : Node T) rk rd rr rlh rrh key data :
  let r := Nd rl rk rd rr rlh rrh in
  ∃ tl, inorder r = leftmost rl rk rd :: tl ∧
        inorder (set_leftmost r key data) = (key, data) :: tl ∧
        depth (set_leftmost r key data) = depth r ∧
        (hpos r → hpos (set_leftmost r key data)).
Proof.
  revert rk rd rr rlh rrh.
  induction rl as [|ll IHl lk ld lr _ llh lrh]; intros rk rd rr rlh rrh r.
  { exists (inorder rr). subst r. simpl. split; [done|]. split; [done|]. by split. }
  destruct (IHl lk ld lr llh lrh) as (tl & H1 & H2 & H3 & H4).
  subst r.
  change (set_leftmost (Nd (Nd ll lk ld lr llh lrh) rk rd rr rlh rrh) key data)
    with (Nd (set_leftmost (Nd ll lk ld lr llh lrh) key data) rk rd rr rlh rrh).
  change (leftmost (Nd ll lk ld lr llh lrh) rk rd) with (leftmost ll lk ld).
  set (L := Nd ll lk ld lr llh lrh) in *.
  assert (HL : L ≠ NULL) by done. clearbody L.
  exists (tl ++ (rk, rd) :: inorder rr). simpl. rewrite H1, H2, H3.
  split; [done|]. split; [done|]. split; [done|].
  intros (? & ? & ? & ?). repeat split; auto.
  destruct L; [done|].
  destruct (set_leftmost _ _ _) eqn:E; [discriminate H2|done].
Qed.

Lemma hpos_Nd {T} (l : Node T) k d r lh rh :
  hpos l → hpos r → cached_ok l lh → cached_ok r rh → hpos (Nd l k d r lh rh).
Proof. simpl. tauto. Qed.

Lemma rotate_finish_del {T} (N : Node T) :
  hpos N → N ≠ NULL →
  ∃ n', fst <$> rotate N = Ret n' ∧ hpos n' ∧ inorder n' = inorder N.
Proof.
  intros HN HNn.
  destruct (rotate_spec N HNn HN) as (n' & b & -> & Hi & Hp & Hn).
  by exists n'.
Qed.

Lemma recursiveDelete_spec {T} fuel (n : Node T) key :
  (depth n ≤ fuel)%nat → ascending (keys n) → hpos n → key ∈ keys n →
  ∃ n', recursiveDelete fuel n key = Ret n' ∧ hpos n' ∧
        inorder n' = del key (inorder n).
Proof.
  revert n. induction fuel as [|fuel IH]; intros [|l k d r lh rh]; simpl depth.
  1,3: by intros _ _ _ ?%elem_of_nil.
  { lia. }
  intros Hd (Hal & Har & Hlk & Hkr)%ascending_Nd (Hl & Hr & Hlh & Hrh) Hin.
  simpl recursiveDelete. cbn [inorder].
  rewrite del_app.
  destruct (k =? key) eqn:E; [apply Z.eqb_eq in E as ->|apply Z.eqb_neq in E].
  - rewrite del_cons_eq.
    rewrite (del_id_lt key (inorder l) key). 2: exact Hlk. 2: lia.
    rewrite (del_id_gt key (inorder r) key). 2: exact Hkr. 2: lia.
    destruct l as [|ll lk ld lr llh lrh], r as [|rl rk rd rr rlh rrh].
    + by exists NULL.
    + eexists; split; [done|]. by split.
    + eexists; split; [done|]. split; [done|]. simpl. by rewrite app_nil_r.
    + destruct (leftmost_spec rl rk rd rr rlh rrh key d)
        as (tl & H1 & H2 & H3 & H4).
      destruct (leftmost rl rk rd) as [sk sd].
      rewrite H1. unfold keys in Har, Hkr. rewrite H1 in Har, Hkr. simpl in Har, Hkr.
      apply StronglySorted_cons in Har as [Hsk Htl].
      apply Forall_cons in Hkr as [Hksk Hktl].
      destruct (IH (set_leftmost (Nd rl rk rd rr rlh rrh) key d)) as (r' & -> & Hpr & Hir).
      * rewrite H3. lia.
      * unfold keys. rewrite H2. simpl. apply StronglySorted_cons. done.
      * by apply H4.
      * unfold keys. rewrite H2. simpl. by left.
      * unfold mbind, res_bind.
        destruct (rotate_finish_del (Nd (Nd ll lk ld lr llh lrh) sk sd r' lh (getHeight r')))
          as (n' & -> & Hpn & Hin'); [|done|].
        { apply hpos_Nd; auto using getHeight_cached_ok. }
        exists n'. split; [done|]. split; [done|].
        rewrite Hin'. cbn [inorder]. rewrite Hir, H2, del_cons_eq.
        by rewrite (del_id_gt key tl key) by (done || lia).
  - rewrite del_cons_ne by done.
    rewrite keys_Nd, elem_of_app, elem_of_cons in Hin.
    rewrite Forall_forall in Hlk, Hkr.
    destruct (k <? key) eqn:E2; [apply Z.ltb_lt in E2|apply Z.ltb_ge in E2].
    + assert (Hinr : key ∈ keys r).
      { destruct Hin as [H|[?|?]]; [|lia|done]. specialize (Hlk _ H). lia. }
      destruct (IH r) as (r' & -> & Hpr & Hir); try done; [lia|].
      unfold mbind, res_bind.
      destruct (rotate_finish_del (Nd l k d r' lh (getHeight r')))
        as (n' & -> & Hpn & Hin'); [|done|].
      { apply hpos_Nd; auto using getHeight_cached_ok. }
      exists n'. split; [done|]. split; [done|].
      rewrite Hin'. cbn [inorder]. rewrite Hir.
      rewrite (del_id_lt key (inorder l) k); [done| |lia].
      by apply Forall_forall.
    + assert (Hinl : key ∈ keys l).
      { destruct Hin as [H|[?|H]]; [done|lia|]. specialize (Hkr _ H). lia. }
      destruct (IH l) as (l' & -> & Hpl & Hil); try done; [lia|].
      unfold mbind, res_bind.
      destruct (rotate_finish_del (Nd l' k d r (getHeight l') rh))
        as (n' & -> & Hpn & Hin'); [|done|].
      { apply hpos_Nd; auto using getHeight_cached_ok. }
      exists n'. split; [done|]. split; [done|].
      rewrite Hin'. cbn [inorder]. rewrite Hil.
      rewrite (del_id_gt key (inorder r) k); [done| |lia].
      by apply Forall_forall.
Qed.

(** ** The tree invariant and the public mutations *)

Lemma inorder_nil {T} (n : Node T) : inorder n = [] → n = NULL.
Proof.
  destruct n as [|l k d r lh rh]; [done|]. simpl.
  intros H. by apply app_nil in H as [_ ?].
Qed.

Lemma tree_ok_new {T} : tree_ok (@AVLTree_new T).
Proof. repeat split. constructor. Qed.

Lemma tree_ok_Empty {T} (t : AVLTree T) :
  tree_ok t → Empty t = true → root t = NULL ∧ size t = 0.
Proof.
  intros (_ & _ & Hs). unfold Empty, getSize. destruct (root t) eqn:E.
  - by rewrite Hs.
  - intros H%Z.eqb_eq. rewrite H in Hs. simpl in Hs.
    rewrite length_app in Hs. simpl in Hs. lia.
Qed.

Lemma Find_found {T} (t : AVLTree T) key :
  tree_ok t → key ∈ keys (root t) → ∃ it, Find key t = Ret it.
Proof.
  intros (Ha & _) Hin. unfold Find.
  destruct (recursiveFind (root t) key) eqn:E; [by eexists|].
  by apply recursiveFind_None in E.
Qed.

Lemma Find_absent {T} (t : AVLTree T) key :
  tree_ok t → key ∉ keys (root t) →
  Find key t = Throw AVLTreeKeyNotFoundException.
Proof.
  intros (Ha & _) Hin. unfold Find.
  by apply (recursiveFind_None _ _ Ha) in Hin as ->.
Qed.

Lemma Insert_present {T} (t : AVLTree T) key data :
  tree_ok t → key ∈ keys (root t) →
  Insert key data t = (t, Throw AVLTreeKeyAlreadyExistsException).
Proof.
  intros Hok Hin. unfold Insert.
  destruct (Empty t) eqn:E.
  { apply tree_ok_Empty in E as [E _]; [|done]. rewrite E in Hin.
    by apply elem_of_nil in Hin. }
  by destruct (Find_found t key Hok Hin) as (it & ->).
Qed.

Lemma Insert_absent {T} (t : AVLTree T) key data :
  tree_ok t → key ∉ keys (root t) →
  ∃ t', Insert key data t = (t', Ret ()) ∧ tree_ok t' ∧
        inorder (root t') ≡ₚ (key, data) :: inorder (root t).
Proof.
  intros Hok Hin. unfold Insert.
  destruct (Empty t) eqn:E.
  { apply tree_ok_Empty in E as [E Es]; [|done].
    eexists. split; [done|]. rewrite E, Es. split; [|done].
    repeat split. simpl. repeat constructor. }
  rewrite (Find_absent t key Hok Hin).
  destruct Hok as (Ha & Hp & Hs).
  assert (Hr : root t ≠ NULL).
  { unfold Empty in E. by destruct (root t). }
  destruct (recursiveInsert_spec (root t) key data Hr Hp)
    as (n' & b & -> & Hp' & Hn' & HP & Ha').
  eexists. split; [done|]. split; [|done]. split; [by apply Ha'|].
  split; [done|]. simpl. rewrite HP. simpl. lia.
Qed.

Lemma Delete_absent {T} (t : AVLTree T) key :
  tree_ok t → key ∉ keys (root t) →
  Delete key t = (t, Throw AVLTreeKeyNotFoundException).
Proof.
  intros Hok Hin. unfold Delete. by rewrite (Find_absent t key Hok Hin).
Qed.

Lemma Delete_present {T} (t : AVLTree T) key :
  tree_ok t → key ∈ keys (root t) →
  ∃ t', Delete key t = (t', Ret ()) ∧ tree_ok t' ∧
        inorder (root t') = del key (inorder (root t)).
Proof.
  intros Hok Hin. unfold Delete.
  destruct (Find_found t key Hok Hin) as (it & ->).
  destruct Hok as (Ha & Hp & Hs).
  destruct (recursiveDelete_spec (S (depth (root t))) (root t) key)
    as (n' & -> & Hp' & Hi); [lia|done..|].
  pose proof (del_length key (inorder (root t)) (ascending_NoDup _ Ha) Hin) as Hlen.
  eexists. split; [done|].
  destruct (size t - 1 =? 0) eqn:E; simpl.
  - apply Z.eqb_eq in E.
    assert (del key (inorder (root t)) = []) as Hnil.
    { apply length_zero_iff_nil. lia. }
    rewrite Hnil. split; [|done]. repeat split; [constructor|simpl; lia].
  - split; [|done]. split; [|split; [done|]].
    + unfold keys. simpl. rewrite Hi. by apply del_ascending.
    + simpl. rewrite Hi. lia.
Qed.

Lemma step_ok {T} (t : AVLTree T) (o : op T) :
  tree_ok t →
  tree_ok (step t o).1 ∧
  ((step t o).2 = Ret () ∨
   (step t o).1 = t ∧
   ((step t o).2 = Throw AVLTreeKeyAlreadyExistsException ∨
    (step t o).2 = Throw AVLTreeKeyNotFoundException)).
Proof.
  intros Hok. destruct o as [key data|key]; simpl.
  - destruct (decide (key ∈ keys (root t))) as [Hin|Hin].
    + rewrite (Insert_present t key data Hok Hin). simpl. auto.
    + destruct (Insert_absent t key data Hok Hin) as (t' & -> & ? & _). auto.
  - destruct (decide (key ∈ keys (root t))) as [Hin|Hin].
    + destruct (Delete_present t key Hok Hin) as (t' & -> & ? & _). auto.
    + rewrite (Delete_absent t key Hok Hin). simpl. auto.
Qed.

Lemma run_ok {T} (ops : list (op T)) (t : AVLTree T) :
  tree_ok t → tree_ok (run ops t).
Proof.
  revert t. induction ops as [|o ops IH]; intros t Hok; [done|].
  simpl. apply IH. by apply step_ok.
Qed.

(** C3.  After every sequence of insertions and deletions on an empty
    tree the in-order key traversal is strictly ascending and [getSize]
    is its length; the next operation returns or throws one of the two
    key exceptions and leaves a tree with the same properties. *)
Theorem inorder_ascending_and_size {T} (ops : list (op T)) :
  let t := run ops AVLTree_new in
  StronglySorted Z.lt (inorderOutputAux (root t)) ∧
  getSize t = Z.of_nat (length (inorderOutputAux (root t))) ∧
  ∀ o, (step t o).2 = Ret () ∨
       (step t o).2 = Throw AVLTreeKeyAlreadyExistsException ∨
       (step t o).2 = Throw AVLTreeKeyNotFoundException.
Proof.
  intros t. pose proof (run_ok ops _ (@tree_ok_new T)) as Hok.
  fold t in Hok. rewrite inorderOutputAux_keys.
  destruct Hok as (Ha & Hp & Hs). split; [done|]. split.
  - unfold getSize, keys. by rewrite length_fmap.
  - intros o. destruct (step_ok t o) as [_ [?|[_ [?|?]]]]; auto.
    by repeat split.
Qed.

Lemma inorder_ascending_and_size_witness :
  let t := run [OpInsert 2 (); OpInsert 1 (); OpDelete 2; OpInsert 3 ()]
               AVLTree_new in
  StronglySorted Z.lt (inorderOutputAux (root t)) ∧
  getSize t = Z.of_nat (length (inorderOutputAux (root t))) ∧
  ∀ o, (step t o).2 = Ret () ∨
       (step t o).2 = Throw AVLTreeKeyAlreadyExistsException ∨
       (step t o).2 = Throw AVLTreeKeyNotFoundException.
Proof.
  exact (inorder_ascending_and_size
           [OpInsert 2 (); OpInsert 1 (); OpDelete 2; OpInsert 3 ()]).
Defined.

(** C1.  Six insertions leave the root with a left subtree of true
    height 3 and a right subtree of true height 1, while [isBalanced],
    which reads the cached heights, still answers true. *)
Theorem insert_left_of_full_node_unbalanced :
  let t := run (inserts [20; 10; 30; 5; 15; 3]) AVLTree_new in
  balanced (root t) = false ∧
  isBalanced t = true ∧
  ∃ l k d r lh rh, root t = Nd l k d r lh rh ∧ height l = 3 ∧ height r = 1.
Proof.
  split; [by vm_compute|]. split; [by vm_compute|].
  vm_compute. by eexists _, _, _, _, _, _.
Qed.

(** C2.  After the insertions 2, 1, 3, 0 the root, which was full when
    the walk for 0 went through its left side, still caches left height
    1 over a left subtree of true height 2. *)
Theorem insert_left_of_full_node_stale_height :
  let t := run (inserts [2; 1; 3; 0]) AVLTree_new in
  heights_exact (root t) = false ∧
  ∃ l k d r rh, root t = Nd l k d r 1 rh ∧ height l = 2.
Proof.
  split; [by vm_compute|]. vm_compute. by eexists _, _, _, _, _.
Qed.

(** ** Bulk rebuild *)

Lemma nodes_length {T} (n : Node T) : nodes n = Z.of_nat (length (inorder n)).
Proof.
  induction n as [|l IHl k d r IHr lh rh]; [done|]. simpl.
  rewrite length_app. simpl. lia.
Qed.

Lemma recursiveDestruct_spec {T} (n : Node T) size :
  recursiveDestruct n size = size - nodes n.
Proof.
  revert size. induction n as [|l IHl k d r IHr lh rh]; intros size; simpl.
  - lia.
  - rewrite IHr, IHl. lia.
Qed.

Lemma perfect_height {T} h (n : Node T) : perfect h n → height n = Z.of_nat h.
Proof.
  revert n. induction h as [|h IH]; intros [|l k d r lh rh]; simpl; try done.
  intros [Hl Hr]. rewrite (IH _ Hl), (IH _ Hr). lia.
Qed.

Lemma perfect_nodes {T} h (n : Node T) :
  perfect h n → nodes n = 2 ^ Z.of_nat h - 1.
Proof.
  revert n. induction h as [|h IH]; intros [|l k d r lh rh]; simpl nodes;
    simpl perfect; try done.
  intros [Hl Hr]. rewrite (IH _ Hl), (IH _ Hr).
  rewrite Nat2Z.inj_succ, Z.pow_succ_r by lia. lia.
Qed.

Lemma createBlankTree_spec {T} bk (bd : T) h size :
  ∃ n, createBlankTree bk bd h size = (n, size + 2 ^ Z.of_nat h - 1) ∧
       perfect h n.
Proof.
  revert size. induction h as [|h IH]; intros size.
  { exists NULL. split; [|done]. simpl. f_equal. lia. }
  simpl createBlankTree.
  destruct (IH size) as (l & -> & Hl).
  destruct (IH (size + 2 ^ Z.of_nat h - 1)) as (r & -> & Hr).
  exists (Nd l bk bd r (getHeight l) (getHeight r)). split; [|by split].
  f_equal. rewrite Nat2Z.inj_succ, Z.pow_succ_r by lia. lia.
Qed.

(** The loop of [getTreeHeightByNodesCount] ends within its budget, at
    the least height whose complete tree has [count] nodes or more. *)
Lemma height_loop_spec fuel count j :
  0 ≤ count → 0 ≤ j →
  (∀ j', 0 ≤ j' < j → 2 ^ j' - 1 < count) →
  count < j + Z.of_nat fuel →
  ∃ h, height_loop fuel count j = Ret h ∧ j ≤ h ∧ count ≤ 2 ^ h - 1 ∧
       ∀ j', 0 ≤ j' < h → 2 ^ j' - 1 < count.
Proof.
  revert j. induction fuel as [|fuel IH]; intros j Hc Hj Hinv Hfuel.
  { exfalso. destruct (decide (j = 0)) as [->|]; [lia|].
    specialize (Hinv (j - 1)).
    pose proof (Z.pow_gt_lin_r 2 (j - 1)). lia. }
  simpl. unfold POWER_TWO.
  destruct (2 ^ j - 1 <? count) eqn:E;
    [apply Z.ltb_lt in E|apply Z.ltb_ge in E].
  - destruct (IH (j + 1)) as (h & -> & ? & ? & ?); try lia.
    + intros j' Hj'. destruct (decide (j' = j)) as [->|]; [done|].
      apply Hinv. lia.
    + exists h. repeat split; try done; lia.
  - exists j. repeat split; try done; lia.
Qed.

Lemma getTreeHeightByNodesCount_spec count :
  0 ≤ count →
  ∃ h, getTreeHeightByNodesCount count = Ret h ∧ 0 ≤ h ∧
       count ≤ 2 ^ h - 1 ∧ ∀ j', 0 ≤ j' < h → 2 ^ j' - 1 < count.
Proof.
  intros Hc. unfold getTreeHeightByNodesCount.
  destruct (count <? 0) eqn:E; [apply Z.ltb_lt in E; lia|].
  apply height_loop_spec; try lia.
Qed.

Lemma trimTreeInOrder_done {T} (n : Node T) size cur :
  trimTreeInOrder n size cur cur = (n, size, cur).
Proof. destruct n; simpl; by rewrite Z.eqb_refl. Qed.

Lemma trimTreeInOrder_Nd {T} (l : Node T) k d r lh rh size cur req :
  cur ≠ req →
  trimTreeInOrder (Nd l k d r lh rh) size cur req =
  let '(l', size1, cur1) := trimTreeInOrder l size cur req in
  if isLeaf (Nd l' k d r lh rh) then (NULL, size1 - 1, cur1 - 1)
  else
    let '(r', size2, cur2) := trimTreeInOrder r size1 cur1 req in
    (Nd l' k d r' (getHeight l') (getHeight r'), size2, cur2).
Proof. intros H%Z.eqb_neq. simpl. by rewrite H. Qed.

(** Trimming a complete tree of height [S h] that is [e] nodes too large
    removes [min e (2^h)] nodes, all of them from the last level; the
    height drops only when the whole last level goes. *)
Lemma trimTreeInOrder_spec {T} h (n : Node T) size cur req :
  perfect (S h) n → req ≤ cur →
  let m := Z.min (cur - req) (2 ^ Z.of_nat h) in
  ∃ n', trimTreeInOrder n size cur req = (n', size - m, cur - m) ∧
        nodes n' = nodes n - m ∧
        height n' = Z.of_nat (S h) - (if m =? 2 ^ Z.of_nat h then 1 else 0).
Proof.
  revert n size cur. induction h as [|h IH]; intros n size cur Hn Hle m.
  - destruct n as [|[|] k d [|] lh rh]; try (simpl in Hn; tauto).
    change (2 ^ Z.of_nat 0) with 1 in *.
    destruct (decide (cur = req)) as [->|Hne].
    + rewrite trimTreeInOrder_done. exists (Nd NULL k d NULL lh rh).
      subst m. rewrite Z.sub_diag. simpl.
      split; [f_equal; [f_equal|]; lia|]. done.
    + rewrite trimTreeInOrder_Nd by done. simpl.
      destruct (cur =? req) eqn:E; [apply Z.eqb_eq in E; lia|].
      exists NULL. assert (m = 1) as -> by lia. done.
  - destruct n as [|l k d r lh rh]; [done|]. destruct Hn as [Hl Hr].
    assert (Hpow : 2 ^ Z.of_nat (S h) = 2 * 2 ^ Z.of_nat h).
    { rewrite Nat2Z.inj_succ, Z.pow_succ_r by lia. done. }
    assert (0 < 2 ^ Z.of_nat h) by (apply Z.pow_pos_nonneg; lia).
    destruct (decide (cur = req)) as [->|Hne].
    + rewrite trimTreeInOrder_done. exists (Nd l k d r lh rh).
      subst m. rewrite Z.sub_diag.
      assert (Z.min 0 (2 ^ Z.of_nat (S h)) = 0) as -> by lia.
      split; [f_equal; [f_equal|]; lia|]. split; [lia|].
      destruct (0 =? _) eqn:E; [apply Z.eqb_eq in E; lia|].
      simpl height. rewrite (perfect_height _ _ Hl), (perfect_height _ _ Hr). lia.
    + rewrite trimTreeInOrder_Nd by done.
      destruct (IH l size cur Hl Hle) as (l' & -> & Hnl & Hhl).
      set (m1 := Z.min (cur - req) (2 ^ Z.of_nat h)) in *.
      assert (isLeaf (Nd l' k d r lh rh) = false) as ->.
      { destruct r; [done|]. by destruct l'. }
      destruct (IH r (size - m1) (cur - m1) Hr) as (r' & -> & Hnr & Hhr); [lia|].
      set (m2 := Z.min (cur - m1 - req) (2 ^ Z.of_nat h)) in *.
      assert (Hm : m = m1 + m2) by lia.
      eexists. split; [f_equal; [f_equal|]; lia|].
      simpl nodes. split; [lia|].
      simpl height. rewrite Hhl, Hhr, Hpow.
      destruct (m1 =? _) eqn:E1, (m2 =? _) eqn:E2, (m =? _) eqn:E3;
        rewrite ?Z.eqb_eq, ?Z.eqb_neq in *; lia.
Qed.

(** Filling stamps the pairs from position [index] on into the nodes in
    order and leaves the shape alone. *)
Lemma fillTreeInOrder_spec {T} (n : Node T) data keys i :
  (i + length (inorder n) ≤ length (zip keys data))%nat →
  ∃ n', fillTreeInOrder n data keys i = Ret (n', (i + length (inorder n))%nat) ∧
        inorder n' = take (length (inorder n)) (drop i (zip keys data)) ∧
        height n' = height n.
Proof.
  revert i. induction n as [|l IHl k d r IHr lh rh]; intros i Hlen.
  { exists NULL. simpl. by rewrite Nat.add_0_r. }
  simpl in Hlen. rewrite length_app in Hlen. simpl in Hlen.
  simpl fillTreeInOrder.
  destruct (IHl i) as (l' & -> & Hil & Hhl); [lia|].
  unfold mbind, res_bind.
  set (i1 := (i + length (inorder l))%nat) in *.
  destruct (lookup_lt_is_Some_2 (zip keys data) i1) as [[k' d'] Hkd]; [lia|].
  pose proof Hkd as (? & ? & [= <- <-] & Hk & Hd)%lookup_zip_with_Some.
  rewrite Hd, Hk.
  destruct (IHr (S i1)) as (r' & -> & Hir & Hhr); [lia|].
  eexists. split; [|split].
  - do 2 f_equal. simpl. rewrite length_app. simpl. lia.
  - simpl. rewrite Hil, Hir, length_app. simpl.
    rewrite <- take_take_drop. f_equal.
    rewrite drop_drop. fold i1. by rewrite (drop_S _ _ _ Hkd).
  - simpl. by rewrite Hhl, Hhr.
Qed.

Lemma take_zip_take {A B} n (ks : list A) (ds : list B) :
  take n (zip ks (take n ds)) = take n (zip ks ds).
Proof.
  revert ks ds. induction n as [|n IH]; intros [|k ks] [|d ds]; simpl; try done.
  by rewrite IH.
Qed.

(** X22.  For [count > 0] and buffers of at least [count] entries,
    [generateInOrder] on a tree whose [size] counts its nodes returns,
    the in-order traversal of the tree is then the first [count] (key,
    data) pairs in order and [getSize] is [count].  When the live count
    differed from [count] the tree was rebuilt and its height is the
    least [h] with [2^h - 1 >= count]. *)
Theorem generateInOrder_rebuild {T} bk (bd : T) (t : AVLTree T)
    (data : list T) (keys : list Z) (count : Z) :
  0 < count →
  (Z.to_nat count ≤ length data)%nat →
  (Z.to_nat count ≤ length keys)%nat →
  size t = Z.of_nat (length (inorder (root t))) →
  ∃ t', generateInOrder bk bd (Some data) (Some keys) count t = (t', Ret ()) ∧
        inorder (root t') = take (Z.to_nat count) (zip keys data) ∧
        getSize t' = count ∧
        (size t ≠ count →
           count ≤ 2 ^ height (root t') - 1 ∧
           ∀ h', 0 ≤ h' → count ≤ 2 ^ h' - 1 → height (root t') ≤ h').
Proof.
  intros Hc Hd Hk Hs. unfold generateInOrder.
  destruct (count <? 0) eqn:E1; [apply Z.ltb_lt in E1; lia|].
  destruct (count =? 0) eqn:E2; [apply Z.eqb_eq in E2; lia|].
  destruct (Z.to_nat count <=? length data)%nat eqn:E3;
    [|apply Nat.leb_gt in E3; lia].
  simpl negb. cbv iota.
  assert (Hzip : length (zip keys (take (Z.to_nat count) data)) = Z.to_nat count).
  { rewrite length_zip_with, length_take. lia. }
  destruct (size t =? count) eqn:E4;
    [apply Z.eqb_eq in E4|apply Z.eqb_neq in E4]; simpl negb; cbv iota.
  - destruct (fillTreeInOrder_spec (root t) (take (Z.to_nat count) data) keys 0)
      as (r' & -> & Hi & Hh); [lia|].
    eexists. split; [done|]. simpl.
    rewrite Hi, drop_0.
    replace (length (inorder (root t))) with (Z.to_nat count) by lia.
    rewrite take_zip_take. repeat split; try done.
  - destruct (getTreeHeightByNodesCount_spec count) as (h & -> & Hh0 & Hhc & Hmin);
      [lia|].
    unfold mbind, res_bind.
    assert (1 ≤ h).
    { destruct (decide (h = 0)) as [->|]; [simpl in Hhc|]; lia. }
    destruct (Z.to_nat h) as [|h0] eqn:Eh; [lia|].
    assert (Hh : h = Z.of_nat (S h0)) by lia.
    rewrite recursiveDestruct_spec.
    destruct (createBlankTree_spec bk bd (S h0) (size t - nodes (root t)))
      as (n & -> & Hn).
    unfold POWER_TWO.
    assert (Hpow : 2 ^ h = 2 * 2 ^ Z.of_nat h0).
    { rewrite Hh, Nat2Z.inj_succ, Z.pow_succ_r by lia. done. }
    assert (Hprev : 2 ^ Z.of_nat h0 - 1 < count) by (apply Hmin; lia).
    destruct (trimTreeInOrder_spec h0 n
                (size t - nodes (root t) + 2 ^ Z.of_nat (S h0) - 1)
                (2 ^ h - 1) count Hn Hhc) as (n' & -> & Hnn & Hnh).
    set (m := Z.min (2 ^ h - 1 - count) (2 ^ Z.of_nat h0)) in *.
    assert (Hm : m = 2 ^ h - 1 - count) by lia.
    rewrite (perfect_nodes _ _ Hn), <- Hh in Hnn.
    assert (Hlen : length (inorder n') = Z.to_nat count).
    { rewrite nodes_length in Hnn. lia. }
    destruct (fillTreeInOrder_spec n' (take (Z.to_nat count) data) keys 0)
      as (r' & -> & Hi & Hhr); [lia|].
    eexists. split; [done|]. simpl.
    rewrite Hi, drop_0, Hlen, take_zip_take.
    split; [done|]. split.
    { rewrite nodes_length, <- Hh. lia. }
    intros _. rewrite Hhr, Hnh.
    destruct (m =? 2 ^ Z.of_nat h0) eqn:E5; [apply Z.eqb_eq in E5; lia|].
    rewrite Z.sub_0_r, <- Hh. split; [done|].
    intros h' Hh' Hc'. destruct (decide (h' < h)) as [Hlt|]; [|lia].
    specialize (Hmin h'). lia.
Qed.

Lemma generateInOrder_rebuild_witness :
  let t := run (inserts [5; 9]) AVLTree_new in
  ∃ t', generateInOrder 0 () (Some [(); (); ()]) (Some [1; 2; 3]) 3 t
          = (t', Ret ()) ∧
        inorder (root t') = take 3 (zip [1; 2; 3] [(); (); ()]) ∧
        getSize t' = 3 ∧
        (size t ≠ 3 →
           3 ≤ 2 ^ height (root t') - 1 ∧
           ∀ h', 0 ≤ h' → 3 ≤ 2 ^ h' - 1 → height (root t') ≤ h').
Proof.
  intros t.
  apply (generateInOrder_rebuild 0 () t [(); (); ()] [1; 2; 3] 3);
    [lia | simpl; lia | simpl; lia | reflexivity].
Defined.

(** C4.  A tree of seven nodes and height 4 that is bulk-loaded with
    seven sorted pairs returns with the seven keys in order but keeps
    height 4, although a complete tree of height 3 has seven nodes: the
    guard [size != count] skips the rebuild.  The same arrays loaded
    into a tree of another size go through the rebuild and give height
    3. *)
Theorem generateInOrder_same_count_height :
  let arr_data := replicate 7 () in
  let arr_keys := [1; 2; 3; 4; 5; 6; 7] in
  let t := run (inserts [50; 30; 70; 20; 40; 60; 10]) AVLTree_new in
  let t' := (generateInOrder 0 () (Some arr_data) (Some arr_keys) 7 t).1 in
  let u := run (inserts [50; 30]) AVLTree_new in
  let u' := (generateInOrder 0 () (Some arr_data) (Some arr_keys) 7 u).1 in
  getSize t = 7 ∧ height (root t) = 4 ∧ balanced (root t) = true ∧
  inorderOutputAux (root t') = arr_keys ∧
  height (root t') = 4 ∧ 7 ≤ 2 ^ 3 - 1 ∧
  inorderOutputAux (root u') = arr_keys ∧
  height (root u') = 3.
Proof. vm_compute. by split_and!. Qed.

(** C7, as amended.  A move from the NULL position signals
    [AVLTreeIteratorReachedEnd], and so does dereferencing it; a move to
    a missing child returns the NULL position without a signal; a move
    to the parent from the root signals [AVLTreeIteratorReachedRoot]. *)
Theorem iterator_moves {T} (t : AVLTree T) p l k d r lh rh :
  node_at p (root t) = Nd l k d r lh rh →
  let it := mkIterator (Some p) in
  (l = NULL → MoveLeft t it = Ret (mkIterator None)) ∧
  (r = NULL → MoveRight t it = Ret (mkIterator None)) ∧
  (p = [] → moveToParent t it = Throw AVLTreeIteratorReachedRoot) ∧
  MoveLeft t (mkIterator None) = Throw AVLTreeIteratorReachedEnd ∧
  MoveRight t (mkIterator None) = Throw AVLTreeIteratorReachedEnd ∧
  moveToParent t (mkIterator None) = Throw AVLTreeIteratorReachedEnd ∧
  deref t (mkIterator None) = Throw AVLTreeIteratorReachedEnd.
Proof.
  intros Hn it. unfold MoveLeft, MoveRight, moveToParent, deref. simpl.
  rewrite Hn. repeat split; try done.
  - by intros ->.
  - by intros ->.
  - by intros ->.
Qed.

Lemma iterator_moves_witness :
  let t := run (inserts [10]) AVLTree_new in
  let it := mkIterator (Some []) in
  MoveLeft t it = Ret (mkIterator None) ∧
  MoveRight t it = Ret (mkIterator None) ∧
  moveToParent t it = Throw AVLTreeIteratorReachedRoot ∧
  MoveLeft t (mkIterator None) = Throw AVLTreeIteratorReachedEnd ∧
  MoveRight t (mkIterator None) = Throw AVLTreeIteratorReachedEnd ∧
  moveToParent t (mkIterator None) = Throw AVLTreeIteratorReachedEnd ∧
  deref t (mkIterator None) = Throw AVLTreeIteratorReachedEnd.
Proof.
  intros t it.
  destruct (iterator_moves t [] NULL 10 () NULL 0 0 eq_refl)
    as (H1 & H2 & H3 & H4).
  split; [apply H1; reflexivity|]. split; [apply H2; reflexivity|].
  split; [apply H3; reflexivity|]. exact H4.
Defined.

(** C7, as stated, fails: on a one-node tree the move to the missing
    left child of the root returns normally. *)
Lemma MoveLeft_missing_child_returns :
  ¬ (∀ (t : AVLTree ()) p k d r lh rh,
       node_at p (root t) = Nd NULL k d r lh rh →
       MoveLeft t (mkIterator (Some p)) = Throw AVLTreeIteratorReachedEnd).
Proof.
  intros H.
  specialize (H (run (inserts [10]) AVLTree_new) [] 10 () NULL 0 0 eq_refl).
  discriminate H.
Qed.

(** C9, as amended.  A negative count signals
    [AVLTreeInvalidArgException]; with a positive count a NULL data or
    keys buffer signals [AVLTreeNullArgException]; a zero count returns
    without a signal whatever the buffers; the tree is unchanged in all
    three cases. *)
Theorem generateInOrder_argument_checks {T} bk (bd : T) (t : AVLTree T)
    arr_data arr_keys count :
  (count < 0 →
   generateInOrder bk bd arr_data arr_keys count t
   = (t, Throw AVLTreeInvalidArgException)) ∧
  (0 < count → arr_data = None ∨ arr_keys = None →
   generateInOrder bk bd arr_data arr_keys count t
   = (t, Throw AVLTreeNullArgException)) ∧
  (count = 0 →
   generateInOrder bk bd arr_data arr_keys count t = (t, Ret ())).
Proof.
  unfold generateInOrder. repeat split.
  - intros H%Z.ltb_lt. by rewrite H.
  - intros H Hn.
    destruct (count <? 0) eqn:E1; [apply Z.ltb_lt in E1; lia|].
    destruct (count =? 0) eqn:E2; [apply Z.eqb_eq in E2; lia|].
    destruct Hn as [-> | ->]; [done|]. by destruct arr_data.
  - by intros ->.
Qed.

Lemma generateInOrder_argument_checks_witness :
  let t := run (inserts [1; 2]) AVLTree_new in
  generateInOrder 0 () (Some [()]) (Some [7]) (-1) t
  = (t, Throw AVLTreeInvalidArgException) ∧
  generateInOrder 0 () None (Some [7]) 1 t
  = (t, Throw AVLTreeNullArgException) ∧
  generateInOrder 0 () None None 0 t = (t, Ret ()).
Proof.
  intros t. split; [|split].
  - apply (generateInOrder_argument_checks 0 () t (Some [()]) (Some [7]) (-1)).
    lia.
  - apply (generateInOrder_argument_checks 0 () t None (Some [7]) 1);
      [lia | by left].
  - by apply (generateInOrder_argument_checks 0 () t None None 0).
Defined.

(** C9, as stated, fails: with a zero count NULL buffers are accepted
    and the call returns normally. *)
Lemma generateInOrder_null_buffers_zero_count :
  ¬ (∀ (t : AVLTree ()) arr_data arr_keys count,
       arr_data = None ∨ arr_keys = None →
       (generateInOrder 0 () arr_data arr_keys count t).2
       = Throw AVLTreeNullArgException).
Proof.
  intros H. specialize (H AVLTree_new None None 0 (or_introl eq_refl)).
  discriminate H.
Qed.

(** ** The bucket array *)

Lemma hashFunction_range key sz :
  0 < sz → 0 ≤ hashFunction key sz < sz.
Proof.
  intros Hsz. unfold hashFunction.
  destruct (0 <=? Z.rem (int_cast key) sz) eqn:E;
    [apply Z.leb_le in E|apply Z.leb_gt in E].
  - pose proof (Z.rem_bound_abs (int_cast key) sz). lia.
  - pose proof (Z.rem_bound_abs (int_cast key) sz). lia.
Qed.

Lemma bucket_at_hash sz es key :
  buckets_ok sz es →
  ∃ t, es !! Z.to_nat (hashFunction key sz) = Some t ∧
       bucket_at es (hashFunction key sz) = Ret t.
Proof.
  intros (Hsz & Hlen & _).
  pose proof (hashFunction_range key sz Hsz) as Hr.
  destruct (lookup_lt_is_Some_2 es (Z.to_nat (hashFunction key sz))) as [t Ht];
    [lia|].
  exists t. split; [done|]. unfold bucket_at. rewrite Ht.
  destruct (_ <? 0) eqn:E; [apply Z.ltb_lt in E; lia|done].
Qed.

Lemma elem_of_concat {A} (ls : list (list A)) x :
  x ∈ concat ls ↔ ∃ l, x ∈ l ∧ l ∈ ls.
Proof.
  induction ls as [|l ls IH]; simpl.
  - split; [by intros ?%elem_of_nil|]. by intros (l & _ & ?%elem_of_nil).
  - rewrite elem_of_app, IH. split.
    + intros [H|(l' & ? & ?)]; [exists l|exists l']; split; try done;
        [by left|by right].
    + intros (l' & Hx & [->|H]%elem_of_cons); [by left|right; eauto].
Qed.

Lemma elem_of_all_pairs es kp :
  kp ∈ all_pairs es ↔ ∃ i t, es !! i = Some t ∧ kp ∈ inorder (root t).
Proof.
  unfold all_pairs. rewrite elem_of_concat. split.
  - intros (l & Hkp & (t & -> & (i & Hi)%list_elem_of_lookup)%list_elem_of_fmap).
    by exists i, t.
  - intros (i & t & Hi & Hkp). eexists. split; [done|].
    apply list_elem_of_fmap. exists t. split; [done|].
    by apply list_elem_of_lookup_2 in Hi.
Qed.

Lemma elem_of_all_pairs_bucket sz es key p t :
  buckets_ok sz es →
  es !! Z.to_nat (hashFunction key sz) = Some t →
  (key, p) ∈ all_pairs es ↔ (key, p) ∈ inorder (root t).
Proof.
  intros Hok Ht. rewrite elem_of_all_pairs. split.
  - intros (i & t' & Hi & Hin).
    destruct Hok as (_ & _ & Hb). destruct (Hb _ _ Hi) as [_ Hh].
    rewrite Forall_forall in Hh. specialize (Hh _ Hin). simpl in Hh.
    rewrite Hh, Nat2Z.id in Ht. congruence.
  - intros Hin. eauto.
Qed.

Lemma elem_of_all_keys_bucket sz es key t :
  buckets_ok sz es →
  es !! Z.to_nat (hashFunction key sz) = Some t →
  key ∈ (all_pairs es).*1 ↔ key ∈ keys (root t).
Proof.
  intros Hok Ht. rewrite elem_of_keys. split.
  - intros ([k p] & -> & Hin)%list_elem_of_fmap. exists p.
    by apply (elem_of_all_pairs_bucket sz es k p t).
  - intros (p & Hin). apply list_elem_of_fmap. exists (key, p).
    split; [done|]. by apply (elem_of_all_pairs_bucket sz es key p t).
Qed.

Lemma all_pairs_insert es i t t' :
  es !! i = Some t →
  all_pairs es = all_pairs (take i es) ++ inorder (root t) ++ all_pairs (drop (S i) es) ∧
  all_pairs (<[i:=t']> es)
  = all_pairs (take i es) ++ inorder (root t') ++ all_pairs (drop (S i) es).
Proof.
  intros Hi. unfold all_pairs.
  rewrite insert_take_drop by (by eapply lookup_lt_Some).
  rewrite <- (take_drop_middle es i t Hi) at 1.
  by rewrite !fmap_app, !concat_app, !fmap_cons.
Qed.

Lemma buckets_ok_insert sz es i t t' :
  buckets_ok sz es → es !! i = Some t →
  tree_ok t' →
  Forall (λ kp, hashFunction kp.1 sz = Z.of_nat i) (inorder (root t')) →
  buckets_ok sz (<[i:=t']> es).
Proof.
  intros (Hsz & Hlen & Hb) Hi Hok Hh. split; [done|].
  split; [by rewrite length_insert|].
  intros j u Hj. destruct (decide (i = j)) as [<-|Hne].
  - rewrite list_lookup_insert_eq in Hj by (by eapply lookup_lt_Some).
    by injection Hj as <-.
  - rewrite list_lookup_insert_ne in Hj by done. by apply Hb.
Qed.

(** Insertion of an absent key into its bucket. *)
Lemma insert_bucket sz es key p :
  buckets_ok sz es → key ∉ (all_pairs es).*1 →
  let i := Z.to_nat (hashFunction key sz) in
  ∃ t t', es !! i = Some t ∧ bucket_at es (hashFunction key sz) = Ret t ∧
          Insert key p t = (t', Ret ()) ∧
          buckets_ok sz (<[i:=t']> es) ∧
          all_pairs (<[i:=t']> es) ≡ₚ (key, p) :: all_pairs es ∧
          Find key t' ≫= deref t' = Ret p.
Proof.
  intros Hok Hk i.
  destruct (bucket_at_hash sz es key Hok) as (t & Ht & Hbt).
  pose proof Hok as (Hsz & Hlen & Hb). destruct (Hb _ _ Ht) as [Htok Hth].
  rewrite (elem_of_all_keys_bucket sz es key t Hok Ht) in Hk.
  destruct (Insert_absent t key p Htok Hk) as (t' & Hins & Htok' & HP).
  exists t, t'. split_and!; try done.
  - apply (buckets_ok_insert sz es i t t' Hok Ht Htok').
    rewrite HP. constructor; [|done]. simpl.
    pose proof (hashFunction_range key sz Hsz). subst i. lia.
  - destruct (all_pairs_insert es i t t' Ht) as [-> ->].
    rewrite HP. simpl. symmetry. apply Permutation_middle.
  - destruct Htok' as (Ha & _).
    assert (Hin : key ∈ keys (root t')).
    { apply elem_of_keys. exists p. rewrite HP. by left. }
    unfold Find. destruct (recursiveFind (root t') key) as [q|] eqn:E.
    + destruct (recursiveFind_Some _ _ _ E) as (l & d & r & lh & rh & Hn & Hd).
      simpl. unfold deref. simpl. rewrite Hn. f_equal.
      apply (keys_unique_data (inorder (root t')) key); [|done|].
      * by apply ascending_NoDup.
      * rewrite HP. by left.
    + by apply recursiveFind_None in E.
Qed.

Lemma Forall_del {T} key (l : list (Z * T)) (P : Z * T → Prop) :
  Forall P l → Forall P (del key l).
Proof.
  rewrite !Forall_forall. intros H x [_ Hx]%list_elem_of_filter. by apply H.
Qed.

(** Deletion of a present key from its bucket. *)
Lemma delete_bucket sz es key :
  buckets_ok sz es → key ∈ (all_pairs es).*1 →
  let i := Z.to_nat (hashFunction key sz) in
  ∃ t t' p, es !! i = Some t ∧ bucket_at es (hashFunction key sz) = Ret t ∧
            Find key t ≫= deref t = Ret p ∧
            Delete key t = (t', Ret ()) ∧
            buckets_ok sz (<[i:=t']> es) ∧
            all_pairs es ≡ₚ (key, p) :: all_pairs (<[i:=t']> es).
Proof.
  intros Hok Hk i.
  destruct (bucket_at_hash sz es key Hok) as (t & Ht & Hbt).
  pose proof Hok as (Hsz & Hlen & Hb). destruct (Hb _ _ Ht) as [Htok Hth].
  rewrite (elem_of_all_keys_bucket sz es key t Hok Ht) in Hk.
  destruct (Delete_present t key Htok Hk) as (t' & Hdel & Htok' & Hi').
  pose proof Htok as (Ha & _).
  assert (∃ p, Find key t ≫= deref t = Ret p ∧ (key, p) ∈ inorder (root t))
    as (p & Hfind & Hp).
  { unfold Find. destruct (recursiveFind (root t) key) as [q|] eqn:E.
    - destruct (recursiveFind_Some _ _ _ E) as (l & d & r & lh & rh & Hn & Hd).
      exists d. split; [|done]. simpl. unfold deref. simpl. by rewrite Hn.
    - by apply recursiveFind_None in E. }
  exists t, t', p. split_and!; try done.
  - apply (buckets_ok_insert sz es i t t' Hok Ht Htok').
    rewrite Hi'. by apply Forall_del.
  - destruct (all_pairs_insert es i t t' Ht) as [-> ->].
    rewrite Hi'.
    rewrite (del_Permutation key p (inorder (root t))) at 1;
      [|by apply ascending_NoDup|done].
    simpl. symmetry. apply Permutation_middle.
Qed.

(** ** Resize *)

Lemma extractTreeDataInOrderAux_inorder {T} (n : Node T) :
  extractTreeDataInOrderAux n = (inorder n).*2.
Proof.
  induction n as [|l IHl k d r IHr lh rh]; [done|]. simpl.
  by rewrite fmap_app, IHl, IHr.
Qed.

Lemma buckets_ok_new sz :
  0 < sz → buckets_ok sz (replicate (Z.to_nat sz) AVLTree_new).
Proof.
  intros Hsz. split; [done|]. split; [by rewrite length_replicate|].
  intros i t [-> _]%lookup_replicate. split; [apply tree_ok_new|constructor].
Qed.

Lemma all_pairs_new n : all_pairs (replicate n AVLTree_new) = [].
Proof. induction n as [|n IH]; [done|]. simpl. exact IH. Qed.

(** The loop over one old bucket inserts its pairs one by one. *)
Lemma Resize_tree_spec sz (ps pre : list (Z * loc)) es cnt :
  buckets_ok sz es → NoDup ((all_pairs es).*1 ++ ps.*1) →
  ∃ es', Resize_tree (seq (length pre) (length ps))
                     (pre ++ ps).*1 (pre ++ ps).*2 sz es cnt
         = (es', cnt + Z.of_nat (length ps), Ret ()) ∧
         buckets_ok sz es' ∧ all_pairs es' ≡ₚ all_pairs es ++ ps.
Proof.
  revert pre es cnt. induction ps as [|[k p] ps IH]; intros pre es cnt Hok Hnd.
  { exists es. simpl. rewrite Z.add_0_r, app_nil_r. done. }
  simpl length. simpl seq. simpl Resize_tree.
  rewrite !fmap_app, !fmap_cons.
  rewrite (list_lookup_middle pre.*1) by (by rewrite length_fmap).
  rewrite (list_lookup_middle pre.*2) by (by rewrite length_fmap).
  simpl fst. simpl snd.
  assert (Hk : k ∉ (all_pairs es).*1).
  { apply NoDup_app in Hnd as (_ & Hd & _). intros Hin.
    apply (Hd _ Hin). simpl. by left. }
  destruct (insert_bucket sz es k p Hok Hk) as (t & t' & Ht & -> & -> & Hok' & HP & _).
  destruct (IH (pre ++ [(k, p)]) (<[Z.to_nat (hashFunction k sz):=t']> es)
               (cnt + 1) Hok') as (es' & Hres & Hok'' & HP').
  { rewrite HP. simpl. apply NoDup_cons. rewrite fmap_cons in Hnd. simpl in Hnd.
    apply NoDup_app in Hnd as (H1 & H2 & [H3 H4]%NoDup_cons).
    split.
    - rewrite elem_of_app. intros [?|?]; [done|done].
    - apply NoDup_app. split; [done|]. split; [|done].
      intros x Hx Hx'. apply (H2 x Hx). by right. }
  rewrite length_app, Nat.add_1_r in Hres.
  rewrite <- !app_assoc, !fmap_app, !fmap_cons in Hres. simpl in Hres.
  rewrite Hres. exists es'. split; [f_equal; f_equal; lia|]. split; [done|].
  rewrite HP', HP. simpl. by rewrite Permutation_middle.
Qed.

(** The loop over the old bucket array. *)
Lemma Resize_entries_spec sz (olds pre : list (AVLTree loc)) es cnt :
  Forall tree_ok olds →
  buckets_ok sz es → NoDup ((all_pairs es).*1 ++ (all_pairs olds).*1) →
  ∃ es', Resize_entries (seq (length pre) (length olds)) (pre ++ olds)
                        sz es cnt
         = (es', cnt + Z.of_nat (length (all_pairs olds)), Ret ()) ∧
         buckets_ok sz es' ∧ all_pairs es' ≡ₚ all_pairs es ++ all_pairs olds.
Proof.
  revert pre es cnt.
  induction olds as [|old olds IH]; intros pre es cnt Holds Hok Hnd.
  { exists es. simpl. rewrite Z.add_0_r, app_nil_r. done. }
  apply Forall_cons in Holds as [(Ha & Hp & Hs) Holds].
  simpl length. simpl seq. simpl Resize_entries.
  rewrite (list_lookup_middle pre) by done.
  unfold inOrderExtractData, inOrderExtractKeys, inOrderExtract, getSize.
  rewrite extractTreeDataInOrderAux_inorder, Hs, Nat2Z.id.
  change (all_pairs (old :: olds))
    with (inorder (root old) ++ all_pairs olds) in *.
  rewrite fmap_app in Hnd.
  destruct (Resize_tree_spec sz (inorder (root old)) [] es cnt Hok)
    as (es1 & Hres & Hok1 & HP1).
  { rewrite app_assoc in Hnd. by apply NoDup_app in Hnd as (? & _). }
  simpl in Hres. rewrite Hres.
  destruct (IH (pre ++ [old]) es1 (cnt + Z.of_nat (length (inorder (root old))))
               Holds Hok1) as (es' & Hres' & Hok' & HP').
  { rewrite HP1, fmap_app, <- app_assoc. done. }
  rewrite length_app, Nat.add_1_r, <- app_assoc in Hres'. simpl in Hres'.
  rewrite Hres'. exists es'. split; [|split; [done|]].
  - f_equal. f_equal. rewrite length_app. lia.
  - by rewrite HP', HP1, <- app_assoc.
Qed.

(** ** The map invariant *)

Lemma Resize_spec {V} increase (m : HashMap V) :
  map_wf m → 2 ≤ _size m →
  ∃ m', Resize increase m = (m', Ret ()) ∧ map_wf m' ∧
        pairs m' ≡ₚ pairs m ∧ heap m' = heap m ∧ _count m' = _count m ∧
        _size m' = (if negb increase && (_size m =? HASH_INITIAL_SIZE)
                    then _size m
                    else if increase then _size m * 2
                         else Z.quot (_size m) 2).
Proof.
  intros (Hb & Hnd & Hc & Hnp & Hlive) Hsz. unfold Resize.
  destruct (negb increase && (_size m =? HASH_INITIAL_SIZE)) eqn:E.
  { exists m. split_and!; done. }
  set (new_size := if increase then _size m * INCREASE_FACTOR
                   else Z.quot (_size m) DECREASE_FACTOR).
  assert (Hnew : 0 < new_size).
  { subst new_size. unfold INCREASE_FACTOR, DECREASE_FACTOR.
    destruct increase; [lia|]. apply Z.quot_str_pos. lia. }
  destruct Hb as (Hsz0 & Hlen & Hbs).
  destruct (Resize_entries_spec new_size (entries m) []
              (replicate (Z.to_nat new_size) AVLTree_new) 0)
    as (es' & Hres & Hok' & HP').
  { apply Forall_forall. intros t (i & Hi)%list_elem_of_lookup.
    by destruct (Hbs _ _ Hi). }
  { by apply buckets_ok_new. }
  { by rewrite all_pairs_new. }
  simpl in Hres. rewrite <- Hlen, Hres.
  rewrite all_pairs_new in HP'. simpl in HP'.
  eexists. split; [done|]. unfold map_wf, pairs. simpl.
  fold (all_pairs es'). fold (all_pairs (entries m)).
  unfold pairs in *. fold (all_pairs (entries m)) in *.
  rewrite HP'. split_and!; done.
Qed.

Lemma loadFactorCheckAndResize_spec {V} (m : HashMap V) :
  map_wf m → 2 ≤ _size m →
  ∃ m', loadFactorCheckAndResize m = (m', Ret ()) ∧ map_wf m' ∧
        pairs m' ≡ₚ pairs m ∧ heap m' = heap m ∧ _count m' = _count m ∧
        (3 * _size m ≤ 4 * _count m ∧ _size m' = _size m * 2 ∨
         4 * _count m < 3 * _size m ∧ 4 * _count m ≤ _size m ∧
           _size m ≠ HASH_INITIAL_SIZE ∧ _size m' = Z.quot (_size m) 2 ∨
         4 * _count m < 3 * _size m ∧
           (_size m < 4 * _count m ∨ _size m = HASH_INITIAL_SIZE) ∧
           _size m' = _size m).
Proof.
  intros Hwf Hsz. unfold loadFactorCheckAndResize.
  destruct (3 * _size m <=? 4 * _count m) eqn:E1;
    [apply Z.leb_le in E1|apply Z.leb_gt in E1].
  { destruct (Resize_spec true m Hwf Hsz) as (m' & -> & ? & ? & ? & ? & Hs).
    simpl in Hs. exists m'. split_and!; try done. left. done. }
  destruct (4 * _count m <=? _size m) eqn:E2;
    [apply Z.leb_le in E2|apply Z.leb_gt in E2].
  { destruct (Resize_spec false m Hwf Hsz) as (m' & -> & ? & ? & ? & ? & Hs).
    simpl in Hs. exists m'. split_and!; try done.
    destruct (_size m =? HASH_INITIAL_SIZE) eqn:E3;
      [apply Z.eqb_eq in E3|apply Z.eqb_neq in E3]; [right; right|right; left];
      split_and!; try done. by right. }
  exists m. split_and!; try done. right; right. split_and!; try done. by left.
Qed.

(** ** Contains, Insert, Delete and Find on a well-formed map *)

Lemma HashMap_Contains_spec {V} (m : HashMap V) key :
  map_wf m →
  HashMap_Contains key m = Ret (bool_decide (key ∈ (pairs m).*1)).
Proof.
  intros (Hb & _). unfold HashMap_Contains.
  destruct (bucket_at_hash _ _ key Hb) as (t & Ht & ->).
  unfold mbind, res_bind.
  pose proof (elem_of_all_keys_bucket _ _ key t Hb Ht) as Hiff.
  destruct Hb as (_ & _ & Hbs). destruct (Hbs _ _ Ht) as [Htok _].
  fold (pairs m) in Hiff.
  destruct (decide (key ∈ keys (root t))) as [Hin|Hin].
  - destruct (Find_found t key Htok Hin) as (it & ->).
    by rewrite bool_decide_eq_true_2 by (by apply Hiff).
  - rewrite (Find_absent t key Htok Hin).
    by rewrite bool_decide_eq_false_2 by (by rewrite Hiff).
Qed.

Lemma HashMap_Insert_present {V} (m : HashMap V) key obj :
  map_wf m → key ∈ (pairs m).*1 →
  HashMap_Insert key obj m = (m, Throw HashMapKeyAlreadyExistsException).
Proof.
  intros Hwf Hin. unfold HashMap_Insert.
  by rewrite (HashMap_Contains_spec m key Hwf), bool_decide_eq_true_2.
Qed.

Lemma HashMap_Insert_absent {V} (m : HashMap V) key obj :
  map_wf m → 2 ≤ _size m → key ∉ (pairs m).*1 →
  let p := fresh (dom (heap m)) in
  let c := _count m + 1 in
  ∃ m', HashMap_Insert key obj m = (m', Ret p) ∧ map_wf m' ∧
        pairs m' ≡ₚ (key, p) :: pairs m ∧
        heap m' = <[p:=obj]> (heap m) ∧ _count m' = c ∧
        (3 * _size m ≤ 4 * c ∧ _size m' = _size m * 2 ∨
         4 * c < 3 * _size m ∧ 4 * c ≤ _size m ∧
           _size m ≠ HASH_INITIAL_SIZE ∧ _size m' = Z.quot (_size m) 2 ∨
         4 * c < 3 * _size m ∧
           (_size m < 4 * c ∨ _size m = HASH_INITIAL_SIZE) ∧
           _size m' = _size m).
Proof.
  intros Hwf Hsz Hk p c. unfold HashMap_Insert.
  rewrite (HashMap_Contains_spec m key Hwf), bool_decide_eq_false_2 by done.
  destruct Hwf as (Hb & Hnd & Hc & Hnp & Hlive).
  subst p. set (p := fresh (dom (heap m))).
  destruct (insert_bucket _ _ key p Hb Hk) as (t & t' & Ht & -> & -> & Hb' & HP & _).
  set (m1 := mkHashMap _ _ _ _).
  assert (Hp : p ∉ (pairs m).*2).
  { intros Hin. rewrite Forall_forall in Hlive. specialize (Hlive _ Hin).
    apply elem_of_dom in Hlive. by apply is_fresh in Hlive. }
  assert (Hwf1 : map_wf m1).
  { unfold map_wf, pairs. subst m1. simpl. fold (all_pairs (entries m)) in *.
    unfold pairs in *. fold (all_pairs (entries m)) in *.
    match goal with |- context [<[?i:=t']> _] =>
      fold (all_pairs (<[i:=t']> (entries m))) end.
    rewrite HP. simpl. split_and!; try done.
    - by apply NoDup_cons.
    - lia.
    - by apply NoDup_cons.
    - constructor.
      + rewrite lookup_insert_eq. by eexists.
      + eapply Forall_impl; [exact Hlive|]. intros q Hq. simpl.
        destruct (decide (p = q)) as [->|]; [rewrite lookup_insert_eq; by eexists|].
        by rewrite lookup_insert_ne. }
  destruct (loadFactorCheckAndResize_spec m1 Hwf1 Hsz)
    as (m' & -> & Hwf' & HP' & Hh & Hc' & Hs').
  exists m'. split_and!; try done.
  rewrite HP'. unfold pairs. subst m1. simpl. exact HP.
Qed.

Lemma HashMap_Delete_absent {V} (m : HashMap V) key :
  map_wf m → key ∉ (pairs m).*1 →
  HashMap_Delete key m = (m, Throw HashMapKeyNotFoundException).
Proof.
  intros Hwf Hin. unfold HashMap_Delete.
  by rewrite (HashMap_Contains_spec m key Hwf), bool_decide_eq_false_2.
Qed.

Lemma HashMap_Find_absent {V} (m : HashMap V) key :
  map_wf m → key ∉ (pairs m).*1 →
  HashMap_Find key m = Throw HashMapKeyNotFoundException.
Proof.
  intros Hwf Hin. unfold HashMap_Find.
  by rewrite (HashMap_Contains_spec m key Hwf), bool_decide_eq_false_2.
Qed.

Lemma HashMap_Delete_present {V} (m : HashMap V) key :
  map_wf m → 2 ≤ _size m → key ∈ (pairs m).*1 →
  let c := _count m - 1 in
  ∃ m' p, HashMap_Delete key m = (m', Ret ()) ∧ map_wf m' ∧
          pairs m ≡ₚ (key, p) :: pairs m' ∧
          heap m' = delete p (heap m) ∧ _count m' = c ∧
          (3 * _size m ≤ 4 * c ∧ _size m' = _size m * 2 ∨
           4 * c < 3 * _size m ∧ 4 * c ≤ _size m ∧
             _size m ≠ HASH_INITIAL_SIZE ∧ _size m' = Z.quot (_size m) 2 ∨
           4 * c < 3 * _size m ∧
             (_size m < 4 * c ∨ _size m = HASH_INITIAL_SIZE) ∧
             _size m' = _size m).
Proof.
  intros Hwf Hsz Hk c. unfold HashMap_Delete.
  rewrite (HashMap_Contains_spec m key Hwf), bool_decide_eq_true_2 by done.
  destruct Hwf as (Hb & Hnd & Hc & Hnp & Hlive).
  destruct (delete_bucket _ _ key Hb Hk)
    as (t & t' & p & Ht & -> & -> & -> & Hb' & HP).
  fold (pairs m) in HP.
  assert (Hpin : p ∈ (pairs m).*2).
  { rewrite HP. simpl. by left. }
  pose proof Hlive as Hlive0.
  rewrite Forall_forall in Hlive0. destruct (Hlive0 _ Hpin) as [v ->].
  set (m1 := mkHashMap _ _ _ _).
  assert (HP1 : pairs m ≡ₚ (key, p) :: pairs m1) by exact HP.
  assert (Hwf1 : map_wf m1).
  { rewrite HP1 in Hnd, Hnp, Hlive, Hc. simpl in *.
    apply NoDup_cons in Hnd as [? ?]. apply NoDup_cons in Hnp as [Hp1 ?].
    apply Forall_cons in Hlive as [_ Hlive].
    split_and!; try done.
    - subst m1 c. simpl in *. lia.
    - rewrite Forall_forall in Hlive. apply Forall_forall. intros q Hq.
      subst m1. simpl. rewrite lookup_delete_ne; [by apply Hlive|].
      intros ->. done. }
  destruct (loadFactorCheckAndResize_spec m1 Hwf1 Hsz)
    as (m' & -> & Hwf' & HP' & Hh & Hc' & Hs').
  exists m', p. split_and!; try done.
  by rewrite HP'.
Qed.

(** ** Capacity and load factor *)

Lemma load_ok_size {V} (m : HashMap V) :
  load_ok m → HASH_INITIAL_SIZE ≤ _size m.
Proof.
  intros ((n & ->) & _). unfold HASH_INITIAL_SIZE.
  assert (0 < 2 ^ Z.of_nat n) by (apply Z.pow_pos_nonneg; lia). lia.
Qed.

Lemma pairs_new {V} : pairs (@HashMap_new V) = [].
Proof. apply all_pairs_new. Qed.

Lemma map_ok_new {V} : map_ok (@HashMap_new V).
Proof.
  split.
  - unfold map_wf. rewrite pairs_new.
    split; [by apply (buckets_ok_new HASH_INITIAL_SIZE)|].
    split_and!; try done; constructor.
  - split; [by exists O|]. split; [done|]. done.
Qed.

Lemma load_ok_grow {V} (m m' : HashMap V) c :
  load_ok m → _count m' = c → (c = _count m + 1 ∨ c = _count m - 1) →
  0 ≤ c →
  (3 * _size m ≤ 4 * c ∧ _size m' = _size m * 2 ∨
   4 * c < 3 * _size m ∧ 4 * c ≤ _size m ∧
     _size m ≠ HASH_INITIAL_SIZE ∧ _size m' = Z.quot (_size m) 2 ∨
   4 * c < 3 * _size m ∧
     (_size m < 4 * c ∨ _size m = HASH_INITIAL_SIZE) ∧
     _size m' = _size m) →
  load_ok m' ∧
  (_size m' = _size m * 2 ∨ _size m' * 2 = _size m ∨ _size m' = _size m) ∧
  (_size m' = _size m * 2 ↔ 3 * _size m ≤ 4 * c) ∧
  (_size m' * 2 = _size m ↔ 4 * c ≤ _size m ∧ _size m ≠ HASH_INITIAL_SIZE) ∧
  (_size m' ≠ _size m → _size m' < 4 * c < 3 * _size m').
Proof.
  intros Hl Hc Hcc Hc0 Hcase. pose proof (load_ok_size m Hl) as Hsz.
  unfold load_ok, HASH_INITIAL_SIZE in *. destruct Hl as ((n & Hn) & H10 & Hbig).
  assert (Hq : ∀ x, Z.quot (2 * x) 2 = x).
  { intros x. rewrite Z.mul_comm. by apply Z.quot_mul. }
  destruct Hcase as [(H1 & H2)|[(H1 & H2 & H3 & H4)|(H1 & H2 & H3)]].
  - assert (_size m' ≠ 10) by lia.
    split; [|split_and!; try lia].
    split; [|split; lia].
    exists (S n). rewrite H2, Hn, Nat2Z.inj_succ, Z.pow_succ_r by lia. lia.
  - destruct n as [|n].
    { change (2 ^ Z.of_nat 0) with 1 in Hn. lia. }
    rewrite Nat2Z.inj_succ, Z.pow_succ_r in Hn by lia.
    assert (Hs' : _size m' = 10 * 2 ^ Z.of_nat n).
    { rewrite H4, Hn. replace (10 * (2 * 2 ^ Z.of_nat n))
        with (2 * (10 * 2 ^ Z.of_nat n)) by lia. apply Hq. }
    assert (0 < 2 ^ Z.of_nat n) by (apply Z.pow_pos_nonneg; lia).
    split; [|split_and!; try lia].
    split; [by exists n|]. split; lia.
  - split; [|split_and!; try lia].
    split; [exists n; lia|]. split; lia.
Qed.

Lemma HashMap_Insert_ok {V} (m : HashMap V) key obj :
  map_ok m →
  let r := HashMap_Insert key obj m in
  map_ok r.1 ∧
  (r = (m, Throw HashMapKeyAlreadyExistsException) ∨
   (∃ p, r.2 = Ret p) ∧
   _count r.1 = _count m + 1 ∧
   (_size r.1 = _size m * 2 ∨ _size r.1 * 2 = _size m ∨ _size r.1 = _size m) ∧
   (_size r.1 = _size m * 2 ↔ 3 * _size m ≤ 4 * _count r.1) ∧
   (_size r.1 * 2 = _size m ↔
      4 * _count r.1 ≤ _size m ∧ _size m ≠ HASH_INITIAL_SIZE) ∧
   (_size r.1 ≠ _size m → _size r.1 < 4 * _count r.1 < 3 * _size r.1)).
Proof.
  intros [Hwf Hl] r. pose proof (load_ok_size m Hl) as Hsz.
  unfold HASH_INITIAL_SIZE in Hsz.
  destruct (decide (key ∈ (pairs m).*1)) as [Hin|Hin].
  - subst r. rewrite (HashMap_Insert_present m key obj Hwf Hin). simpl.
    split; [done|by left].
  - destruct (HashMap_Insert_absent m key obj Hwf ltac:(lia) Hin)
      as (m1 & Hins & Hwf1 & HP & Hh & Hc & Hcase).
    subst r. rewrite Hins. simpl.
    assert (0 ≤ _count m) by (destruct Hwf as (_ & _ & -> & _); lia).
    destruct (load_ok_grow m m1 (_count m + 1) Hl Hc ltac:(by left) ltac:(lia) Hcase)
      as (Hl1 & ? & ? & ? & ?).
    split; [done|]. right. rewrite Hc. split; [by eexists|done].
Qed.

Lemma HashMap_Delete_ok {V} (m : HashMap V) key :
  map_ok m →
  let r := HashMap_Delete key m in
  map_ok r.1 ∧
  (r = (m, Throw HashMapKeyNotFoundException) ∨
   r.2 = Ret () ∧
   _count r.1 = _count m - 1 ∧
   (_size r.1 = _size m * 2 ∨ _size r.1 * 2 = _size m ∨ _size r.1 = _size m) ∧
   (_size r.1 = _size m * 2 ↔ 3 * _size m ≤ 4 * _count r.1) ∧
   (_size r.1 * 2 = _size m ↔
      4 * _count r.1 ≤ _size m ∧ _size m ≠ HASH_INITIAL_SIZE) ∧
   (_size r.1 ≠ _size m → _size r.1 < 4 * _count r.1 < 3 * _size r.1)).
Proof.
  intros [Hwf Hl] r. pose proof (load_ok_size m Hl) as Hsz.
  unfold HASH_INITIAL_SIZE in Hsz.
  destruct (decide (key ∈ (pairs m).*1)) as [Hin|Hin].
  - destruct (HashMap_Delete_present m key Hwf ltac:(lia) Hin)
      as (m1 & p & Hdel & Hwf1 & HP & Hh & Hc & Hcase).
    subst r. rewrite Hdel. simpl.
    assert (0 ≤ _count m1) by (destruct Hwf1 as (_ & _ & -> & _); lia).
    destruct (load_ok_grow m m1 (_count m - 1) Hl Hc ltac:(by right) ltac:(lia) Hcase)
      as (Hl1 & ? & ? & ? & ?).
    split; [done|]. right. rewrite Hc. done.
  - subst r. rewrite (HashMap_Delete_absent m key Hwf Hin). simpl.
    split; [done|by left].
Qed.

Lemma mrun_ok {V} (ops : list (mop V)) (m : HashMap V) :
  map_ok m → map_ok (mrun ops m).
Proof.
  revert m. induction ops as [|o ops IH]; intros m Hok; [done|].
  simpl. apply IH. destruct o as [key obj|key]; simpl.
  - by apply (HashMap_Insert_ok m key obj).
  - by apply (HashMap_Delete_ok m key).
Qed.

Lemma Find_deref {T} (t : AVLTree T) key p :
  tree_ok t → (key, p) ∈ inorder (root t) → Find key t ≫= deref t = Ret p.
Proof.
  intros (Ha & _) Hin. unfold Find.
  destruct (recursiveFind (root t) key) as [q|] eqn:E.
  - destruct (recursiveFind_Some _ _ _ E) as (l & d & r & lh & rh & Hn & Hd).
    simpl. unfold deref. simpl. rewrite Hn. f_equal.
    apply (keys_unique_data (inorder (root t)) key); [|done..].
    by apply ascending_NoDup.
  - apply recursiveFind_None in E; [|done]. destruct E.
    apply elem_of_keys. by exists p.
Qed.

(** C5.  In every state reached from the empty map the capacity is at
    least 10.  An insertion or deletion that fails leaves the map as it
    was; one that succeeds changes the count by one, leaves the capacity
    doubled, halved or as it was, doubles it exactly when the new count
    is at least 0.75 of it, halves it exactly when the new count is at
    most 0.25 of it and the capacity is not 10, and whenever the
    capacity changed the new load factor is strictly between 0.25 and
    0.75. *)
Theorem resize_by_load_factor {V} (ops : list (mop V)) (key : Z) (obj : V) :
  let m := mrun ops HashMap_new in
  let resized (m' : HashMap V) :=
    (_size m' = _size m * INCREASE_FACTOR ∨
     _size m' * DECREASE_FACTOR = _size m ∨ _size m' = _size m) ∧
    (_size m' = _size m * INCREASE_FACTOR ↔ 3 * _size m ≤ 4 * _count m') ∧
    (_size m' * DECREASE_FACTOR = _size m ↔
       4 * _count m' ≤ _size m ∧ _size m ≠ HASH_INITIAL_SIZE) ∧
    (_size m' ≠ _size m → _size m' < 4 * _count m' < 3 * _size m') in
  HASH_INITIAL_SIZE ≤ _size m ∧
  (let r := HashMap_Insert key obj m in
   r = (m, Throw HashMapKeyAlreadyExistsException) ∨
   (∃ p, r.2 = Ret p) ∧ _count r.1 = _count m + 1 ∧ resized r.1) ∧
  (let r := HashMap_Delete key m in
   r = (m, Throw HashMapKeyNotFoundException) ∨
   r.2 = Ret () ∧ _count r.1 = _count m - 1 ∧ resized r.1).
Proof.
  intros m resized.
  pose proof (mrun_ok ops _ (@map_ok_new V)) as Hok. fold m in Hok.
  split; [apply load_ok_size, Hok|]. split.
  - destruct (HashMap_Insert_ok m key obj Hok) as [_ [?|(? & ? & ?)]];
      [by left|by right].
  - destruct (HashMap_Delete_ok m key Hok) as [_ [?|(? & ? & ?)]];
      [by left|by right].
Qed.

Lemma resize_by_load_factor_witness :
  let m := mrun ((λ k, MapInsert k (k * 100)) <$> [1; 2; 3; 4; 5; 6; 7])
                HashMap_new in
  let resized (m' : HashMap Z) :=
    (_size m' = _size m * INCREASE_FACTOR ∨
     _size m' * DECREASE_FACTOR = _size m ∨ _size m' = _size m) ∧
    (_size m' = _size m * INCREASE_FACTOR ↔ 3 * _size m ≤ 4 * _count m') ∧
    (_size m' * DECREASE_FACTOR = _size m ↔
       4 * _count m' ≤ _size m ∧ _size m ≠ HASH_INITIAL_SIZE) ∧
    (_size m' ≠ _size m → _size m' < 4 * _count m' < 3 * _size m') in
  HASH_INITIAL_SIZE ≤ _size m ∧
  (let r := HashMap_Insert 8 800 m in
   r = (m, Throw HashMapKeyAlreadyExistsException) ∨
   (∃ p, r.2 = Ret p) ∧ _count r.1 = _count m + 1 ∧ resized r.1) ∧
  (let r := HashMap_Delete 8 m in
   r = (m, Throw HashMapKeyNotFoundException) ∨
   r.2 = Ret () ∧ _count r.1 = _count m - 1 ∧ resized r.1).
Proof.
  exact (resize_by_load_factor
           ((λ k, MapInsert k (k * 100)) <$> [1; 2; 3; 4; 5; 6; 7]) 8 800).
Defined.

(** C6.  In every state reached from the empty map a resize in either
    direction returns.  The new capacity is twice the old one for a
    grow and half of it for a shrink, except that a shrink at the
    initial capacity leaves the map as it is; the bucket array has as
    many buckets as the new capacity, the (key, pointer) pairs after the
    resize are a permutation of those before, every key lies in the
    bucket of its hash under the new capacity, and the payload objects
    are the same heap cells: nothing is allocated or copied. *)
Theorem resize_preserves_pairs {V} (ops : list (mop V)) (increase : bool) :
  let m := mrun ops HashMap_new in
  ∃ m', Resize increase m = (m', Ret ()) ∧
        (increase = true → _size m' = _size m * INCREASE_FACTOR) ∧
        (increase = false → _size m ≠ HASH_INITIAL_SIZE →
           _size m' * DECREASE_FACTOR = _size m) ∧
        (increase = false → _size m = HASH_INITIAL_SIZE → m' = m) ∧
        pairs m' ≡ₚ pairs m ∧
        heap m' = heap m ∧
        _count m' = _count m ∧
        length (entries m') = Z.to_nat (_size m') ∧
        ∀ i t, entries m' !! i = Some t →
               Forall (λ kp, hashFunction kp.1 (_size m') = Z.of_nat i)
                      (inorder (root t)).
Proof.
  intros m. destruct (mrun_ok ops _ (@map_ok_new V)) as [Hwf Hl]. fold m in Hwf, Hl.
  pose proof (load_ok_size m Hl) as Hsz. unfold HASH_INITIAL_SIZE in Hsz.
  destruct (Resize_spec increase m Hwf ltac:(lia))
    as (m' & Hres & Hwf' & HP & Hh & Hc & Hs).
  exists m'. destruct Hwf' as ((_ & Hlen & Hb) & _).
  split_and!; try done.
  - intros ->. simpl in Hs. by unfold INCREASE_FACTOR.
  - intros -> Hne. apply Z.eqb_neq in Hne. simpl in Hs. rewrite Hne in Hs.
    destruct Hl as ((n & Hn) & _). unfold HASH_INITIAL_SIZE in *.
    apply Z.eqb_neq in Hne. destruct n as [|n].
    { change (2 ^ Z.of_nat 0) with 1 in Hn. lia. }
    rewrite Nat2Z.inj_succ, Z.pow_succ_r in Hn by lia.
    unfold DECREASE_FACTOR. rewrite Hs, Hn.
    replace (10 * (2 * 2 ^ Z.of_nat n)) with (10 * 2 ^ Z.of_nat n * 2) by lia.
    rewrite Z.quot_mul by lia. done.
  - intros -> He. unfold Resize in Hres. simpl in Hres.
    apply Z.eqb_eq in He. rewrite He in Hres. by injection Hres as <-.
  - intros i t Hi. by destruct (Hb i t Hi).
Qed.

Lemma resize_preserves_pairs_witness :
  let m := mrun [MapInsert 3 30; MapInsert 13 130; MapInsert (-4) 40]
                (@HashMap_new Z) in
  ∃ m', Resize true m = (m', Ret ()) ∧
        (true = true → _size m' = _size m * INCREASE_FACTOR) ∧
        (true = false → _size m ≠ HASH_INITIAL_SIZE →
           _size m' * DECREASE_FACTOR = _size m) ∧
        (true = false → _size m = HASH_INITIAL_SIZE → m' = m) ∧
        pairs m' ≡ₚ pairs m ∧
        heap m' = heap m ∧
        _count m' = _count m ∧
        length (entries m') = Z.to_nat (_size m') ∧
        ∀ i t, entries m' !! i = Some t →
               Forall (λ kp, hashFunction kp.1 (_size m') = Z.of_nat i)
                      (inorder (root t)).
Proof.
  exact (resize_preserves_pairs
           [MapInsert 3 30; MapInsert 13 130; MapInsert (-4) 40] true).
Defined.

(** C10.  In every state reached from the empty map, inserting a key the
    map does not contain returns a pointer that was not allocated before
    the call; the cell it points to holds a copy of the argument, and a
    lookup of the key in its bucket tree yields that same pointer. *)
Theorem insert_returns_fresh_copy {V} (ops : list (mop V)) key (obj : V) :
  let m := mrun ops HashMap_new in
  HashMap_Contains key m = Ret false →
  ∃ m' p, HashMap_Insert key obj m = (m', Ret p) ∧
          heap m !! p = None ∧
          heap m' !! p = Some obj ∧
          (key, p) ∈ pairs m' ∧
          ∃ t, bucket_at (entries m') (hashFunction key (_size m')) = Ret t ∧
               Find key t ≫= deref t = Ret p.
Proof.
  intros m Hc. destruct (mrun_ok ops _ (@map_ok_new V)) as [Hwf Hl].
  fold m in Hwf, Hl.
  pose proof (load_ok_size m Hl) as Hsz. unfold HASH_INITIAL_SIZE in Hsz.
  rewrite (HashMap_Contains_spec m key Hwf) in Hc.
  injection Hc as Hc. apply bool_decide_eq_false in Hc.
  destruct (HashMap_Insert_absent m key obj Hwf ltac:(lia) Hc)
    as (m' & Hins & Hwf' & HP & Hh & _).
  exists m', (fresh (dom (heap m))). split; [done|].
  assert (Hin : (key, fresh (dom (heap m))) ∈ pairs m').
  { rewrite HP. by left. }
  split_and!; try done.
  - apply not_elem_of_dom. apply is_fresh.
  - rewrite Hh. apply lookup_insert_eq.
  - destruct Hwf' as (Hb & _).
    destruct (bucket_at_hash _ _ key Hb) as (t & Ht & Hbt).
    exists t. split; [done|]. apply Find_deref.
    + destruct Hb as (_ & _ & Hb). by destruct (Hb _ _ Ht).
    + by apply (elem_of_all_pairs_bucket _ _ key _ t Hb Ht).
Qed.

Lemma insert_returns_fresh_copy_witness :
  let m := mrun [MapInsert 1 100; MapInsert 11 1100] (@HashMap_new Z) in
  ∃ m' p, HashMap_Insert 21 2100 m = (m', Ret p) ∧
          heap m !! p = None ∧
          heap m' !! p = Some 2100 ∧
          (21, p) ∈ pairs m' ∧
          ∃ t, bucket_at (entries m') (hashFunction 21 (_size m')) = Ret t ∧
               Find 21 t ≫= deref t = Ret p.
Proof.
  intros m.
  apply (insert_returns_fresh_copy [MapInsert 1 100; MapInsert 11 1100] 21 2100).
  reflexivity.
Defined.

(** C8.  In every state reached from the empty tree or the empty map,
    inserting a key that is present signals the already-exists exception
    and deleting or finding a key that is absent signals the not-found
    exception, and the container after the call is the one before it. *)
Theorem errors_leave_state_unchanged {T V} (ops : list (op T))
    (mops : list (mop V)) (key : Z) (data : T) (obj : V) :
  let t := run ops AVLTree_new in
  let m := mrun mops HashMap_new in
  (key ∈ inorderOutputAux (root t) →
   Insert key data t = (t, Throw AVLTreeKeyAlreadyExistsException)) ∧
  (key ∉ inorderOutputAux (root t) →
   Delete key t = (t, Throw AVLTreeKeyNotFoundException) ∧
   Find key t = Throw AVLTreeKeyNotFoundException) ∧
  (key ∈ (pairs m).*1 →
   HashMap_Insert key obj m = (m, Throw HashMapKeyAlreadyExistsException)) ∧
  (key ∉ (pairs m).*1 →
   HashMap_Delete key m = (m, Throw HashMapKeyNotFoundException) ∧
   HashMap_Find key m = Throw HashMapKeyNotFoundException).
Proof.
  intros t m.
  pose proof (run_ok ops _ (@tree_ok_new T)) as Hok. fold t in Hok.
  destruct (mrun_ok mops _ (@map_ok_new V)) as [Hwf _]. fold m in Hwf.
  rewrite inorderOutputAux_keys. split_and!.
  - by apply Insert_present.
  - intros Hk. split; [by apply Delete_absent|by apply Find_absent].
  - by apply HashMap_Insert_present.
  - intros Hk. split; [by apply HashMap_Delete_absent|by apply HashMap_Find_absent].
Qed.

Lemma errors_leave_state_unchanged_witness :
  let t := run [OpInsert 5 (); OpInsert 3 ()] AVLTree_new in
  let m := mrun [MapInsert 5 50; MapInsert 15 150] (@HashMap_new Z) in
  Insert 5 () t = (t, Throw AVLTreeKeyAlreadyExistsException) ∧
  Delete 7 t = (t, Throw AVLTreeKeyNotFoundException) ∧
  Find 7 t = Throw AVLTreeKeyNotFoundException ∧
  HashMap_Insert 15 0 m = (m, Throw HashMapKeyAlreadyExistsException) ∧
  HashMap_Delete 25 m = (m, Throw HashMapKeyNotFoundException) ∧
  HashMap_Find 25 m = Throw HashMapKeyNotFoundException.
Proof.
  intros t m.
  pose proof (errors_leave_state_unchanged
                [OpInsert 5 (); OpInsert 3 ()]
                [MapInsert 5 50; MapInsert 15 150] 5 () 0) as (H1 & _).
  pose proof (errors_leave_state_unchanged
                [OpInsert 5 (); OpInsert 3 ()]
                [MapInsert 5 50; MapInsert 15 150] 7 () 0) as (_ & H2 & _).
  pose proof (errors_leave_state_unchanged
                [OpInsert 5 (); OpInsert 3 ()]
                [MapInsert 5 50; MapInsert 15 150] 15 () 0) as (_ & _ & H3 & _).
  pose proof (errors_leave_state_unchanged
                [OpInsert 5 (); OpInsert 3 ()]
                [MapInsert 5 50; MapInsert 15 150] 25 () 0) as (_ & _ & _ & H4).
  split; [apply H1; compute_done|].
  destruct H2 as [H2 H2']; [compute_done|].
  destruct H4 as [H4 H4']; [compute_done|].
  assert (H3' := H3 ltac:(compute_done)).
  split_and!; done.
Defined.

(** * Further properties

    Round trips of the public operations, the state the tree and the
    map keep between calls, and what the destructors leave behind. *)

(** ** Lookups in a well-formed tree *)

Lemma Find_deref_absent {T} (t : AVLTree T) key :
  tree_ok t → key ∉ keys (root t) →
  Find key t ≫= deref t = Throw AVLTreeKeyNotFoundException.
Proof. intros Hok Hk. by rewrite (Find_absent t key Hok Hk). Qed.

Lemma Find_Throw_absent {T} (t : AVLTree T) key e :
  tree_ok t → Find key t = Throw e → key ∉ keys (root t).
Proof.
  intros Hok HF Hin. destruct (Find_found t key Hok Hin) as (it & Hit).
  congruence.
Qed.

Lemma Find_Ret_present {T} (t : AVLTree T) key it :
  tree_ok t → Find key t = Ret it → key ∈ keys (root t).
Proof.
  intros Hok HF. destruct (decide (key ∈ keys (root t))) as [|Hn]; [done|].
  rewrite (Find_absent t key Hok Hn) in HF. discriminate.
Qed.

(** The outcome of a lookup depends only on the pairs the key has. *)
Lemma lookup_determined {T} (t t' : AVLTree T) k :
  tree_ok t → tree_ok t' →
  (∀ d, (k, d) ∈ inorder (root t') ↔ (k, d) ∈ inorder (root t)) →
  Find k t' ≫= deref t' = Find k t ≫= deref t.
Proof.
  intros Hok Hok' Hiff.
  destruct (decide (k ∈ keys (root t))) as [Hin|Hin].
  - apply elem_of_keys in Hin as (d & Hd).
    rewrite (Find_deref t k d Hok Hd).
    apply Find_deref; [done|]. by apply Hiff.
  - rewrite (Find_deref_absent t k Hok Hin).
    apply Find_deref_absent; [done|].
    intros (d & Hd)%elem_of_keys. apply Hin, elem_of_keys.
    exists d. by apply Hiff.
Qed.

Lemma elem_of_del {T} key (l : list (Z * T)) k d :
  (k, d) ∈ del key l ↔ k ≠ key ∧ (k, d) ∈ l.
Proof. unfold del. by rewrite list_elem_of_filter. Qed.

(** X1.  In a tree reached from the empty one, inserting a key that
    [Find] does not find returns, makes the key found with the inserted
    data, adds one to [getSize] and leaves the lookup of every other key
    as it was. *)
Theorem insert_then_find {T} (ops : list (op T)) (key : Z) (data : T) :
  let t := run ops AVLTree_new in
  Find key t = Throw AVLTreeKeyNotFoundException →
  ∃ t', Insert key data t = (t', Ret ()) ∧
        Find key t' ≫= deref t' = Ret data ∧
        getSize t' = getSize t + 1 ∧
        ∀ k, k ≠ key → Find k t' ≫= deref t' = Find k t ≫= deref t.
Proof.
  intros t HF. pose proof (run_ok ops _ (@tree_ok_new T)) as Hok. fold t in Hok.
  pose proof (Find_Throw_absent t key _ Hok HF) as Hk.
  destruct (Insert_absent t key data Hok Hk) as (t' & Hins & Hok' & HP).
  exists t'. split; [done|]. split_and!.
  - apply Find_deref; [done|]. rewrite HP. by left.
  - destruct Hok as (_ & _ & Hs), Hok' as (_ & _ & Hs').
    unfold getSize. rewrite Hs, Hs', HP. simpl. lia.
  - intros k Hne. apply lookup_determined; [done..|].
    intros d. rewrite HP, elem_of_cons. split; [|by right].
    intros [[= ? ?]|?]; [done|done].
Qed.

Lemma insert_then_find_witness :
  let t := run [OpInsert 5 50; OpInsert 3 30; OpInsert 8 80] AVLTree_new in
  ∃ t', Insert 4 40 t = (t', Ret ()) ∧
        Find 4 t' ≫= deref t' = Ret 40 ∧
        getSize t' = getSize t + 1 ∧
        ∀ k, k ≠ 4 → Find k t' ≫= deref t' = Find k t ≫= deref t.
Proof.
  intros t.
  apply (insert_then_find [OpInsert 5 50; OpInsert 3 30; OpInsert 8 80] 4 40).
  reflexivity.
Defined.

(** X2.  In a tree reached from the empty one, deleting a key that
    [Find] finds returns, makes the key not found, takes one from
    [getSize] and leaves the lookup of every other key as it was. *)
Theorem delete_then_find {T} (ops : list (op T)) (key : Z) it :
  let t := run ops AVLTree_new in
  Find key t = Ret it →
  ∃ t', Delete key t = (t', Ret ()) ∧
        Find key t' = Throw AVLTreeKeyNotFoundException ∧
        getSize t' = getSize t - 1 ∧
        ∀ k, k ≠ key → Find k t' ≫= deref t' = Find k t ≫= deref t.
Proof.
  intros t HF. pose proof (run_ok ops _ (@tree_ok_new T)) as Hok. fold t in Hok.
  pose proof (Find_Ret_present t key _ Hok HF) as Hk.
  destruct (Delete_present t key Hok Hk) as (t' & Hdel & Hok' & Hi).
  exists t'. split; [done|]. split_and!.
  - apply Find_absent; [done|]. intros (d & Hd)%elem_of_keys.
    rewrite Hi in Hd. by apply elem_of_del in Hd as [? _].
  - pose proof Hok as (Ha & _ & Hs). destruct Hok' as (_ & _ & Hs').
    unfold getSize. rewrite Hs, Hs', Hi.
    rewrite (del_length key (inorder (root t))); [lia| |done].
    by apply ascending_NoDup.
  - intros k Hne. apply lookup_determined; [done..|].
    intros d. rewrite Hi, elem_of_del. tauto.
Qed.

Lemma delete_then_find_witness :
  let t := run [OpInsert 5 50; OpInsert 3 30; OpInsert 8 80] AVLTree_new in
  ∃ t', Delete 5 t = (t', Ret ()) ∧
        Find 5 t' = Throw AVLTreeKeyNotFoundException ∧
        getSize t' = getSize t - 1 ∧
        ∀ k, k ≠ 5 → Find k t' ≫= deref t' = Find k t ≫= deref t.
Proof.
  intros t.
  apply (delete_then_find [OpInsert 5 50; OpInsert 3 30; OpInsert 8 80] 5
           (mkIterator (Some []))).
  reflexivity.
Defined.

(** X3.  In a tree reached from the empty one the two tests of [Empty]
    agree: the root is NULL exactly when [getSize] is 0, and [getSize]
    is never negative. *)
Theorem empty_root_and_size_agree {T} (ops : list (op T)) :
  let t := run ops AVLTree_new in
  0 ≤ getSize t ∧
  (root t = NULL ↔ getSize t = 0) ∧
  (Empty t = true ↔ getSize t = 0).
Proof.
  intros t. pose proof (run_ok ops _ (@tree_ok_new T)) as (_ & _ & Hs).
  fold t in Hs. unfold Empty, getSize. rewrite Hs. clear Hs.
  destruct (root t) as [|l k d r lh rh]; simpl.
  - split; [lia|]. by split.
  - rewrite length_app, Z.eqb_eq. simpl. split; [lia|].
    split; [split; [done|lia]|done].
Qed.

(** ** The cached minimum *)

Lemma minimal_updated {T} (ops : list (op T)) (t : AVLTree T) :
  minimal t = updateMinimal (root t) →
  minimal (run ops t) = updateMinimal (root (run ops t)).
Proof.
  revert t. induction ops as [|o ops IH]; intros t Ht; [done|].
  simpl. apply IH. destruct o as [key data|key]; simpl.
  - unfold Insert. destruct (Empty t); [done|].
    destruct (Find key t) as [?|[]| |]; try done.
    by destruct (recursiveInsert _ _ _) as [[??]|?| |].
  - unfold Delete. destruct (Find key t) as [?|?| |]; try done.
    by destruct (recursiveDelete _ _ _) as [?|?| |].
Qed.

Lemma updateMinimal_first {T} (n : Node T) k d rest :
  inorder n = (k, d) :: rest →
  ∃ p r lh rh, updateMinimal n = Some p ∧ node_at p n = Nd NULL k d r lh rh.
Proof.
  revert k d rest. induction n as [|l IHl k' d' r _ lh rh]; intros k d rest; [done|].
  destruct l as [|ll lk ld lr llh lrh].
  - simpl. intros [= <- <- _]. by exists [], r, lh, rh.
  - intros Hi.
    change (inorder (Nd (Nd ll lk ld lr llh lrh) k' d' r lh rh))
      with (inorder (Nd ll lk ld lr llh lrh) ++ (k', d') :: inorder r) in Hi.
    destruct (inorder (Nd ll lk ld lr llh lrh)) as [|[k0 d0] tl] eqn:E.
    { simpl in E. by apply app_nil in E as [_ ?]. }
    simpl in Hi. injection Hi as -> -> _.
    destruct (IHl k d tl eq_refl) as (p & r' & lh' & rh' & Hp & Hn).
    exists (GoLeft :: p), r', lh', rh'.
    change (updateMinimal (Nd (Nd ll lk ld lr llh lrh) k' d' r lh rh))
      with ((GoLeft ::.) <$> updateMinimal (Nd ll lk ld lr llh lrh)).
    rewrite Hp. done.
Qed.

Lemma getMinimal_spec {T} (t : AVLTree T) :
  ascending (keys (root t)) → minimal t = updateMinimal (root t) →
  match inorder (root t) with
  | [] => getMinimal t = Throw AVLTreeKeyNotFoundException
  | (k, d) :: rest =>
      getMinimal t ≫= deref t = Ret d ∧ Forall (λ kd, k < kd.1) rest
  end.
Proof.
  intros Ha Hm. unfold getMinimal. rewrite Hm.
  destruct (inorder (root t)) as [|[k d] rest] eqn:E.
  - by rewrite (inorder_nil _ E).
  - destruct (updateMinimal_first _ _ _ _ E) as (p & r & lh & rh & -> & Hn).
    simpl. unfold deref. simpl. rewrite Hn. split; [done|].
    unfold keys in Ha. rewrite E in Ha. simpl in Ha.
    apply StronglySorted_cons in Ha as [Hk _]. by rewrite Forall_fmap in Hk.
Qed.

(** X4.  In a tree reached from the empty one [getMinimal] signals
    [AVLTreeKeyNotFoundException] when the tree has no nodes, and
    otherwise returns an iterator whose dereference is the data of the
    first pair of the in-order traversal, whose key is below every other
    key. *)
Theorem getMinimal_first_inorder {T} (ops : list (op T)) :
  let t := run ops AVLTree_new in
  match inorder (root t) with
  | [] => getMinimal t = Throw AVLTreeKeyNotFoundException
  | (k, d) :: rest =>
      getMinimal t ≫= deref t = Ret d ∧ Forall (λ kd, k < kd.1) rest
  end.
Proof.
  intros t. apply getMinimal_spec.
  - apply (run_ok ops _ (@tree_ok_new T)).
  - apply (minimal_updated ops (@AVLTree_new T) eq_refl).
Qed.

(** X5.  In a tree reached from the empty one [inOrderExtract] yields
    exactly [getSize] data cells, and the cell at each position is the
    data that [Find] reaches for the key at that position of the
    ascending key traversal. *)
Theorem inOrderExtract_by_key_order {T} (ops : list (op T)) :
  let t := run ops AVLTree_new in
  Z.of_nat (length (inOrderExtract t)) = getSize t ∧
  ∀ i k, inorderOutputAux (root t) !! i = Some k →
         ∃ d, inOrderExtract t !! i = Some d ∧ Find k t ≫= deref t = Ret d.
Proof.
  intros t. pose proof (run_ok ops _ (@tree_ok_new T)) as Hok. fold t in Hok.
  unfold inOrderExtract. rewrite extractTreeDataInOrderAux_inorder.
  rewrite inorderOutputAux_keys. unfold keys, getSize.
  destruct Hok as (Ha & Hp & Hs). split; [by rewrite length_fmap|].
  intros i k Hi. rewrite list_lookup_fmap in Hi.
  destruct (inorder (root t) !! i) as [[k' d]|] eqn:E; [|done].
  injection Hi as ->. exists d. split.
  - by rewrite list_lookup_fmap, E.
  - apply Find_deref; [done|]. by eapply list_elem_of_lookup_2.
Qed.

(** ** isBalanced *)

Lemma getMaxBalanceFactorAux_exact {T} (n : Node T) :
  heights_exact n = true →
  (getMaxBalanceFactorAux n <? UNBALANCED_TREE) = balanced n.
Proof.
  unfold UNBALANCED_TREE.
  induction n as [|l IHl k d r IHr lh rh]; [done|].
  cbn [heights_exact balanced getMaxBalanceFactorAux getBalance].
  rewrite !andb_true_iff, !Z.eqb_eq.
  intros [[[-> ->] Hl] Hr]. rewrite <- (IHl Hl), <- (IHr Hr).
  destruct (Z.abs _ <? 2) eqn:E1, (getMaxBalanceFactorAux l <? 2) eqn:E2,
    (getMaxBalanceFactorAux r <? 2) eqn:E3; simpl;
    rewrite ?Z.ltb_lt, ?Z.ltb_ge in *; lia.
Qed.

(** X6.  Whenever every cached height equals the true height,
    [isBalanced] answers whether the tree is height balanced. *)
Theorem isBalanced_exact {T} (t : AVLTree T) :
  heights_exact (root t) = true → isBalanced t = balanced (root t).
Proof. apply getMaxBalanceFactorAux_exact. Qed.

Lemma isBalanced_exact_witness :
  isBalanced (run (inserts [10; 20; 30; 40]) AVLTree_new)
  = balanced (root (run (inserts [10; 20; 30; 40]) AVLTree_new)).
Proof.
  apply (isBalanced_exact (run (inserts [10; 20; 30; 40]) AVLTree_new)).
  reflexivity.
Defined.

(** ** Exact heights and balance *)

Lemma height_nonneg {T} (n : Node T) : 0 ≤ height n.
Proof. induction n; simpl; lia. Qed.

Lemma height_pos {T} (l : Node T) k d r lh rh : 1 ≤ height (Nd l k d r lh rh).
Proof. simpl. pose proof (height_nonneg l). lia. Qed.

Lemma avl_getHeight {T} (n : Node T) : avl n → getHeight n = height n.
Proof. destruct n; simpl; [done|]. by intros (_ & _ & -> & -> & _). Qed.

Lemma avl_exact_balanced {T} (n : Node T) :
  avl n ↔ heights_exact n = true ∧ balanced n = true.
Proof.
  induction n as [|l IHl k d r IHr lh rh]; [done|].
  cbn [avl heights_exact balanced].
  rewrite IHl, IHr, !andb_true_iff, !Z.eqb_eq, Z.ltb_lt. split.
  - intros ((? & ?) & (? & ?) & -> & -> & ?). split_and!; try done. lia.
  - intros ((((-> & ->) & ?) & ?) & (? & ?) & ?). split_and!; try done; lia.
Qed.

Lemma avl_Nd {T} (l : Node T) k d r :
  avl l → avl r → -1 ≤ height l - height r ≤ 1 →
  avl (Nd l k d r (height l) (height r)).
Proof. simpl. tauto. Qed.

Ltac avl_heights :=
  repeat match goal with
         | H : avl (Nd _ _ _ _ _ _) |- _ => simpl in H
         end;
  destruct_and?; subst;
  repeat match goal with
         | |- context [getHeight ?n] =>
             lazymatch n with
             | Nd _ _ _ _ _ _ => fail
             | _ => rewrite (avl_getHeight n) by assumption
             end
         end.

(** A rotation check on a node whose sides are exact and differ by at
    most two restores balance and loses at most one level, and none
    unless the sides differed by two. *)
Lemma rotate_avl {T} (l : Node T) k d r :
  avl l → avl r → -2 ≤ height l - height r ≤ 2 →
  let N := Nd l k d r (height l) (height r) in
  ∃ n' b, rotate N = Ret (n', b) ∧ avl n' ∧ n' ≠ NULL ∧
          (height n' = height N ∨
           height n' = height N - 1 ∧ Z.abs (height l - height r) = 2).
Proof.
  intros Hl Hr Hb N. subst N. unfold rotate.
  cbn [getBalance]. unfold UNBALANCED_FACTOR, UNBALANCED_FACTOR_NEGATIVE,
    UNBALANCED_FACTOR_SON_ZERO, UNBALANCED_FACTOR_SON_NEGATIVE,
    UNBALANCED_FACTOR_SON.
  destruct (height l - height r =? 2) eqn:E2;
    [apply Z.eqb_eq in E2|apply Z.eqb_neq in E2].
  { destruct l as [|ll lk ld lr llh lrh].
    { simpl in E2. pose proof (height_nonneg r). lia. }
    pose proof (height_nonneg r) as Hr0.
    pose proof (height_nonneg ll) as Hll0. pose proof (height_nonneg lr) as Hlr0.
    cbn [getBalance].
    destruct (0 <=? llh - lrh) eqn:E3;
      [apply Z.leb_le in E3|apply Z.leb_gt in E3].
    - avl_heights. cbn [height] in *. cbn [rotateLL]. avl_heights.
      eexists _, _. split; [reflexivity|]. cbn [avl height getHeight].
      split_and!; try done; try lia.
    - destruct (llh - lrh =? -1) eqn:E4;
        [apply Z.eqb_eq in E4|apply Z.eqb_neq in E4].
      2:{ exfalso. avl_heights. lia. }
      destruct lr as [|lrl lrk lrd lrr lrlh lrrh].
      { exfalso. avl_heights. simpl in *. lia. }
      pose proof (height_nonneg lrl). pose proof (height_nonneg lrr).
      avl_heights. cbn [height] in *.
      unfold rotateLR. cbn [rotateRR]. unfold mbind, res_bind. cbn [rotateLL].
      avl_heights.
      eexists _, _. split; [reflexivity|]. cbn [avl height getHeight].
      split_and!; try done; try lia. }
  destruct (height l - height r =? -2) eqn:E5;
    [apply Z.eqb_eq in E5|apply Z.eqb_neq in E5].
  { destruct r as [|rl rk rd rr rlh rrh].
    { simpl in E5. pose proof (height_nonneg l). lia. }
    pose proof (height_nonneg l) as Hl0.
    pose proof (height_nonneg rl) as Hrl0. pose proof (height_nonneg rr) as Hrr0.
    cbn [getBalance].
    destruct (rlh - rrh =? 1) eqn:E6;
      [apply Z.eqb_eq in E6|apply Z.eqb_neq in E6].
    - destruct rl as [|rll rlk rld rlr rllh rlrh].
      { exfalso. avl_heights. simpl in *. lia. }
      pose proof (height_nonneg rll). pose proof (height_nonneg rlr).
      avl_heights. cbn [height] in *.
      unfold rotateRL. cbn [rotateLL]. unfold mbind, res_bind. cbn [rotateRR].
      avl_heights.
      eexists _, _. split; [reflexivity|]. cbn [avl height getHeight].
      split_and!; try done; try lia.
    - destruct (rlh - rrh <=? 0) eqn:E7;
        [apply Z.leb_le in E7|apply Z.leb_gt in E7].
      2:{ exfalso. avl_heights. lia. }
      avl_heights. cbn [height] in *. cbn [rotateRR]. avl_heights.
      eexists _, _. split; [reflexivity|]. cbn [avl height getHeight].
      split_and!; try done; try lia. }
  eexists _, _. split; [reflexivity|]. split; [|split; [done|by left]].
  apply avl_Nd; try done. lia.
Qed.

Lemma set_leftmost_avl {T} (n : Node T) key data :
  avl n →
  avl (set_leftmost n key data) ∧
  height (set_leftmost n key data) = height n.
Proof.
  induction n as [|l IHl k d r _ lh rh]; [done|].
  intros (Hl & Hr & -> & -> & Hb).
  destruct l as [|ll lk ld lr llh lrh]; [by simpl|].
  destruct (IHl Hl) as [Hl' Hh].
  change (set_leftmost (Nd (Nd ll lk ld lr llh lrh) k d r
                           (height (Nd ll lk ld lr llh lrh)) (height r)) key data)
    with (Nd (set_leftmost (Nd ll lk ld lr llh lrh) key data) k d r
             (height (Nd ll lk ld lr llh lrh)) (height r)).
  cbn [avl]. rewrite Hh. cbn [height] in *. split; [split_and!; try done; lia|lia].
Qed.

(** Whatever [recursiveDelete] returns on an exact, balanced subtree is
    exact and balanced again and at most one level lower. *)
Lemma recursiveDelete_avl {T} fuel (n n' : Node T) key :
  avl n → recursiveDelete fuel n key = Ret n' →
  avl n' ∧ height n - 1 ≤ height n' ≤ height n.
Proof.
  revert n n'. induction fuel as [|fuel IH]; intros n n' Hn H; [done|].
  destruct n as [|l k d r lh rh]; [done|].
  pose proof (height_nonneg l) as Hl0. pose proof (height_nonneg r) as Hr0.
  destruct Hn as (Hl & Hr & -> & -> & Hb).
  simpl in H. cbn [height].
  destruct (k =? key).
  - destruct l as [|ll lk ld lr llh lrh], r as [|rl rk rd rr rlh rrh].
    + injection H as <-. simpl. split; [done|lia].
    + injection H as <-. split; [done|]. simpl in *. lia.
    + injection H as <-. split; [done|]. simpl in *. lia.
    + destruct (leftmost rl rk rd) as [sk sd].
      destruct (set_leftmost_avl (Nd rl rk rd rr rlh rrh) k d Hr) as [Hr' Hh'].
      destruct (recursiveDelete fuel _ key) as [r'| | |] eqn:E; try done.
      destruct (IH _ _ Hr' E) as [Hr'' Hb'']. rewrite Hh' in Hb''.
      unfold mbind, res_bind in H. rewrite (avl_getHeight r' Hr'') in H.
      destruct (rotate_avl (Nd ll lk ld lr llh lrh) sk sd r' Hl Hr'')
        as (n'' & b & Hrot & Hn'' & _ & Hh''); [lia|].
      rewrite Hrot in H. injection H as <-. split; [done|].
      cbn [height] in *. lia.
  - destruct (k <? key).
    + destruct (recursiveDelete fuel r key) as [r'| | |] eqn:E; try done.
      destruct (IH _ _ Hr E) as [Hr'' Hb''].
      unfold mbind, res_bind in H. rewrite (avl_getHeight r' Hr'') in H.
      destruct (rotate_avl l k d r' Hl Hr'')
        as (n'' & b & Hrot & Hn'' & _ & Hh''); [lia|].
      rewrite Hrot in H. injection H as <-. split; [done|].
      cbn [height] in *. lia.
    + destruct (recursiveDelete fuel l key) as [l'| | |] eqn:E; try done.
      destruct (IH _ _ Hl E) as [Hl'' Hb''].
      unfold mbind, res_bind in H. rewrite (avl_getHeight l' Hl'') in H.
      destruct (rotate_avl l' k d r Hl'' Hr)
        as (n'' & b & Hrot & Hn'' & _ & Hh''); [lia|].
      rewrite Hrot in H. injection H as <-. split; [done|].
      cbn [height] in *. lia.
Qed.

Lemma Delete_avl {T} (t : AVLTree T) (key : Z) :
  avl (root t) → avl (root (Delete key t).1).
Proof.
  intros Ht. unfold Delete. destruct (Find key t); try done.
  destruct (recursiveDelete _ _ _) as [r| | |] eqn:E; try done.
  simpl. destruct (_ =? 0); [done|].
  by destruct (recursiveDelete_avl _ _ _ _ Ht E).
Qed.

Lemma avl_hpos {T} (n : Node T) : avl n → hpos n.
Proof.
  induction n as [|l IHl k d r IHr lh rh]; [done|].
  intros (Hl & Hr & -> & -> & _). simpl. split_and!; auto.
  - destruct l as [|ll lk ld lr llh lrh]; [done|].
    pose proof (height_nonneg ll). pose proof (height_nonneg lr).
    simpl. lia.
  - destruct r as [|rl rk rd rr rlh rrh]; [done|].
    pose proof (height_nonneg rl). pose proof (height_nonneg rr).
    simpl. lia.
Qed.

(** X7.  On a tree whose keys ascend in order, whose [size] counts its
    nodes, whose cached heights are exact and whose nodes are balanced,
    [Delete] of a key that is not in the tree signals
    [AVLTreeKeyNotFoundException] and leaves the tree as it is; [Delete]
    of a key that is in the tree returns and leaves a tree without that
    key that is in the same state again, on which [isBalanced] answers
    true. *)
Theorem delete_keeps_balance {T} (t : AVLTree T) (key : Z) :
  StronglySorted Z.lt (inorderOutputAux (root t)) →
  getSize t = Z.of_nat (length (inorderOutputAux (root t))) →
  heights_exact (root t) = true → balanced (root t) = true →
  ((key ∉ inorderOutputAux (root t)) ∧
   Delete key t = (t, Throw AVLTreeKeyNotFoundException)) ∨
  (key ∈ inorderOutputAux (root t) ∧
   ∃ t', Delete key t = (t', Ret ()) ∧
         inorder (root t') = del key (inorder (root t)) ∧
         StronglySorted Z.lt (inorderOutputAux (root t')) ∧
         getSize t' = Z.of_nat (length (inorderOutputAux (root t'))) ∧
         heights_exact (root t') = true ∧ balanced (root t') = true ∧
         isBalanced t' = true).
Proof.
  rewrite inorderOutputAux_keys. intros Ha Hs He Hb.
  assert (Ht : avl (root t)) by (by apply avl_exact_balanced).
  assert (Hok : tree_ok t).
  { split_and!; [done|by apply avl_hpos|].
    unfold getSize, keys in Hs. by rewrite length_fmap in Hs. }
  destruct (decide (key ∈ keys (root t))) as [Hin|Hin].
  - right. split; [done|].
    destruct (Delete_present t key Hok Hin) as (t' & Hd & (Ha' & _ & Hs') & Hi).
    pose proof (Delete_avl t key Ht) as Ht'. rewrite Hd in Ht'. simpl in Ht'.
    apply avl_exact_balanced in Ht' as [He' Hb'].
    exists t'. rewrite inorderOutputAux_keys. split_and!; try done.
    + unfold getSize, keys. by rewrite length_fmap.
    + unfold isBalanced. by rewrite getMaxBalanceFactorAux_exact.
  - left. split; [done|]. by apply Delete_absent.
Qed.

Lemma delete_keeps_balance_witness :
  let t := run (inserts [10; 20; 30; 40; 50; 60; 70]) AVLTree_new in
  ((10 ∉ inorderOutputAux (root t)) ∧
   Delete 10 t = (t, Throw AVLTreeKeyNotFoundException)) ∨
  (10 ∈ inorderOutputAux (root t) ∧
   ∃ t', Delete 10 t = (t', Ret ()) ∧
         inorder (root t') = del 10 (inorder (root t)) ∧
         StronglySorted Z.lt (inorderOutputAux (root t')) ∧
         getSize t' = Z.of_nat (length (inorderOutputAux (root t'))) ∧
         heights_exact (root t') = true ∧ balanced (root t') = true ∧
         isBalanced t' = true).
Proof.
  intros t.
  apply (delete_keeps_balance t 10); [compute_done|reflexivity..].
Defined.

(** ** Balance after a bulk load *)

Lemma createBlankTree_avl {T} bk (bd : T) h size :
  avl (createBlankTree bk bd h size).1.
Proof.
  revert size. induction h as [|h IH]; intros size; [done|].
  simpl createBlankTree.
  pose proof (IH size) as Hl.
  destruct (createBlankTree_spec bk bd h size) as (l & El & Pl).
  rewrite El in Hl |- *. simpl in Hl.
  pose proof (IH (size + 2 ^ Z.of_nat h - 1)) as Hr.
  destruct (createBlankTree_spec bk bd h (size + 2 ^ Z.of_nat h - 1))
    as (r & Er & Pr).
  rewrite Er in Hr |- *. simpl in Hr. simpl.
  rewrite (avl_getHeight _ Hl), (avl_getHeight _ Hr).
  rewrite (perfect_height _ _ Pl), (perfect_height _ _ Pr).
  split_and!; try done; lia.
Qed.

(** Trimming a complete tree with exact heights leaves exact heights and
    balanced nodes: only the last level loses nodes. *)
Lemma trimTreeInOrder_avl {T} h (n : Node T) size cur req :
  perfect (S h) n → avl n → req ≤ cur →
  avl (trimTreeInOrder n size cur req).1.1.
Proof.
  revert n size cur. induction h as [|h IH]; intros n size cur Hn Ha Hle.
  - destruct n as [|[|] k d [|] lh rh]; try (simpl in Hn; tauto).
    destruct (decide (cur = req)) as [->|Hne].
    + by rewrite trimTreeInOrder_done.
    + rewrite trimTreeInOrder_Nd by done. simpl.
      by destruct (cur =? req).
  - destruct n as [|l k d r lh rh]; [done|]. destruct Hn as [Hl Hr].
    destruct Ha as (Hal & Har & -> & -> & Hb).
    destruct (decide (cur = req)) as [->|Hne].
    + rewrite trimTreeInOrder_done. simpl. split_and!; try done; lia.
    + rewrite trimTreeInOrder_Nd by done.
      pose proof (IH l size cur Hl Hal Hle) as Hal'.
      destruct (trimTreeInOrder_spec h l size cur req Hl Hle)
        as (l' & El & _ & Hhl).
      rewrite El in Hal' |- *. simpl in Hal'.
      set (m1 := Z.min (cur - req) (2 ^ Z.of_nat h)) in *.
      assert (isLeaf (Nd l' k d r (height l) (height r)) = false) as ->.
      { destruct r; [done|]. by destruct l'. }
      assert (Hle' : req ≤ cur - m1) by lia.
      pose proof (IH r (size - m1) (cur - m1) Hr Har Hle') as Har'.
      destruct (trimTreeInOrder_spec h r (size - m1) (cur - m1) req Hr Hle')
        as (r' & Er & _ & Hhr).
      rewrite Er in Har' |- *. simpl in Har'. simpl.
      rewrite (avl_getHeight _ Hal'), (avl_getHeight _ Har').
      split_and!; try done; rewrite Hhl, Hhr;
        destruct (_ =? _), (_ =? _); lia.
Qed.

(** Filling writes keys and data only: NULL children, heights and cached
    heights stay. *)
Lemma fillTreeInOrder_shape {T} (n : Node T) data keys i n' i' :
  fillTreeInOrder n data keys i = Ret (n', i') →
  (n = NULL ↔ n' = NULL) ∧ height n' = height n ∧
  (avl n → avl n') ∧ (hpos n → hpos n').
Proof.
  revert i n' i'. induction n as [|l IHl k d r IHr lh rh]; intros i n' i' H.
  { injection H as <- <-. done. }
  simpl in H.
  destruct (fillTreeInOrder l data keys i) as [[l' i1]| | |] eqn:El; try done.
  simpl in H.
  destruct (data !! i1) as [d1|]; [|done].
  destruct (keys !! i1) as [k1|]; [|done].
  destruct (fillTreeInOrder r data keys (S i1)) as [[r' i2]| | |] eqn:Er;
    try done.
  injection H as <- <-.
  destruct (IHl _ _ _ El) as (Nl & Hl & Al & Pl).
  destruct (IHr _ _ _ Er) as (Nr & Hr & Ar & Pr).
  split; [done|]. split; [simpl; by rewrite Hl, Hr|]. split.
  - intros (? & ? & -> & -> & ?). simpl. rewrite Hl, Hr. split_and!; auto; lia.
  - intros (? & ? & Cl & Cr). simpl. split_and!; auto.
    + destruct l, l'; try done; destruct Nl as [N1 N2];
        first [by specialize (N1 eq_refl)|by specialize (N2 eq_refl)].
    + destruct r, r'; try done; destruct Nr as [N1 N2];
        first [by specialize (N1 eq_refl)|by specialize (N2 eq_refl)].
Qed.

(** What a successful [generateInOrder] does: the skeleton [r0] is the
    live tree when the counts agree and a freshly built, trimmed tree
    otherwise; filling it gives the new root. *)
Lemma generateInOrder_fill {T} bk (bd : T) (t : AVLTree T)
    (data : list T) (keys : list Z) (count : Z) :
  0 < count →
  (Z.to_nat count ≤ length data)%nat →
  (Z.to_nat count ≤ length keys)%nat →
  size t = Z.of_nat (length (inorder (root t))) →
  ∃ r0 r' i',
    generateInOrder bk bd (Some data) (Some keys) count t =
      (mkAVLTree r' (updateMinimal r') count, Ret ()) ∧
    fillTreeInOrder r0 (take (Z.to_nat count) data) keys 0 = Ret (r', i') ∧
    inorder r' = take (Z.to_nat count) (zip keys data) ∧
    (size t = count → r0 = root t) ∧
    (size t ≠ count → avl r0).
Proof.
  intros Hc Hd Hk Hs. unfold generateInOrder.
  destruct (count <? 0) eqn:E1; [apply Z.ltb_lt in E1; lia|].
  destruct (count =? 0) eqn:E2; [apply Z.eqb_eq in E2; lia|].
  destruct (Z.to_nat count <=? length data)%nat eqn:E3;
    [|apply Nat.leb_gt in E3; lia].
  simpl negb. cbv iota.
  assert (Hzip : length (zip keys (take (Z.to_nat count) data)) = Z.to_nat count).
  { rewrite length_zip_with, length_take. lia. }
  destruct (size t =? count) eqn:E4;
    [apply Z.eqb_eq in E4|apply Z.eqb_neq in E4]; simpl negb; cbv iota.
  - destruct (fillTreeInOrder_spec (root t) (take (Z.to_nat count) data) keys 0)
      as (r' & Hf & Hi & Hh); [lia|].
    exists (root t), r', (0 + length (inorder (root t)))%nat.
    rewrite Hf. split; [by rewrite E4|]. split; [done|].
    split; [|done].
    rewrite Hi, drop_0.
    replace (length (inorder (root t))) with (Z.to_nat count) by lia.
    by rewrite take_zip_take.
  - destruct (getTreeHeightByNodesCount_spec count) as (h & -> & Hh0 & Hhc & Hmin);
      [lia|].
    unfold mbind, res_bind.
    assert (1 ≤ h).
    { destruct (decide (h = 0)) as [->|]; [simpl in Hhc|]; lia. }
    destruct (Z.to_nat h) as [|h0] eqn:Eh; [lia|].
    assert (Hh : h = Z.of_nat (S h0)) by lia.
    rewrite recursiveDestruct_spec.
    pose proof (createBlankTree_avl bk bd (S h0) (size t - nodes (root t)))
      as Hna.
    destruct (createBlankTree_spec bk bd (S h0) (size t - nodes (root t)))
      as (n & En & Hn).
    rewrite En in Hna |- *. simpl in Hna.
    unfold POWER_TWO.
    assert (Hpow : 2 ^ h = 2 * 2 ^ Z.of_nat h0).
    { rewrite Hh, Nat2Z.inj_succ, Z.pow_succ_r by lia. done. }
    assert (Hprev : 2 ^ Z.of_nat h0 - 1 < count) by (apply Hmin; lia).
    pose proof (trimTreeInOrder_avl h0 n
                  (size t - nodes (root t) + 2 ^ Z.of_nat (S h0) - 1)
                  (2 ^ h - 1) count Hn Hna Hhc) as Hta.
    destruct (trimTreeInOrder_spec h0 n
                (size t - nodes (root t) + 2 ^ Z.of_nat (S h0) - 1)
                (2 ^ h - 1) count Hn Hhc) as (n' & Et & Hnn & Hnh).
    rewrite Et in Hta |- *. simpl in Hta.
    set (m := Z.min (2 ^ h - 1 - count) (2 ^ Z.of_nat h0)) in *.
    assert (Hm : m = 2 ^ h - 1 - count) by lia.
    rewrite (perfect_nodes _ _ Hn), <- Hh in Hnn.
    assert (Hlen : length (inorder n') = Z.to_nat count).
    { rewrite nodes_length in Hnn. lia. }
    destruct (fillTreeInOrder_spec n' (take (Z.to_nat count) data) keys 0)
      as (r' & Hf & Hi & Hhr); [lia|].
    exists n', r', (0 + length (inorder n'))%nat.
    rewrite Hf. split.
    { do 2 f_equal. rewrite nodes_length, <- Hh. lia. }
    split; [done|]. split; [|done].
    by rewrite Hi, drop_0, Hlen, take_zip_take.
Qed.

(** X8.  A successful [generateInOrder] that rebuilds the tree leaves
    every cached height exact and every node balanced, so [isBalanced]
    answers true; when it refills the live nodes in place instead, the
    tree is in that state provided it was before. *)
Theorem generateInOrder_balanced {T} bk (bd : T) (t : AVLTree T)
    (data : list T) (keys : list Z) (count : Z) :
  0 < count →
  (Z.to_nat count ≤ length data)%nat →
  (Z.to_nat count ≤ length keys)%nat →
  size t = Z.of_nat (length (inorder (root t))) →
  (size t = count →
   heights_exact (root t) = true ∧ balanced (root t) = true) →
  let t' := (generateInOrder bk bd (Some data) (Some keys) count t).1 in
  heights_exact (root t') = true ∧ balanced (root t') = true ∧
  isBalanced t' = true.
Proof.
  intros Hc Hd Hk Hs Hsame t'.
  destruct (generateInOrder_fill bk bd t data keys count Hc Hd Hk Hs)
    as (r0 & r' & i' & Hg & Hf & _ & Hsz & Hne).
  subst t'. rewrite Hg. simpl.
  assert (Ha0 : avl r0).
  { destruct (decide (size t = count)) as [E|E]; [|by apply Hne].
    rewrite (Hsz E). apply avl_exact_balanced. by apply Hsame. }
  destruct (fillTreeInOrder_shape _ _ _ _ _ _ Hf) as (_ & _ & Ha & _).
  apply Ha, avl_exact_balanced in Ha0 as [He Hb].
  split; [done|]. split; [done|].
  unfold isBalanced. simpl. by rewrite getMaxBalanceFactorAux_exact.
Qed.

Lemma generateInOrder_balanced_witness :
  let t := run (inserts [5; 9]) AVLTree_new in
  let t' := (generateInOrder 0 () (Some [(); (); (); (); ()])
               (Some [1; 2; 3; 4; 5]) 5 t).1 in
  heights_exact (root t') = true ∧ balanced (root t') = true ∧
  isBalanced t' = true.
Proof.
  intros t.
  apply (generateInOrder_balanced 0 () t [(); (); (); (); ()] [1; 2; 3; 4; 5] 5).
  - lia.
  - simpl. lia.
  - simpl. lia.
  - reflexivity.
  - intros H. vm_compute in H. discriminate.
Defined.

(** ** Lookups after a bulk load *)

Lemma fst_take_zip {A B} n (ks : list A) (ds : list B) :
  (n ≤ length ds)%nat → (take n (zip ks ds)).*1 = take n ks.
Proof.
  revert ks ds. induction n as [|n IH]; intros [|k ks] [|d ds] Hn; simpl in *;
    try done; try lia.
  f_equal. apply IH. lia.
Qed.

(** A bulk load of strictly ascending keys into a well-formed tree gives
    a well-formed tree holding the first [count] pairs. *)
Lemma generateInOrder_ok {T} bk (bd : T) (t : AVLTree T)
    (arr_data : list T) (arr_keys : list Z) (count : Z) :
  tree_ok t →
  0 < count →
  (Z.to_nat count ≤ length arr_data)%nat →
  (Z.to_nat count ≤ length arr_keys)%nat →
  ascending (take (Z.to_nat count) arr_keys) →
  ∃ t', generateInOrder bk bd (Some arr_data) (Some arr_keys) count t = (t', Ret ()) ∧
        tree_ok t' ∧ minimal t' = updateMinimal (root t') ∧
        inorder (root t') = take (Z.to_nat count) (zip arr_keys arr_data).
Proof.
  intros (_ & Hp & Hs) Hc Hd Hk Ha.
  destruct (generateInOrder_fill bk bd t arr_data arr_keys count Hc Hd Hk Hs)
    as (r0 & r' & i' & Hg & Hf & Hi & Hsz & Hne).
  eexists. split; [done|]. simpl. split; [|done].
  assert (Hp0 : hpos r0).
  { destruct (decide (size t = count)) as [E|E]; [by rewrite (Hsz E)|].
    by apply avl_hpos, Hne. }
  destruct (fillTreeInOrder_shape _ _ _ _ _ _ Hf) as (_ & _ & _ & Hp').
  split_and!; simpl.
  - unfold keys. rewrite Hi, fst_take_zip; done.
  - by apply Hp'.
  - rewrite Hi, length_take, length_zip_with. lia.
Qed.

(** X9.  Bulk-loading [count] strictly ascending keys into a tree
    reached from the empty one returns; afterwards [getSize] is [count],
    the key at each of the first [count] positions is found with the
    data at the same position, and every other key, the tree's former
    keys included, is reported missing. *)
Theorem generateInOrder_then_find {T} bk (bd : T) (ops : list (op T))
    (arr_data : list T) (arr_keys : list Z) (count : Z) :
  let t := run ops AVLTree_new in
  0 < count →
  (Z.to_nat count ≤ length arr_data)%nat →
  (Z.to_nat count ≤ length arr_keys)%nat →
  StronglySorted Z.lt (take (Z.to_nat count) arr_keys) →
  ∃ t', generateInOrder bk bd (Some arr_data) (Some arr_keys) count t = (t', Ret ()) ∧
        getSize t' = count ∧
        (∀ i k d, (i < Z.to_nat count)%nat →
                  arr_keys !! i = Some k → arr_data !! i = Some d →
                  Find k t' ≫= deref t' = Ret d) ∧
        (∀ k, k ∉ take (Z.to_nat count) arr_keys →
              Find k t' = Throw AVLTreeKeyNotFoundException).
Proof.
  intros t Hc Hd Hk Ha.
  pose proof (run_ok ops _ (@tree_ok_new T)) as Hok. fold t in Hok.
  destruct (generateInOrder_ok bk bd t arr_data arr_keys count Hok Hc Hd Hk Ha)
    as (t' & Hg & Hok' & _ & Hi).
  exists t'. split; [done|]. split_and!.
  - destruct Hok' as (_ & _ & Hs). unfold getSize.
    rewrite Hs, Hi, length_take, length_zip_with. lia.
  - intros i k d Hlt Hki Hdi. apply Find_deref; [done|].
    rewrite Hi. apply list_elem_of_lookup. exists i.
    rewrite lookup_take_lt by done.
    apply lookup_zip_with_Some. by exists k, d.
  - intros k Hn. apply Find_absent; [done|].
    unfold keys. by rewrite Hi, fst_take_zip.
Qed.

Lemma generateInOrder_then_find_witness :
  let t := run [OpInsert 7 70; OpInsert 9 90] AVLTree_new in
  ∃ t', generateInOrder 0 0 (Some [10; 20; 30; 40]) (Some [1; 2; 3; 4]) 3 t
          = (t', Ret ()) ∧
        getSize t' = 3 ∧
        (∀ i k d, (i < Z.to_nat 3)%nat →
                  [1; 2; 3; 4] !! i = Some k → [10; 20; 30; 40] !! i = Some d →
                  Find k t' ≫= deref t' = Ret d) ∧
        (∀ k, k ∉ take (Z.to_nat 3) [1; 2; 3; 4] →
              Find k t' = Throw AVLTreeKeyNotFoundException).
Proof.
  intros t.
  apply (generateInOrder_then_find 0 0 [OpInsert 7 70; OpInsert 9 90]
           [10; 20; 30; 40] [1; 2; 3; 4] 3).
  - lia.
  - simpl. lia.
  - simpl. lia.
  - compute_done.
Defined.

(** X10.  A tree bulk-loaded with strictly ascending keys can be used
    like one built by insertions: after any further insertions and
    deletions the key traversal is strictly ascending, [getSize] is its
    length, [getMinimal] reaches the data of the least key, and the next
    operation returns or throws one of the two key exceptions. *)
Theorem generateInOrder_then_run {T} bk (bd : T) (ops ops' : list (op T))
    (arr_data : list T) (arr_keys : list Z) (count : Z) :
  let t := run ops AVLTree_new in
  0 < count →
  (Z.to_nat count ≤ length arr_data)%nat →
  (Z.to_nat count ≤ length arr_keys)%nat →
  StronglySorted Z.lt (take (Z.to_nat count) arr_keys) →
  let t' := run ops' (generateInOrder bk bd (Some arr_data) (Some arr_keys) count t).1 in
  StronglySorted Z.lt (inorderOutputAux (root t')) ∧
  getSize t' = Z.of_nat (length (inorderOutputAux (root t'))) ∧
  match inorder (root t') with
  | [] => getMinimal t' = Throw AVLTreeKeyNotFoundException
  | (k, d) :: rest =>
      getMinimal t' ≫= deref t' = Ret d ∧ Forall (λ kd, k < kd.1) rest
  end ∧
  ∀ o, (step t' o).2 = Ret () ∨
       (step t' o).2 = Throw AVLTreeKeyAlreadyExistsException ∨
       (step t' o).2 = Throw AVLTreeKeyNotFoundException.
Proof.
  intros t Hc Hd Hk Ha t'.
  pose proof (run_ok ops _ (@tree_ok_new T)) as Hok. fold t in Hok.
  destruct (generateInOrder_ok bk bd t arr_data arr_keys count Hok Hc Hd Hk Ha)
    as (t0 & Hg & Hok0 & Hm0 & _).
  subst t'. rewrite Hg. simpl fst.
  pose proof (run_ok ops' _ Hok0) as Hok'.
  pose proof (minimal_updated ops' _ Hm0) as Hm'.
  set (t' := run ops' t0) in *.
  rewrite inorderOutputAux_keys. split_and!.
  - apply Hok'.
  - destruct Hok' as (_ & _ & Hs). unfold getSize, keys.
    by rewrite length_fmap.
  - apply getMinimal_spec; [apply Hok'|done].
  - intros o. destruct (step_ok t' o Hok') as [_ [?|[_ [?|?]]]]; auto.
Qed.

Lemma generateInOrder_then_run_witness :
  let t := run [OpInsert 7 70; OpInsert 9 90] AVLTree_new in
  let t' := run [OpDelete 2; OpInsert 5 50]
              (generateInOrder 0 0 (Some [10; 20; 30]) (Some [1; 2; 3]) 3 t).1 in
  StronglySorted Z.lt (inorderOutputAux (root t')) ∧
  getSize t' = Z.of_nat (length (inorderOutputAux (root t'))) ∧
  match inorder (root t') with
  | [] => getMinimal t' = Throw AVLTreeKeyNotFoundException
  | (k, d) :: rest =>
      getMinimal t' ≫= deref t' = Ret d ∧ Forall (λ kd, k < kd.1) rest
  end ∧
  ∀ o, (step t' o).2 = Ret () ∨
       (step t' o).2 = Throw AVLTreeKeyAlreadyExistsException ∨
       (step t' o).2 = Throw AVLTreeKeyNotFoundException.
Proof.
  intros t.
  apply (generateInOrder_then_run 0 0 [OpInsert 7 70; OpInsert 9 90]
           [OpDelete 2; OpInsert 5 50] [10; 20; 30] [1; 2; 3] 3).
  - lia.
  - simpl. lia.
  - simpl. lia.
  - compute_done.
Defined.

(** ** Lookups in the map *)

Lemma keys_unique_key {T} (l : list (Z * T)) k1 k2 p :
  NoDup l.*2 → (k1, p) ∈ l → (k2, p) ∈ l → k1 = k2.
Proof.
  induction l as [|[k' p'] l IH]; simpl; [by intros _ ?%elem_of_nil|].
  intros [Hk Hl]%NoDup_cons [E1|H1]%elem_of_cons [E2|H2]%elem_of_cons.
  - congruence.
  - inversion E1; subst. destruct Hk. apply list_elem_of_fmap. by exists (k2, p').
  - inversion E2; subst. destruct Hk. apply list_elem_of_fmap. by exists (k1, p').
  - by apply IH.
Qed.

Lemma HashMap_Find_present {V} (m : HashMap V) key p :
  map_wf m → (key, p) ∈ pairs m →
  ∃ v, heap m !! p = Some v ∧ HashMap_Find key m = Ret v.
Proof.
  intros Hwf Hin. pose proof Hwf as (Hb & _ & _ & _ & Hlive).
  assert (Hk : key ∈ (pairs m).*1).
  { apply list_elem_of_fmap. by exists (key, p). }
  assert (Hp : p ∈ (pairs m).*2).
  { apply list_elem_of_fmap. by exists (key, p). }
  rewrite Forall_forall in Hlive. destruct (Hlive _ Hp) as [v Hv].
  exists v. split; [done|]. unfold HashMap_Find.
  rewrite (HashMap_Contains_spec m key Hwf), bool_decide_eq_true_2 by done.
  destruct (bucket_at_hash _ _ key Hb) as (t & Ht & ->).
  assert (HF : Find key t ≫= deref t = Ret p).
  { apply Find_deref.
    - destruct Hb as (_ & _ & Hb'). by destruct (Hb' _ _ Ht).
    - by apply (elem_of_all_pairs_bucket _ _ key p t Hb Ht). }
  unfold mbind, res_bind in *. by rewrite HF, Hv.
Qed.

(** The outcome of a map lookup depends only on the pairs the key has
    and on the cells they point to. *)
Lemma HashMap_Find_determined {V} (m m' : HashMap V) k :
  map_wf m → map_wf m' →
  (∀ p, (k, p) ∈ pairs m' ↔ (k, p) ∈ pairs m) →
  (∀ p, (k, p) ∈ pairs m → heap m' !! p = heap m !! p) →
  HashMap_Find k m' = HashMap_Find k m ∧
  HashMap_Contains k m' = HashMap_Contains k m.
Proof.
  intros Hwf Hwf' Hiff Hh.
  assert (Hkiff : k ∈ (pairs m').*1 ↔ k ∈ (pairs m).*1).
  { rewrite !list_elem_of_fmap. split.
    - intros ([k' p] & -> & Hin). exists (k', p). split; [done|]. by apply Hiff.
    - intros ([k' p] & -> & Hin). exists (k', p). split; [done|]. by apply Hiff. }
  split.
  - destruct (decide (k ∈ (pairs m).*1)) as [Hin|Hin].
    + apply list_elem_of_fmap in Hin as ([k' p] & -> & Hin). simpl in *.
      destruct (HashMap_Find_present m k' p Hwf Hin) as (v & Hv & ->).
      destruct (HashMap_Find_present m' k' p Hwf') as (v' & Hv' & ->);
        [by apply Hiff|].
      rewrite (Hh _ Hin) in Hv'. congruence.
    + rewrite (HashMap_Find_absent m k Hwf Hin).
      apply HashMap_Find_absent; [done|]. by rewrite Hkiff.
  - rewrite !HashMap_Contains_spec by done. f_equal.
    by apply bool_decide_ext.
Qed.

Lemma Permutation_cons_pairs {T} (l l' : list (Z * T)) key p k q :
  l' ≡ₚ (key, p) :: l → k ≠ key → (k, q) ∈ l' ↔ (k, q) ∈ l.
Proof.
  intros HP Hne. rewrite HP, elem_of_cons. split; [|by right].
  intros [[= ? ?]|?]; done.
Qed.

Lemma int_cast_range key : INT_MIN ≤ int_cast key ≤ INT_MAX.
Proof.
  unfold int_cast, INT_MIN, INT_MAX.
  pose proof (Z.mod_pos_bound (key - - 2 ^ 31) (2 ^ 32) ltac:(lia)). lia.
Qed.

Lemma int_cast_id key : INT_MIN ≤ key ≤ INT_MAX → int_cast key = key.
Proof.
  unfold int_cast, INT_MIN, INT_MAX. intros Hk.
  rewrite Z.mod_small by lia. lia.
Qed.

(** A key wider than [int] is hashed by its low 32 bits. *)
Example hashFunction_wide_key :
  hashFunction (2 ^ 32 + 3) 10 = 3 ∧ (2 ^ 32 + 3) mod 10 = 9.
Proof. by vm_compute. Qed.

(** X11.  For a positive capacity [hashFunction] is a valid index into
    the bucket array: the least non-negative residue of the key as cast
    to [int], also when the remainder of the division is negative.  For
    a key in the range of [int] that is the least non-negative residue
    of the key itself. *)
Theorem hashFunction_mod (key sz : Z) :
  0 < sz →
  0 ≤ hashFunction key sz < sz ∧
  hashFunction key sz = int_cast key mod sz ∧
  (INT_MIN ≤ key ≤ INT_MAX → hashFunction key sz = key mod sz).
Proof.
  intros Hsz. pose proof (hashFunction_range key sz Hsz) as Hr.
  split; [done|].
  assert (Hc : hashFunction key sz = int_cast key mod sz).
  { unfold hashFunction in *.
    pose proof (Z.quot_rem' (int_cast key) sz) as Hq.
    destruct (0 <=? Z.rem (int_cast key) sz).
    - apply (Z.mod_unique_pos _ _ (Z.quot (int_cast key) sz)); [done|lia].
    - apply (Z.mod_unique_pos _ _ (Z.quot (int_cast key) sz - 1)); [done|lia]. }
  split; [done|]. intros Hk. by rewrite Hc, int_cast_id.
Qed.

Lemma hashFunction_mod_witness :
  0 ≤ hashFunction (-13) 10 < 10 ∧
  hashFunction (-13) 10 = int_cast (-13) mod 10 ∧
  (INT_MIN ≤ -13 ≤ INT_MAX → hashFunction (-13) 10 = (-13) mod 10).
Proof. apply (hashFunction_mod (-13) 10). lia. Defined.

(** X12.  In a map reached from the empty one, inserting a key that
    [Contains] denies returns; afterwards [Find] of the key yields the
    inserted object, [Contains] affirms it, [getSize] has grown by one,
    and [Find] and [Contains] answer for every other key as before,
    whether or not the insertion resized the table. *)
Theorem map_insert_then_find {V} (ops : list (mop V)) (key : Z) (obj : V) :
  let m := mrun ops HashMap_new in
  HashMap_Contains key m = Ret false →
  ∃ m' p, HashMap_Insert key obj m = (m', Ret p) ∧
          HashMap_Find key m' = Ret obj ∧
          HashMap_Contains key m' = Ret true ∧
          HashMap_getSize m' = HashMap_getSize m + 1 ∧
          ∀ k, k ≠ key →
               HashMap_Find k m' = HashMap_Find k m ∧
               HashMap_Contains k m' = HashMap_Contains k m.
Proof.
  intros m HC.
  pose proof (mrun_ok ops _ (@map_ok_new V)) as [Hwf Hl]. fold m in Hwf, Hl.
  pose proof (load_ok_size m Hl) as Hsz. unfold HASH_INITIAL_SIZE in Hsz.
  rewrite (HashMap_Contains_spec m key Hwf) in HC.
  assert (Hk : key ∉ (pairs m).*1).
  { intros Hin. by rewrite bool_decide_eq_true_2 in HC. }
  destruct (HashMap_Insert_absent m key obj Hwf ltac:(lia) Hk)
    as (m' & Hins & Hwf' & HP & Hh & Hc & _).
  set (p := fresh (dom (heap m))) in *.
  exists m', p. split; [done|].
  assert (Hin' : (key, p) ∈ pairs m') by (rewrite HP; by left).
  split_and!.
  - destruct (HashMap_Find_present m' key p Hwf' Hin') as (v & Hv & ->).
    rewrite Hh, lookup_insert_eq in Hv. congruence.
  - rewrite (HashMap_Contains_spec m' key Hwf'), bool_decide_eq_true_2; [done|].
    apply list_elem_of_fmap. by exists (key, p).
  - done.
  - intros k Hne. apply HashMap_Find_determined; try done.
    + intros q. by apply (Permutation_cons_pairs _ _ key p).
    + intros q Hq. rewrite Hh. apply lookup_insert_ne. intros <-.
      destruct Hwf as (_ & _ & _ & _ & Hlive). rewrite Forall_forall in Hlive.
      assert (Hpl : is_Some (heap m !! p)).
      { apply Hlive, list_elem_of_fmap. by exists (k, p). }
      apply elem_of_dom in Hpl. by apply is_fresh in Hpl.
Qed.

Lemma map_insert_then_find_witness :
  let m := mrun ((λ k, MapInsert k (k * 100)) <$> [1; 2; 3; 4; 5; 6; 7])
                HashMap_new in
  ∃ m' p, HashMap_Insert 8 800 m = (m', Ret p) ∧
          HashMap_Find 8 m' = Ret 800 ∧
          HashMap_Contains 8 m' = Ret true ∧
          HashMap_getSize m' = HashMap_getSize m + 1 ∧
          ∀ k, k ≠ 8 →
               HashMap_Find k m' = HashMap_Find k m ∧
               HashMap_Contains k m' = HashMap_Contains k m.
Proof.
  intros m.
  apply (map_insert_then_find
           ((λ k, MapInsert k (k * 100)) <$> [1; 2; 3; 4; 5; 6; 7]) 8 800).
  reflexivity.
Defined.

(** X13.  In a map reached from the empty one, deleting a key that
    [Contains] affirms returns; afterwards [Contains] denies the key and
    [Find] signals [HashMapKeyNotFoundException], [getSize] has dropped
    by one, exactly one payload cell has been released, and [Find] and
    [Contains] answer for every other key as before. *)
Theorem map_delete_then_find {V} (ops : list (mop V)) (key : Z) :
  let m := mrun ops HashMap_new in
  HashMap_Contains key m = Ret true →
  ∃ m', HashMap_Delete key m = (m', Ret ()) ∧
        HashMap_Find key m' = Throw HashMapKeyNotFoundException ∧
        HashMap_Contains key m' = Ret false ∧
        HashMap_getSize m' = HashMap_getSize m - 1 ∧
        (∃ p, is_Some (heap m !! p) ∧ heap m' = delete p (heap m)) ∧
        ∀ k, k ≠ key →
             HashMap_Find k m' = HashMap_Find k m ∧
             HashMap_Contains k m' = HashMap_Contains k m.
Proof.
  intros m HC.
  pose proof (mrun_ok ops _ (@map_ok_new V)) as [Hwf Hl]. fold m in Hwf, Hl.
  pose proof (load_ok_size m Hl) as Hsz. unfold HASH_INITIAL_SIZE in Hsz.
  rewrite (HashMap_Contains_spec m key Hwf) in HC.
  assert (Hk : key ∈ (pairs m).*1).
  { destruct (decide (key ∈ (pairs m).*1)); [done|].
    by rewrite bool_decide_eq_false_2 in HC. }
  destruct (HashMap_Delete_present m key Hwf ltac:(lia) Hk)
    as (m' & p & Hdel & Hwf' & HP & Hh & Hc & _).
  exists m'. split; [done|].
  pose proof Hwf as (_ & Hnd & _ & Hnp & Hlive).
  assert (Hk' : key ∉ (pairs m').*1).
  { rewrite HP in Hnd. simpl in Hnd. by apply NoDup_cons in Hnd as [? _]. }
  assert (Hin : (key, p) ∈ pairs m) by (rewrite HP; by left).
  split_and!.
  - by apply HashMap_Find_absent.
  - by rewrite (HashMap_Contains_spec m' key Hwf'), bool_decide_eq_false_2.
  - done.
  - exists p. split; [|done]. rewrite Forall_forall in Hlive.
    apply Hlive, list_elem_of_fmap. by exists (key, p).
  - intros k Hne. apply HashMap_Find_determined; try done.
    + intros q. symmetry. by apply (Permutation_cons_pairs _ _ key p).
    + intros q Hq. rewrite Hh. apply lookup_delete_ne. intros <-.
      apply Hne. by apply (keys_unique_key (pairs m) k key p).
Qed.

Lemma map_delete_then_find_witness :
  let m := mrun ((λ k, MapInsert k (k * 100)) <$> [1; 2; 3; 4; 5; 6; 7; 8])
                HashMap_new in
  ∃ m', HashMap_Delete 3 m = (m', Ret ()) ∧
        HashMap_Find 3 m' = Throw HashMapKeyNotFoundException ∧
        HashMap_Contains 3 m' = Ret false ∧
        HashMap_getSize m' = HashMap_getSize m - 1 ∧
        (∃ p, is_Some (heap m !! p) ∧ heap m' = delete p (heap m)) ∧
        ∀ k, k ≠ 3 →
             HashMap_Find k m' = HashMap_Find k m ∧
             HashMap_Contains k m' = HashMap_Contains k m.
Proof.
  intros m.
  apply (map_delete_then_find
           ((λ k, MapInsert k (k * 100)) <$> [1; 2; 3; 4; 5; 6; 7; 8]) 3).
  reflexivity.
Defined.

(** ** Observers of the map *)

(** X14.  In a map reached from the empty one the observers agree with
    the stored pairs: no key is stored twice, [getSize] is the number of
    pairs, [Empty] holds exactly when there is none, and for every key
    either it is stored, [Contains] affirms it and [Find] returns an
    object, or it is not stored, [Contains] denies it and [Find] signals
    [HashMapKeyNotFoundException]; no lookup faults. *)
Theorem map_observers_agree {V} (ops : list (mop V)) :
  let m := mrun ops HashMap_new in
  NoDup (pairs m).*1 ∧
  HashMap_getSize m = Z.of_nat (length (pairs m)) ∧
  (HashMap_Empty m = true ↔ pairs m = []) ∧
  ∀ key,
    (HashMap_Contains key m = Ret true ∧ key ∈ (pairs m).*1 ∧
     ∃ v, HashMap_Find key m = Ret v) ∨
    (HashMap_Contains key m = Ret false ∧ (key ∉ (pairs m).*1) ∧
     HashMap_Find key m = Throw HashMapKeyNotFoundException).
Proof.
  intros m.
  pose proof (mrun_ok ops _ (@map_ok_new V)) as [Hwf _]. fold m in Hwf.
  pose proof Hwf as (_ & Hnd & Hc & _).
  split_and!; try done.
  - unfold HashMap_Empty, EMPTY_TABLE. rewrite Hc, Z.eqb_eq.
    destruct (pairs m); simpl; [done|]. split; [lia|done].
  - intros key. rewrite (HashMap_Contains_spec m key Hwf).
    destruct (decide (key ∈ (pairs m).*1)) as [Hin|Hin].
    + left. rewrite bool_decide_eq_true_2 by done. split_and!; try done.
      pose proof Hin as ([k p] & Hk & Hin')%list_elem_of_fmap.
      simpl in Hk. subst k.
      destruct (HashMap_Find_present m key p Hwf Hin') as (v & _ & ->).
      by exists v.
    + right. rewrite bool_decide_eq_false_2 by done. split_and!; try done.
      by apply HashMap_Find_absent.
Qed.

(** ** Ownership of the payload cells *)

Lemma HashMap_Insert_owned {V} (m : HashMap V) key obj :
  map_ok m → heap_owned m → heap_owned (HashMap_Insert key obj m).1.
Proof.
  intros [Hwf Hl] Ho. pose proof (load_ok_size m Hl) as Hsz.
  unfold HASH_INITIAL_SIZE in Hsz.
  destruct (decide (key ∈ (pairs m).*1)) as [Hin|Hin].
  { by rewrite (HashMap_Insert_present m key obj Hwf Hin). }
  destruct (HashMap_Insert_absent m key obj Hwf ltac:(lia) Hin)
    as (m' & -> & _ & HP & Hh & _).
  simpl. intros q. rewrite Hh, HP. simpl. rewrite elem_of_cons, <- (Ho q).
  destruct (decide (q = fresh (dom (heap m)))) as [->|Hne].
  - rewrite lookup_insert_eq. split; [by left|by eexists].
  - rewrite lookup_insert_ne by done. split; [by right|]. by intros [?|?].
Qed.

Lemma HashMap_Delete_owned {V} (m : HashMap V) key :
  map_ok m → heap_owned m → heap_owned (HashMap_Delete key m).1.
Proof.
  intros [Hwf Hl] Ho. pose proof (load_ok_size m Hl) as Hsz.
  unfold HASH_INITIAL_SIZE in Hsz.
  destruct (decide (key ∈ (pairs m).*1)) as [Hin|Hin].
  2: { by rewrite (HashMap_Delete_absent m key Hwf Hin). }
  destruct (HashMap_Delete_present m key Hwf ltac:(lia) Hin)
    as (m' & p & -> & _ & HP & Hh & _).
  destruct Hwf as (_ & _ & _ & Hnp & _).
  rewrite HP in Hnp. simpl in Hnp. apply NoDup_cons in Hnp as [Hp _].
  simpl. intros q. rewrite Hh.
  specialize (Ho q). rewrite HP in Ho. simpl in Ho. rewrite elem_of_cons in Ho.
  destruct (decide (q = p)) as [->|Hne].
  - rewrite lookup_delete_eq. split; [by intros [? ?]|done].
  - rewrite lookup_delete_ne by done. rewrite Ho. split; [by intros [?|?]|by right].
Qed.

Lemma mrun_owned {V} (ops : list (mop V)) (m : HashMap V) :
  map_ok m → heap_owned m → heap_owned (mrun ops m).
Proof.
  revert m. induction ops as [|o ops IH]; intros m Hok Ho; [done|].
  simpl. destruct o as [key obj|key]; simpl; apply IH.
  - by apply (HashMap_Insert_ok m key obj).
  - by apply HashMap_Insert_owned.
  - by apply (HashMap_Delete_ok m key).
  - by apply HashMap_Delete_owned.
Qed.

Lemma heap_owned_new {V} : heap_owned (@HashMap_new V).
Proof.
  intros p. rewrite pairs_new. simpl. rewrite lookup_empty.
  split; [by intros [? ?]|by intros ?%elem_of_nil].
Qed.

(** X15.  In a map reached from the empty one the live payload cells are
    exactly the cells the buckets point to, no two keys share a cell,
    and their number is [getSize]: insertions and deletions neither leak
    a payload nor leave a pointer to a released one. *)
Theorem map_owns_payloads {V} (ops : list (mop V)) :
  let m := mrun ops HashMap_new in
  (∀ p, is_Some (heap m !! p) ↔ p ∈ (pairs m).*2) ∧
  NoDup (pairs m).*2 ∧
  Z.of_nat (length (map_to_list (heap m))) = HashMap_getSize m.
Proof.
  intros m.
  pose proof (mrun_ok ops _ (@map_ok_new V)) as [Hwf _]. fold m in Hwf.
  pose proof (mrun_owned ops _ (@map_ok_new V) heap_owned_new) as Ho.
  fold m in Ho. destruct Hwf as (_ & _ & Hc & Hnp & _).
  split; [done|]. split; [done|].
  unfold HashMap_getSize. rewrite Hc. f_equal.
  rewrite length_map_to_list, <- size_dom.
  assert (Hd : dom (heap m) = list_to_set (pairs m).*2).
  { apply set_eq. intros p. rewrite elem_of_dom, elem_of_list_to_set. apply Ho. }
  rewrite Hd, size_list_to_set by done. by rewrite length_fmap.
Qed.

(** ** The destructor of the map *)

Lemma lookup_remove_all {V} (ps : list loc) (h : gmap nat V) q :
  remove_all ps h !! q = if decide (q ∈ ps) then None else h !! q.
Proof.
  revert h. induction ps as [|p ps IH]; intros h; simpl.
  { destruct (decide (q ∈ [])) as [?%elem_of_nil|]; done. }
  unfold remove_all in *. rewrite IH.
  destruct (decide (q ∈ ps)) as [Hin|Hin].
  - rewrite decide_True; [done|by right].
  - destruct (decide (q = p)) as [->|Hne].
    + rewrite lookup_delete_eq. rewrite decide_True; [done|by left].
    + rewrite lookup_delete_ne by done. rewrite decide_False; [done|].
      by intros [?|?]%elem_of_cons.
Qed.

Lemma remove_all_app {V} (ps qs : list loc) (h : gmap nat V) :
  remove_all (ps ++ qs) h = remove_all qs (remove_all ps h).
Proof. unfold remove_all. by rewrite foldl_app. Qed.

(** The inner loop releases the cells from position [i] on, given that
    they are live and pairwise distinct. *)
Lemma destroy_tree_spec {V} (ps : list loc) n i (h : gmap nat V) :
  (i + n = length ps)%nat →
  NoDup (drop i ps) →
  Forall (λ p, is_Some (h !! p)) (drop i ps) →
  destroy_tree (seq i n) ps h = (remove_all (drop i ps) h, Ret ()).
Proof.
  revert i h. induction n as [|n IH]; intros i h Hlen Hnd Hlive.
  { rewrite drop_ge by lia. done. }
  destruct (lookup_lt_is_Some_2 ps i) as [p Hp]; [lia|].
  rewrite (drop_S _ _ _ Hp) in Hnd, Hlive |- *.
  apply NoDup_cons in Hnd as [Hpn Hnd].
  apply Forall_cons in Hlive as [[v Hv] Hlive].
  simpl. rewrite Hp, Hv. apply IH; [lia|done|].
  apply Forall_forall. intros q Hq. rewrite lookup_delete_ne.
  - rewrite Forall_forall in Hlive. by apply Hlive.
  - by intros ->.
Qed.

(** The outer loop releases the cells of the buckets from index [i] on. *)
Lemma destroy_entries_spec {V} (es : list (AVLTree loc)) n i (h : gmap nat V) :
  (i + n = length es)%nat →
  Forall tree_ok (drop i es) →
  NoDup (all_pairs (drop i es)).*2 →
  Forall (λ p, is_Some (h !! p)) (all_pairs (drop i es)).*2 →
  destroy_entries (seq i n) es h =
  (remove_all (all_pairs (drop i es)).*2 h, Ret ()).
Proof.
  revert i h. induction n as [|n IH]; intros i h Hlen Hok Hnd Hlive.
  { rewrite drop_ge by lia. done. }
  destruct (lookup_lt_is_Some_2 es i) as [t Ht]; [lia|].
  rewrite (drop_S _ _ _ Ht) in Hok, Hnd, Hlive |- *.
  apply Forall_cons in Hok as [(_ & _ & Hs) Hok].
  unfold all_pairs in Hnd, Hlive |- *. simpl in Hnd, Hlive |- *.
  fold (all_pairs (drop (S i) es)) in Hnd, Hlive |- *.
  rewrite fmap_app in Hnd, Hlive |- *.
  apply NoDup_app in Hnd as (Hnd1 & Hdisj & Hnd2).
  apply Forall_app in Hlive as [Hlive1 Hlive2].
  rewrite Ht. unfold getSize, inOrderExtractData, inOrderExtract.
  rewrite extractTreeDataInOrderAux_inorder, Hs, Nat2Z.id.
  rewrite (destroy_tree_spec (inorder (root t)).*2 _ 0 h);
    [|by rewrite length_fmap|done..].
  rewrite drop_0, remove_all_app. apply IH; [lia|done..|].
  apply Forall_forall. intros q Hq. rewrite lookup_remove_all.
  rewrite decide_False.
  - rewrite Forall_forall in Hlive2. by apply Hlive2.
  - intros Hq1. by apply (Hdisj q).
Qed.

(** X16.  Destroying a map reached from the empty one releases every
    payload cell exactly once: the two loops of the destructor return
    without releasing a cell twice, and no payload stays allocated. *)
Theorem map_destructor_frees_all {V} (ops : list (mop V)) :
  HashMap_destroy (mrun ops (@HashMap_new V)) = (∅, Ret ()).
Proof.
  set (m := mrun ops HashMap_new).
  pose proof (mrun_ok ops _ (@map_ok_new V)) as [Hwf _]. fold m in Hwf.
  pose proof (mrun_owned ops _ (@map_ok_new V) heap_owned_new) as Ho.
  fold m in Ho.
  destruct Hwf as ((_ & Hlen & Hb) & _ & _ & Hnp & Hlive).
  unfold HashMap_destroy. rewrite <- Hlen.
  rewrite (destroy_entries_spec (entries m) _ 0 (heap m)); rewrite ?drop_0;
    try done.
  - f_equal. apply map_eq. intros q. rewrite lookup_remove_all, lookup_empty.
    destruct (decide _) as [|Hq]; [done|].
    apply eq_None_not_Some. intros Hs. by apply Hq, Ho.
  - apply Forall_forall. intros t (i & Hi)%list_elem_of_lookup.
    by destruct (Hb _ _ Hi).
Qed.

(** ** Lookups across a resize *)

(** X17.  In a map reached from the empty one a resize in either
    direction changes no answer: [Find] and [Contains] respond for every
    key as before, and [getSize] is the same. *)
Theorem resize_preserves_lookups {V} (ops : list (mop V)) (increase : bool)
    (key : Z) :
  let m := mrun ops HashMap_new in
  let m' := (Resize increase m).1 in
  HashMap_Find key m' = HashMap_Find key m ∧
  HashMap_Contains key m' = HashMap_Contains key m ∧
  HashMap_getSize m' = HashMap_getSize m.
Proof.
  intros m m'.
  pose proof (mrun_ok ops _ (@map_ok_new V)) as [Hwf Hl]. fold m in Hwf, Hl.
  pose proof (load_ok_size m Hl) as Hsz. unfold HASH_INITIAL_SIZE in Hsz.
  destruct (Resize_spec increase m Hwf ltac:(lia))
    as (m1 & Hres & Hwf1 & HP & Hh & Hc & _).
  subst m'. rewrite Hres. simpl.
  destruct (HashMap_Find_determined m m1 key Hwf Hwf1) as [HF HC].
  - intros p. by rewrite HP.
  - intros p _. by rewrite Hh.
  - done.
Qed.

(** ** Rotation, destruction and extraction *)

(** X18.  On a node whose subtrees have exact cached heights and
    balanced nodes, whose own cached heights are exact and whose subtree
    heights differ by at most 2, [rotate] returns a subtree with the
    same in-order sequence, exact cached heights and balanced nodes; its
    height is that of the node or one less. *)
Theorem rotate_restores_balance {T} (l : Node T) (k : Z) (d : T) (r : Node T) :
  heights_exact l = true → balanced l = true →
  heights_exact r = true → balanced r = true →
  -2 ≤ height l - height r ≤ 2 →
  let N := Nd l k d r (height l) (height r) in
  ∃ n' b, rotate N = Ret (n', b) ∧
          inorder n' = inorder N ∧
          heights_exact n' = true ∧ balanced n' = true ∧
          (height n' = height N ∨ height n' = height N - 1).
Proof.
  intros Hel Hbl Her Hbr Hd N.
  assert (Hl : avl l) by (by apply avl_exact_balanced).
  assert (Hr : avl r) by (by apply avl_exact_balanced).
  destruct (rotate_avl l k d r Hl Hr Hd) as (n' & b & Hrot & Hn' & _ & Hh).
  fold N in Hrot, Hh.
  assert (HN : hpos N).
  { simpl. split_and!; try by apply avl_hpos.
    - destruct l; [done|]. apply height_pos.
    - destruct r; [done|]. apply height_pos. }
  destruct (rotate_spec N ltac:(done) HN) as (n'' & b' & Hrot' & Hi & _).
  rewrite Hrot in Hrot'. injection Hrot' as <- <-.
  apply avl_exact_balanced in Hn' as [He Hb].
  exists n', b. split_and!; try done. destruct Hh as [?|[? _]]; auto.
Qed.

Lemma rotate_restores_balance_witness :
  let l : Node () := NULL in
  let r := Nd NULL 20 () (newNode 30 ()) 0 1 in
  let N := Nd l 10 () r (height l) (height r) in
  ∃ n' b, rotate N = Ret (n', b) ∧
          inorder n' = inorder N ∧
          heights_exact n' = true ∧ balanced n' = true ∧
          (height n' = height N ∨ height n' = height N - 1).
Proof.
  intros l r.
  apply (rotate_restores_balance l 10 () r); try reflexivity.
  simpl. lia.
Defined.

(** X19.  [recursiveDestruct], which the destructor runs on the root,
    counts [size] down once per node: on a tree reached from the empty
    one it ends at 0. *)
Theorem recursiveDestruct_to_zero {T} (ops : list (op T)) :
  let t := run ops AVLTree_new in
  recursiveDestruct (root t) (getSize t) = 0.
Proof.
  intros t. pose proof (run_ok ops _ (@tree_ok_new T)) as (_ & _ & Hs).
  fold t in Hs. unfold getSize.
  rewrite recursiveDestruct_spec, nodes_length. lia.
Qed.

Lemma zip_keys_data {T} (n : Node T) :
  zip (inorderOutputAux n) (extractTreeDataInOrderAux n) = inorder n.
Proof.
  rewrite inorderOutputAux_keys, extractTreeDataInOrderAux_inorder.
  unfold keys. apply zip_fst_snd.
Qed.

(** X20.  Extraction and bulk load are inverse to each other: loading
    the keys and the data extracted from a non-empty tree reached from
    the empty one into any other such tree returns and gives a tree with
    the same in-order pairs, the same [getSize] and the same answer to
    every lookup. *)
Theorem extract_then_generateInOrder {T} bk (bd : T) (ops ops' : list (op T)) :
  let t := run ops AVLTree_new in
  let u := run ops' AVLTree_new in
  0 < getSize t →
  ∃ u', generateInOrder bk bd (Some (inOrderExtract t))
          (Some (inorderOutputAux (root t))) (getSize t) u = (u', Ret ()) ∧
        inorder (root u') = inorder (root t) ∧
        getSize u' = getSize t ∧
        ∀ k, Find k u' ≫= deref u' = Find k t ≫= deref t.
Proof.
  intros t u Hpos.
  pose proof (run_ok ops _ (@tree_ok_new T)) as Hok. fold t in Hok.
  pose proof (run_ok ops' _ (@tree_ok_new T)) as Hoku. fold u in Hoku.
  pose proof Hok as (Ha & _ & Hs). unfold getSize in *.
  assert (Hlk : length (inorderOutputAux (root t)) = Z.to_nat (size t)).
  { rewrite inorderOutputAux_keys. unfold keys. rewrite length_fmap. lia. }
  assert (Hld : length (inOrderExtract t) = Z.to_nat (size t)).
  { unfold inOrderExtract. rewrite extractTreeDataInOrderAux_inorder.
    rewrite length_fmap. lia. }
  destruct (generateInOrder_ok bk bd u (inOrderExtract t)
              (inorderOutputAux (root t)) (size t) Hoku Hpos)
    as (u' & Hg & Hok' & _ & Hi); [lia|lia| |].
  { rewrite <- Hlk, firstn_all. by rewrite inorderOutputAux_keys. }
  assert (Hi' : inorder (root u') = inorder (root t)).
  { rewrite Hi. unfold inOrderExtract. rewrite zip_keys_data.
    rewrite take_ge; [done|lia]. }
  exists u'. split_and!; try done.
  - destruct Hok' as (_ & _ & ->). rewrite Hi'. done.
  - intros k. apply lookup_determined; try done.
    intros d'. by rewrite Hi'.
Qed.

Lemma extract_then_generateInOrder_witness :
  let t := run [OpInsert 5 50; OpInsert 3 30; OpInsert 8 80] AVLTree_new in
  let u := run [OpInsert 1 10] AVLTree_new in
  ∃ u', generateInOrder 0 0 (Some (inOrderExtract t))
          (Some (inorderOutputAux (root t))) (getSize t) u = (u', Ret ()) ∧
        inorder (root u') = inorder (root t) ∧
        getSize u' = getSize t ∧
        ∀ k, Find k u' ≫= deref u' = Find k t ≫= deref t.
Proof.
  intros t u.
  apply (extract_then_generateInOrder 0 0
           [OpInsert 5 50; OpInsert 3 30; OpInsert 8 80] [OpInsert 1 10]).
  reflexivity.
Defined.

(** X21.  In a tree reached from the empty one the node [getMinimal]
    points to has no left child: [MoveLeft] on the iterator it returns
    gives the end iterator. *)
Theorem getMinimal_has_no_left {T} (ops : list (op T)) (it : iterator) :
  let t := run ops AVLTree_new in
  getMinimal t = Ret it → MoveLeft t it = Ret (mkIterator None).
Proof.
  intros t Hg.
  pose proof (minimal_updated ops (@AVLTree_new T) eq_refl) as Hm. fold t in Hm.
  unfold getMinimal in Hg. rewrite Hm in Hg.
  destruct (inorder (root t)) as [|[k d] rest] eqn:E.
  { by rewrite (inorder_nil _ E) in Hg. }
  destruct (updateMinimal_first _ _ _ _ E) as (p & r & lh & rh & Hp & Hn).
  rewrite Hp in Hg. injection Hg as <-.
  unfold MoveLeft. simpl. by rewrite Hn.
Qed.

Lemma getMinimal_has_no_left_witness :
  let t := run [OpInsert 5 50; OpInsert 3 30; OpInsert 8 80] AVLTree_new in
  MoveLeft t (mkIterator (Some [GoLeft])) = Ret (mkIterator None).
Proof.
  intros t.
  apply (getMinimal_has_no_left [OpInsert 5 50; OpInsert 3 30; OpInsert 8 80]).
  reflexivity.
Defined.
